(** * Verification of the reactivity core and the template front end

    The development embeds, function by function, the parts of the
    repository that the properties below talk about:

    - [Reactive]: [core/observer/dep.js], [core/observer/index.js],
      [core/observer/traverse.js] and [core/observer/watcher.js];
    - [ToFunction]: [compiler/to-function.js];
    - [HtmlParser]: [compiler/parser/html-parser.js];
    - [Deleting]: [del] of [core/observer/index.js];
    - [CreateCompiler]: [compiler/create-compiler.js];
    - [Init]: [resolveModifiedOptions] of [core/instance/init.js].

    JavaScript state is threaded explicitly.  Code that the repository
    receives from its users (watcher getters and callbacks, accessors
    written by the author of a data object, the scheduler entry point
    that lives outside the observer directory) is a field of an
    environment record and is quantified over in the theorems.

    The embedding comes first, then the examples and the vocabulary of
    the statements, then the proofs: [ReactiveFacts], [DepFacts],
    [WatcherFacts], [SetterFacts] and [InstallFacts] for the observer,
    [HtmlFacts] and [EndTagFacts] for the parser, [CacheFacts] for the
    compiler, and the statements on the examples.  After them come
    what the loop of the parser keeps ([ParserInvariants],
    [ParserMore], [DecodeFacts]), the cache and the diagnostics of the
    compiler ([CacheMore], [CompilerFacts], [InitFacts]) and teardown,
    reading, deletion and root data in the observer ([WatcherMore],
    [GetterFacts], [DeletingFacts], [ObserveFacts], [RootFacts],
    [SealedFacts]), with their examples. *)

From Stdlib Require Import String Ascii List Bool Arith Lia.
From Stdlib Require Import Floats.SpecFloat.
From stdpp Require Import gmap strings list fin_maps sorting pretty.

Set Default Proof Using "Type".
(* [set_solver] clears hypotheses that it did not always introduce. *)
Set Warnings "-clear-no-such-hyp".
Open Scope string_scope.

(** ** JavaScript values *)

Module Js.

(** Heap addresses of objects. *)
Definition loc := nat.

(** A JavaScript value.  Numbers are IEEE 754 data; objects, arrays and
    functions are references into the heap. *)
Inductive Value :=
| VUndefined
| VNull
| VBool (b : bool)
| VNum (x : spec_float)
| VStr (s : string)
| VRef (l : loc).

Definition NaN : Value := VNum S754_nan.

(** The operator [===]. *)
Definition strict_eq (a b : Value) : bool :=
  match a, b with
  | VUndefined, VUndefined => true
  | VNull, VNull => true
  | VBool x, VBool y => Bool.eqb x y
  | VNum x, VNum y => SFeqb x y
  | VStr x, VStr y => String.eqb x y
  | VRef x, VRef y => Nat.eqb x y
  | _, _ => false
  end.

(** [a !== b]. *)
Definition strict_neq (a b : Value) : bool := negb (strict_eq a b).

(** Result of running a piece of code: a normal completion, a thrown
    value, or no completion at all (the recursion did not come back
    within the depth the model was given). *)
Inductive Outcome (A : Type) :=
| Ok (a : A)
| Throw (e : Value)
| Diverge.
Arguments Ok {A} a.
Arguments Throw {A} e.
Arguments Diverge {A}.

End Js.
Export Js.

(** ** The observer: state *)

Module Reactive.

(** [Dep.target] and the entries of [targetStack] have type [?Watcher]:
    a watcher, [null] (the initial value of [Dep.target]) or
    [undefined] (what reading past the end of the stack gives).
    A watcher is identified by its [id], which the constructor takes
    from a counter and which is never assigned again; a [Dep] likewise. *)
Inductive Target :=
| TNull
| TUndefined
| TWatcher (w : nat).

(** Truthiness of [Dep.target]. *)
Definition active (t : Target) : option nat :=
  match t with TWatcher w => Some w | _ => None end.

(** The fields of a [Watcher] ([watcher.js]); [getter] and [cb] name
    functions supplied by the caller.  [depIds] and [newDepIds] are
    [Set]s of dep ids, [deps] and [newDeps] arrays of deps. *)
Record Watcher := mkWatcher {
  w_vm : Value;
  w_expression : string;
  w_cb : nat;
  w_deep : bool;
  w_user : bool;
  w_lazy : bool;
  w_sync : bool;
  w_dirty : bool;
  w_active : bool;
  w_deps : list nat;
  w_newDeps : list nat;
  w_depIds : gset nat;
  w_newDepIds : gset nat;
  w_getter : nat;
  w_value : Value;
}.

(** Accessor functions of a property: written by the author of the
    object, or one of the two closures made by [defineReactive], named
    by the call of [defineReactive] that made it. *)
Inductive Getter := GUser (f : nat) | GReactive (c : nat).
Inductive Setter := SUser (f : nat) | SReactive (c : nat).

(** A property descriptor. *)
Inductive Prop_ :=
| PData (value : Value) (writable enumerable configurable : bool)
| PAccessor (get : option Getter) (set : option Setter)
            (enumerable configurable : bool).

Definition configurable (p : Prop_) : bool :=
  match p with PData _ _ _ c => c | PAccessor _ _ _ c => c end.
Definition enumerable (p : Prop_) : bool :=
  match p with PData _ _ e _ => e | PAccessor _ _ e _ => e end.
Definition prop_get (p : Prop_) : option Getter :=
  match p with PData _ _ _ _ => None | PAccessor g _ _ _ => g end.
Definition prop_set (p : Prop_) : option Setter :=
  match p with PData _ _ _ _ => None | PAccessor _ s _ _ => s end.

(** What [Object.prototype.toString] tells apart. *)
Inductive Kind := KObject | KArray | KFunction | KOther.

(** A heap object.  Own string-keyed properties are kept in insertion
    order ([Object.keys]); the index properties of an array are kept
    apart, one slot per index below [length], [None] being a hole.
    Two names the framework reserves are fields rather than entries
    of [o_props]: [o_ob] is the own property [__ob__] when it holds
    an [Observer], [o_isVue] is the truthiness of [_isVue].
    [o_isVNode] is [instanceof VNode], [o_frozen] is
    [Object.isFrozen], and [o_intercepted] says that the mutating
    array methods were replaced by [protoAugment] or [copyAugment]. *)
Record Obj := mkObj {
  o_kind : Kind;
  o_props : list (string * Prop_);
  o_elems : list (option Prop_);
  o_proto : option loc;
  o_extensible : bool;
  o_frozen : bool;
  o_isVNode : bool;
  o_isVue : bool;
  o_ob : option nat;
  o_intercepted : bool;
}.

(** An [Observer]: [value], [dep], [vmCount]. *)
Record Observer := mkObserver {
  ob_value : loc;
  ob_dep : nat;
  ob_vmCount : nat;
}.

(** The variables one call of [defineReactive] closes over. *)
Record Cell := mkCell {
  c_obj : loc;
  c_dep : nat;
  c_getter : option Getter;
  c_setter : option Setter;
  c_val : Value;
  c_customSetter : option nat;
  c_shallow : bool;
  c_childOb : option nat;
}.

(** The part of a component instance that [watcher.js] touches. *)
Record Vm := mkVm {
  vm_watchers : list nat;
  vm_watcher : option nat;
  vm_isBeingDestroyed : bool;
}.

(** The whole mutable state.  [subs] maps a dep id to the array [subs]
    of that dep; [seenObjects] is the set of that name in
    [traverse.js]; [cfg_async] is [config.async].  The three counters
    give the next dep id ([uid] of [dep.js]), the next watcher id
    ([uid] of [watcher.js]) and fresh names for observers and for
    closures of [defineReactive]. *)
Record State := mkState {
  heap : gmap loc Obj;
  cells : gmap nat Cell;
  observers : gmap nat Observer;
  subs : gmap nat (list nat);
  watchers : gmap nat Watcher;
  vms : gmap loc Vm;
  dep_uid : nat;
  watcher_uid : nat;
  next_observer : nat;
  next_cell : nat;
  target : Target;
  targetStack : list Target;
  seenObjects : gset nat;
  shouldObserve : bool;
  cfg_async : bool;
}.

(** [Dep.target = null], [targetStack = []], [shouldObserve = true],
    the counters at [0]. *)
Definition init : State :=
  mkState ∅ ∅ ∅ ∅ ∅ ∅ 0 0 0 0 TNull [] ∅ true true.

(** Events that leave the observer: what [handleError] and [warn] are
    given, and, to make calls observable, the entry of every
    [Dep.notify] and of every [update] that [notify] makes. *)
Inductive ErrInfo :=
| GetterFor (expression : string)
| CallbackFor (expression : string).

Inductive Event :=
| EvNotify (d : nat)
| EvUpdate (w : nat)
| EvHandleError (e : Value) (vm : Value) (info : ErrInfo)
| EvWarn (msg : string).

(** ** State, events and exceptions *)

Record Res (A : Type) := mkRes {
  out : Outcome A;
  st : State;
  evs : list Event;
}.
Arguments mkRes {A} out st evs.
Arguments out {A} r.
Arguments st {A} r.
Arguments evs {A} r.

Definition M (A : Type) := State -> Res A.

Definition ret {A} (a : A) : M A := fun s => mkRes (Ok a) s [].
Definition throw {A} (e : Value) : M A := fun s => mkRes (Throw e) s [].
Definition diverge {A} : M A := fun s => mkRes Diverge s [].

Definition bind {A B} (m : M A) (k : A -> M B) : M B := fun s =>
  let r := m s in
  match out r with
  | Ok a => let r' := k a (st r) in mkRes (out r') (st r') (evs r ++ evs r')
  | Throw e => mkRes (Throw e) (st r) (evs r)
  | Diverge => mkRes Diverge (st r) (evs r)
  end.

Notation "'let*' x ':=' m 'in' k" := (bind m (fun x => k))
  (at level 10, x name, m at level 100, k at level 200).
Notation "m ;; k" := (bind m (fun _ => k))
  (at level 100, k at level 200, right associativity).

Definition gets {A} (f : State -> A) : M A := fun s => mkRes (Ok (f s)) s [].
Definition modify (f : State -> State) : M unit :=
  fun s => mkRes (Ok tt) (f s) [].
Definition emit (e : Event) : M unit := fun s => mkRes (Ok tt) s [e].
Definition when (b : bool) (m : M unit) : M unit := if b then m else ret tt.

(** [try { m } catch (e) { h e }]. *)
Definition try_catch {A} (m : M A) (h : Value -> M A) : M A := fun s =>
  let r := m s in
  match out r with
  | Throw e => let r' := h e (st r) in mkRes (out r') (st r') (evs r ++ evs r')
  | _ => r
  end.

(** [let value; try { value = m } finally { f value }; return value]:
    the block [f] sees the variable [value], still [undefined] when
    [m] threw; a completion of [f] that is not normal replaces the
    completion of [m]. *)
Definition try_finally (m : M Value) (f : Value -> M unit) : M Value := fun s =>
  let r := m s in
  match out r with
  | Diverge => r
  | o =>
    let value := match o with Ok v => v | _ => VUndefined end in
    let r' := f value (st r) in
    mkRes (match out r' with
           | Ok _ => o
           | Throw e => Throw e
           | Diverge => Diverge
           end) (st r') (evs r ++ evs r')
  end.

(** Code that is given to the observer rather than part of it.
    [call f this args] runs the function [f] supplied by a user (a
    watcher's getter or callback, an accessor written by the author of
    an object, a custom setter); [queueWatcher] is the scheduler's
    entry point; [isValidArrayIndex k] is the index [k] stands for when
    the helper of that name accepts [k]; [production] is
    [process.env.NODE_ENV === 'production'] and [serverRendering] is
    [isServerRendering()]. *)
Record Env := mkEnv {
  production : bool;
  serverRendering : bool;
  call : nat -> Value -> list Value -> State -> Outcome Value * State;
  queueWatcher : nat -> State -> Outcome unit * State;
  isValidArrayIndex : string -> option nat;
  toArrayLength : Value -> option nat;
}.

Definition lift {A} (f : State -> Outcome A * State) : M A :=
  fun s => let r := f s in mkRes (fst r) (snd r) [].

(** *** Reading and writing the state *)

(** A watcher that was never constructed reads as one with empty
    fields, a dep that was never constructed as one without
    subscribers. *)
Definition blank : Watcher :=
  mkWatcher VUndefined "" 0 false false false false false false
            [] [] ∅ ∅ 0 VUndefined.

Definition watcher (s : State) (w : nat) : Watcher :=
  default blank (watchers s !! w).

Definition subs_of (s : State) (d : nat) : list nat :=
  default [] (subs s !! d).

Definition set_subs (d : nat) (l : list nat) (s : State) : State :=
  mkState (heap s) (cells s) (observers s) (<[d := l]> (subs s))
          (watchers s) (vms s) (dep_uid s) (watcher_uid s)
          (next_observer s) (next_cell s) (target s) (targetStack s)
          (seenObjects s) (shouldObserve s) (cfg_async s).

Definition set_watcher (w : nat) (W : Watcher) (s : State) : State :=
  mkState (heap s) (cells s) (observers s) (subs s)
          (<[w := W]> (watchers s)) (vms s) (dep_uid s) (watcher_uid s)
          (next_observer s) (next_cell s) (target s) (targetStack s)
          (seenObjects s) (shouldObserve s) (cfg_async s).

Definition set_target (t : Target) (stack : list Target) (s : State) : State :=
  mkState (heap s) (cells s) (observers s) (subs s) (watchers s) (vms s)
          (dep_uid s) (watcher_uid s) (next_observer s) (next_cell s)
          t stack (seenObjects s) (shouldObserve s) (cfg_async s).

Definition set_dep_uid (n : nat) (s : State) : State :=
  mkState (heap s) (cells s) (observers s) (subs s) (watchers s) (vms s)
          n (watcher_uid s) (next_observer s) (next_cell s) (target s)
          (targetStack s) (seenObjects s) (shouldObserve s) (cfg_async s).

Definition set_watcher_uid (n : nat) (s : State) : State :=
  mkState (heap s) (cells s) (observers s) (subs s) (watchers s) (vms s)
          (dep_uid s) n (next_observer s) (next_cell s) (target s)
          (targetStack s) (seenObjects s) (shouldObserve s) (cfg_async s).

Definition set_seenObjects (seen : gset nat) (s : State) : State :=
  mkState (heap s) (cells s) (observers s) (subs s) (watchers s) (vms s)
          (dep_uid s) (watcher_uid s) (next_observer s) (next_cell s)
          (target s) (targetStack s) seen (shouldObserve s) (cfg_async s).

Definition set_obj (l : loc) (o : Obj) (s : State) : State :=
  mkState (<[l := o]> (heap s)) (cells s) (observers s) (subs s)
          (watchers s) (vms s) (dep_uid s) (watcher_uid s)
          (next_observer s) (next_cell s) (target s) (targetStack s)
          (seenObjects s) (shouldObserve s) (cfg_async s).

Definition set_cell (c : nat) (C : Cell) (s : State) : State :=
  mkState (heap s) (<[c := C]> (cells s)) (observers s) (subs s)
          (watchers s) (vms s) (dep_uid s) (watcher_uid s)
          (next_observer s) (next_cell s) (target s) (targetStack s)
          (seenObjects s) (shouldObserve s) (cfg_async s).

Definition set_observer (ob : nat) (O : Observer) (s : State) : State :=
  mkState (heap s) (cells s) (<[ob := O]> (observers s)) (subs s)
          (watchers s) (vms s) (dep_uid s) (watcher_uid s)
          (next_observer s) (next_cell s) (target s) (targetStack s)
          (seenObjects s) (shouldObserve s) (cfg_async s).

Definition set_next_observer (n : nat) (s : State) : State :=
  mkState (heap s) (cells s) (observers s) (subs s) (watchers s) (vms s)
          (dep_uid s) (watcher_uid s) n (next_cell s) (target s)
          (targetStack s) (seenObjects s) (shouldObserve s) (cfg_async s).

Definition set_next_cell (n : nat) (s : State) : State :=
  mkState (heap s) (cells s) (observers s) (subs s) (watchers s) (vms s)
          (dep_uid s) (watcher_uid s) (next_observer s) n (target s)
          (targetStack s) (seenObjects s) (shouldObserve s) (cfg_async s).

Definition set_vm (l : loc) (V : Vm) (s : State) : State :=
  mkState (heap s) (cells s) (observers s) (subs s) (watchers s)
          (<[l := V]> (vms s)) (dep_uid s) (watcher_uid s)
          (next_observer s) (next_cell s) (target s) (targetStack s)
          (seenObjects s) (shouldObserve s) (cfg_async s).

Definition with_deps (deps newDeps : list nat) (depIds newDepIds : gset nat)
    (W : Watcher) : Watcher :=
  mkWatcher (w_vm W) (w_expression W) (w_cb W) (w_deep W) (w_user W)
            (w_lazy W) (w_sync W) (w_dirty W) (w_active W)
            deps newDeps depIds newDepIds (w_getter W) (w_value W).

Definition with_dirty (b : bool) (W : Watcher) : Watcher :=
  mkWatcher (w_vm W) (w_expression W) (w_cb W) (w_deep W) (w_user W)
            (w_lazy W) (w_sync W) b (w_active W)
            (w_deps W) (w_newDeps W) (w_depIds W) (w_newDepIds W)
            (w_getter W) (w_value W).

Definition with_active (b : bool) (W : Watcher) : Watcher :=
  mkWatcher (w_vm W) (w_expression W) (w_cb W) (w_deep W) (w_user W)
            (w_lazy W) (w_sync W) (w_dirty W) b
            (w_deps W) (w_newDeps W) (w_depIds W) (w_newDepIds W)
            (w_getter W) (w_value W).

Definition with_value (v : Value) (W : Watcher) : Watcher :=
  mkWatcher (w_vm W) (w_expression W) (w_cb W) (w_deep W) (w_user W)
            (w_lazy W) (w_sync W) (w_dirty W) (w_active W)
            (w_deps W) (w_newDeps W) (w_depIds W) (w_newDepIds W)
            (w_getter W) v.

(** ** [dep.js] *)

(** Modelled from the spec: [remove] of [shared/util], which the
    repository imports and does not contain.  A dep that is dropped
    "unsubscribes" the watcher; the helper takes the first occurrence
    of the item out of the array and leaves an array without the item
    alone. *)
Fixpoint remove (arr : list nat) (item : nat) : list nat :=
  match arr with
  | [] => []
  | x :: rest => if Nat.eqb x item then rest else x :: remove rest item
  end.

(** [new Dep()]: [this.id = uid++; this.subs = []]. *)
Definition newDep : M nat := fun s =>
  let id := dep_uid s in
  mkRes (Ok id) (set_subs id [] (set_dep_uid (S id) s)) [].

(** [addSub (sub) { this.subs.push(sub) }] *)
Definition addSub (d sub : nat) : M unit :=
  modify (fun s => set_subs d (subs_of s d ++ [sub]) s).

(** [removeSub (sub) { remove(this.subs, sub) }] *)
Definition removeSub (d sub : nat) : M unit :=
  modify (fun s => set_subs d (remove (subs_of s d) sub) s).

(** [pushTarget]: [targetStack.push(target); Dep.target = target]. *)
Definition pushTarget (t : Target) : M unit :=
  modify (fun s => set_target t (targetStack s ++ [t]) s).

(** [popTarget]: [targetStack.pop()], then
    [Dep.target = targetStack[targetStack.length - 1]]. *)
Definition popTarget : M unit :=
  modify (fun s =>
    let stack := removelast (targetStack s) in
    set_target (List.last stack TUndefined) stack s).

(** ** [watcher.js]: the dependency sets *)

(** [addDep (dep)]. *)
Definition addDep (w d : nat) : M unit :=
  let* W := gets (fun s => watcher s w) in
  let id := d in
  if bool_decide (id ∈ w_newDepIds W) then ret tt
  else
    modify (set_watcher w
              (with_deps (w_deps W) (w_newDeps W ++ [d]) (w_depIds W)
                         ({[id]} ∪ w_newDepIds W) W)) ;;
    if bool_decide (id ∈ w_depIds W) then ret tt
    else addSub d w.

(** The loop [while (i--)] of [cleanupDeps], from the last dep of
    [this.deps] to the first; [rdeps] is [this.deps] reversed. *)
Fixpoint cleanup_loop (w : nat) (newDepIds : gset nat) (rdeps : list nat)
    : M unit :=
  match rdeps with
  | [] => ret tt
  | dep :: rest =>
    (if bool_decide (dep ∈ newDepIds) then ret tt else removeSub dep w) ;;
    cleanup_loop w newDepIds rest
  end.

(** [cleanupDeps ()]: unsubscribe from the deps not collected this
    round, then swap: [depIds] takes [newDepIds], [deps] takes
    [newDeps], and the two that are left are emptied. *)
Definition cleanupDeps (w : nat) : M unit :=
  let* W := gets (fun s => watcher s w) in
  cleanup_loop w (w_newDepIds W) (rev (w_deps W)) ;;
  let* W := gets (fun s => watcher s w) in
  modify (set_watcher w
            (with_deps (w_newDeps W) [] (w_newDepIds W) ∅ W)).

(** [depend ()] of [Dep]: [if (Dep.target) Dep.target.addDep(this)]. *)
Definition depend (d : nat) : M unit :=
  let* t := gets target in
  match active t with
  | Some w => addDep w d
  | None => ret tt
  end.

(** ** Objects of the heap

    The operations of the language on objects that the observer
    uses: [Object.getOwnPropertyDescriptor], [in], [Object.keys],
    [Object.defineProperty].  Reading and assigning a property run
    accessors and come after [defineReactive]'s closures below. *)

Definition blank_obj : Obj :=
  mkObj KObject [] [] None true false false false None false.

Definition obj (s : State) (l : loc) : Obj :=
  default blank_obj (heap s !! l).

Definition with_props (props : list (string * Prop_))
    (elems : list (option Prop_)) (o : Obj) : Obj :=
  mkObj (o_kind o) props elems (o_proto o) (o_extensible o) (o_frozen o)
        (o_isVNode o) (o_isVue o) (o_ob o) (o_intercepted o).

Definition blank_cell : Cell :=
  mkCell 0 0 None None VUndefined None false None.
Definition cell (s : State) (c : nat) : Cell :=
  default blank_cell (cells s !! c).

Definition blank_observer : Observer := mkObserver 0 0 0.
Definition observer (s : State) (ob : nat) : Observer :=
  default blank_observer (observers s !! ob).

(** [Object.prototype]. *)
Definition ObjectPrototype : loc := 0.

(** The error values of the runtime. *)
Definition TypeError : Value := VStr "TypeError".
Definition RangeError : Value := VStr "RangeError".

(** The array index a property key denotes: a decimal numeral without
    leading zero. *)
Definition digit (c : ascii) : option nat :=
  let n := nat_of_ascii c in
  if Nat.leb 48 n && Nat.leb n 57 then Some (n - 48) else None.

Fixpoint digits (k : string) (acc : nat) : option nat :=
  match k with
  | EmptyString => Some acc
  | String c rest =>
    match digit c with
    | Some d => digits rest (10 * acc + d)
    | None => None
    end
  end.

Definition array_index (k : string) : option nat :=
  match k with
  | EmptyString => None
  | String c rest =>
    if Ascii.eqb c "0"%char
    then (if String.eqb rest "" then Some 0 else None)
    else digits k 0
  end.

(** The number [n]. *)
Definition num_of_nat (n : nat) : Value :=
  VNum (binary_normalize 53 1024 (Z.of_nat n) 0 false).

Fixpoint assoc (k : string) (l : list (string * Prop_)) : option Prop_ :=
  match l with
  | [] => None
  | (k', p) :: rest => if String.eqb k k' then Some p else assoc k rest
  end.

Definition isArray (o : Obj) : bool :=
  match o_kind o with KArray => true | _ => false end.

(** [Object.getOwnPropertyDescriptor(o, k)]. *)
Definition own (o : Obj) (k : string) : option Prop_ :=
  if isArray o then
    match array_index k with
    | Some i => mjoin (o_elems o !! i)
    | None =>
      if String.eqb k "length"
      then Some (PData (num_of_nat (length (o_elems o)))
                       (negb (o_frozen o)) false false)
      else assoc k (o_props o)
    end
  else assoc k (o_props o).

(** The property [k] of the object at [l], own or found along the
    prototype chain, which has no more links than the heap has
    objects. *)
Fixpoint find_prop (n : nat) (s : State) (l : loc) (k : string)
    : option Prop_ :=
  match own (obj s l) k with
  | Some p => Some p
  | None =>
    match n, o_proto (obj s l) with
    | S n', Some l' => find_prop n' s l' k
    | _, _ => None
    end
  end.

Definition lookup_prop (s : State) (l : loc) (k : string) : option Prop_ :=
  find_prop (size (heap s)) s l k.

(** [k in o]. *)
Definition has_property (s : State) (l : loc) (k : string) : bool :=
  bool_decide (is_Some (lookup_prop s l k)).

(** [Object.keys(o)], used on objects that are not arrays. *)
Definition keys (o : Obj) : list string :=
  map fst (filter (fun kp => enumerable (snd kp) = true) (o_props o)).

(** Where a new own key goes in the order of enumeration: an index
    key before the first key that is no index or a larger one, any
    other key at the end. *)
Fixpoint insert_new (k : string) (p : Prop_) (l : list (string * Prop_))
    : list (string * Prop_) :=
  match l with
  | [] => [(k, p)]
  | (k', p') :: rest =>
    match array_index k, array_index k' with
    | Some i, Some i' =>
      if Nat.ltb i i' then (k, p) :: l else (k', p') :: insert_new k p rest
    | Some _, None => (k, p) :: l
    | None, _ => (k', p') :: insert_new k p rest
    end
  end.

Fixpoint replace (k : string) (p : Prop_) (l : list (string * Prop_))
    : list (string * Prop_) :=
  match l with
  | [] => []
  | (k', p') :: rest =>
    if String.eqb k k' then (k, p) :: rest else (k', p') :: replace k p rest
  end.

(** The slots of an array after index [i] received [p]. *)
Definition put_slot (i : nat) (p : Prop_) (elems : list (option Prop_))
    : list (option Prop_) :=
  if Nat.ltb i (length elems) then <[i := Some p]> elems
  else elems ++ replicate (i - length elems) None ++ [Some p].

(** The object after its own property [k] became [p]. *)
Definition put_own (k : string) (p : Prop_) (o : Obj) : Obj :=
  match (if isArray o then array_index k else None) with
  | Some i => with_props (o_props o) (put_slot i p (o_elems o)) o
  | None =>
    match assoc k (o_props o) with
    | Some _ => with_props (replace k p (o_props o)) (o_elems o) o
    | None => with_props (insert_new k p (o_props o)) (o_elems o) o
    end
  end.

(** [Object.defineProperty(o, k, p)] with a descriptor [p] that gives
    every attribute: refused on a property that is not configurable
    and on a new key of an object that is not extensible. *)
Definition defineProperty (l : loc) (k : string) (p : Prop_) : M unit :=
  let* o := gets (fun s => obj s l) in
  match own o k with
  | Some old =>
    if configurable old then modify (set_obj l (put_own k p o))
    else throw TypeError
  | None =>
    if o_extensible o then modify (set_obj l (put_own k p o))
    else throw TypeError
  end.

(** Loops: [for (i = from; i < from + count; i++) body(i)] and a loop
    over the elements of an array. *)
Fixpoint for_range (from count : nat) (body : nat -> M unit) : M unit :=
  match count with
  | 0 => ret tt
  | S c => body from ;; for_range (S from) c body
  end.

Fixpoint for_each {A} (l : list A) (body : A -> M unit) : M unit :=
  match l with
  | [] => ret tt
  | x :: rest => body x ;; for_each rest body
  end.

(** [warn] of [core/util/debug]: the message goes to the console. *)
Definition warn (msg : string) : M unit := emit (EvWarn msg).

(** Modelled from the spec: [handleError] of [core/util/error], which
    the repository imports and does not contain.  Errors of user
    watchers "are funneled to a centralized handler (so one failing
    watch does not crash the update cycle)": the handler takes the
    error and returns. *)
Definition handleError (e vm : Value) (info : ErrInfo) : M unit :=
  emit (EvHandleError e vm info).

(** ** [defineReactive]: the getter *)

Section Reading.
(** How an accessor is run, and [dependArray], both one level of
    calls further down. *)
Context (call_getter : Getter -> Value -> M Value).
Context (dependArray : loc -> M unit).

(** [o[k]]. *)
Definition get_prop_with (l : loc) (k : string) : M Value :=
  let* p := gets (fun s => lookup_prop s l k) in
  match p with
  | Some (PData v _ _ _) => ret v
  | Some (PAccessor (Some g) _ _ _) => call_getter g (VRef l)
  | Some (PAccessor None _ _ _) => ret VUndefined
  | None => ret VUndefined
  end.

(** [e && e.__ob__ && e.__ob__.dep.depend()]. *)
Definition depend_on_ob (e : Value) : M unit :=
  match e with
  | VRef le =>
    let* ob := gets (fun s => o_ob (obj s le)) in
    match ob with
    | Some ob =>
      let* d := gets (fun s => ob_dep (observer s ob)) in depend d
    | None => ret tt
    end
  | _ => ret tt
  end.

Definition is_array (s : State) (v : Value) : bool :=
  match v with VRef l => isArray (obj s l) | _ => false end.

(** The body of [dependArray (value)]. *)
Definition dependArray_with (value : loc) : M unit :=
  let* l := gets (fun s => length (o_elems (obj s value))) in
  for_range 0 l (fun i =>
    let* e := get_prop_with value (pretty i) in
    depend_on_ob e ;;
    let* isA := gets (fun s => is_array s e) in
    match e with
    | VRef le => if isA then dependArray le else ret tt
    | _ => ret tt
    end).

(** The closure [reactiveGetter] of the call [c] of
    [defineReactive]. *)
Definition reactiveGetter_with (c : nat) : M Value :=
  let* C := gets (fun s => cell s c) in
  let* value :=
    match c_getter C with
    | Some getter => call_getter getter (VRef (c_obj C))
    | None => ret (c_val C)
    end in
  let* t := gets target in
  match active t with
  | Some _ =>
    depend (c_dep C) ;;
    let* childOb := gets (fun s => c_childOb (cell s c)) in
    match childOb with
    | Some ob =>
      (let* d := gets (fun s => ob_dep (observer s ob)) in depend d) ;;
      let* isA := gets (fun s => is_array s value) in
      match value with
      | VRef lv => if isA then dependArray lv else ret tt
      | _ => ret tt
      end
    | None => ret tt
    end
  | None => ret tt
  end ;;
  ret value.
End Reading.

Section WithEnv.
Context (E : Env).

(** A function supplied by a user. *)
Definition call_user (f : nat) (this : Value) (args : list Value)
    : M Value :=
  lift (call E f this args).

(** Calls nest at most [n] deep: running an accessor and entering
    [dependArray] each take one level. *)
Fixpoint call_getter (n : nat) (g : Getter) (this : Value) : M Value :=
  match n with
  | 0 => diverge
  | S n' =>
    match g with
    | GUser f => call_user f this []
    | GReactive c => reactiveGetter_with (call_getter n') (dependArray n') c
    end
  end
with dependArray (n : nat) (value : loc) : M unit :=
  match n with
  | 0 => diverge
  | S n' => dependArray_with (call_getter n') (dependArray n') value
  end.

Definition reactiveGetter (n : nat) (c : nat) : M Value :=
  reactiveGetter_with (call_getter n) (dependArray n) c.

Definition get_prop (n : nat) (l : loc) (k : string) : M Value :=
  get_prop_with (call_getter n) l k.

(** ** [traverse.js] *)

(** [typeof v === 'object'] for a reference. *)
Definition isObject (o : Obj) : bool :=
  match o_kind o with KFunction => false | _ => true end.

(** [_toString.call(o) === '[object Object]']. *)
Definition isPlainObject (o : Obj) : bool :=
  match o_kind o with KObject => true | _ => false end.

(** [_traverse (val, seen)], [seen] being the module's
    [seenObjects]; going into the elements or the properties of
    [val] takes one level. *)
Fixpoint _traverse (n : nat) (val : Value) : M unit :=
  match val with
  | VRef l =>
    let* o := gets (fun s => obj s l) in
    let isA := isArray o in
    if (negb isA && negb (isObject o)) || o_frozen o || o_isVNode o
    then ret tt
    else
      let* fresh :=
        match o_ob o with
        | Some ob =>
          let* depId := gets (fun s => ob_dep (observer s ob)) in
          let* seen := gets seenObjects in
          if bool_decide (depId ∈ seen) then ret false
          else modify (set_seenObjects ({[depId]} ∪ seen)) ;; ret true
        | None => ret true
        end in
      if negb fresh then ret tt
      else
        match n with
        | 0 => diverge
        | S n' =>
          if isA then
            for_each (rev (seq 0 (length (o_elems o)))) (fun i =>
              let* v := get_prop n' l (pretty i) in _traverse n' v)
          else
            for_each (rev (keys o)) (fun k =>
              let* v := get_prop n' l k in _traverse n' v)
        end
  | _ => ret tt
  end.

(** [traverse (val)]: [_traverse(val, seenObjects)] and then
    [seenObjects.clear()]. *)
Definition traverse (n : nat) (val : Value) : M unit :=
  _traverse n val ;;
  modify (set_seenObjects ∅).

(** ** [observe], [Observer] and [defineReactive] *)

Definition with_ob (ob : option nat) (intercepted : bool) (o : Obj) : Obj :=
  mkObj (o_kind o) (o_props o) (o_elems o) (o_proto o) (o_extensible o)
        (o_frozen o) (o_isVNode o) (o_isVue o) ob intercepted.

Definition with_vmCount (n : nat) (O : Observer) : Observer :=
  mkObserver (ob_value O) (ob_dep O) n.

Section Observing.
(** [observe], one level of calls further down, and the reading
    of a property. *)
Context (observe : Value -> bool -> M (option nat)).
Context (get_prop : loc -> string -> M Value).

(** The body of [defineReactive (obj, key, val, customSetter,
    shallow)]; [val] is [None] when the call has two arguments.
    The closures it installs are named by a fresh [c], under
    which the variables they close over are filed. *)
Definition defineReactive_with (o : loc) (key : string)
    (val : option Value) (customSetter : option nat) (shallow : bool)
    : M unit :=
  let* dep := newDep in
  let* property := gets (fun s => own (obj s o) key) in
  if match property with
     | Some p => negb (configurable p)
     | None => false
     end
  then ret tt
  else
    let getter := property ≫= prop_get in
    let setter := property ≫= prop_set in
    let* val :=
      match val with
      | None =>
        if negb (bool_decide (is_Some getter))
           || bool_decide (is_Some setter)
        then get_prop o key
        else ret VUndefined
      | Some v => ret v
      end in
    let* childOb := if shallow then ret None else observe val false in
    let* c := gets next_cell in
    modify (set_next_cell (S c)) ;;
    modify (set_cell c (mkCell o dep getter setter val customSetter
                               shallow childOb)) ;;
    defineProperty o key
      (PAccessor (Some (GReactive c)) (Some (SReactive c)) true true).

(** [walk (obj)]. *)
Definition walk (o : loc) : M unit :=
  let* ks := gets (fun s => keys (obj s o)) in
  for_each ks (fun k => defineReactive_with o k None None false).

(** [observeArray (items)]. *)
Definition observeArray (items : loc) : M unit :=
  let* l := gets (fun s => length (o_elems (obj s items))) in
  for_range 0 l (fun i =>
    let* v := get_prop items (pretty i) in
    observe v false ;; ret tt).

(** [new Observer(value)]: the fields, [def(value, '__ob__',
    this)], then the augmentation and [observeArray] for an
    array, [walk] for any other object. *)
Definition newObserver (value : loc) : M nat :=
  let* dep := newDep in
  let* ob := gets next_observer in
  modify (set_next_observer (S ob)) ;;
  modify (set_observer ob (mkObserver value dep 0)) ;;
  modify (fun s =>
    set_obj value
            (with_ob (Some ob) (o_intercepted (obj s value)) (obj s value))
            s) ;;
  let* isA := gets (fun s => isArray (obj s value)) in
  (if isA then
     modify (fun s =>
       set_obj value (with_ob (Some ob) true (obj s value)) s) ;;
     observeArray value
   else walk value) ;;
  ret ob.
End Observing.

(** [observe (value, asRootData)]; making a new [Observer] takes
    one level. *)
Fixpoint observe (n : nat) (value : Value) (asRootData : bool)
    : M (option nat) :=
  match value with
  | VRef l =>
    let* o := gets (fun s => obj s l) in
    if negb (isObject o) || o_isVNode o then ret None
    else
      let* ob :=
        match o_ob o with
        | Some ob => ret (Some ob)
        | None =>
          let* so := gets shouldObserve in
          if so && negb (serverRendering E)
             && (isArray o || isPlainObject o)
             && o_extensible o && negb (o_isVue o)
          then
            match n with
            | 0 => diverge
            | S n' =>
              let* ob := newObserver (observe n') (get_prop n') l in
              ret (Some ob)
            end
          else ret None
        end in
      match ob with
      | Some ob' =>
        when asRootData
          (modify (fun s =>
             set_observer ob'
               (with_vmCount (S (ob_vmCount (observer s ob')))
                             (observer s ob')) s)) ;;
        ret ob
      | None => ret ob
      end
  | _ => ret None
  end.

Definition defineReactive (n : nat) :=
  defineReactive_with (observe n) (get_prop n).

(** ** [watcher.js]: evaluation *)

(** [isObject (value)] of [shared/util]. *)
Definition is_object (s : State) (v : Value) : bool :=
  match v with VRef l => isObject (obj s l) | _ => false end.

(** [get ()]. *)
Definition get (n : nat) (w : nat) : M Value :=
  pushTarget (TWatcher w) ;;
  let* W := gets (fun s => watcher s w) in
  let vm := w_vm W in
  try_finally
    (try_catch
       (call_user (w_getter W) vm [vm])
       (fun e =>
          let* W := gets (fun s => watcher s w) in
          if w_user W
          then handleError e vm (GetterFor (w_expression W)) ;;
               ret VUndefined
          else throw e))
    (fun value =>
       let* deep := gets (fun s => w_deep (watcher s w)) in
       when deep (traverse n value) ;;
       popTarget ;;
       cleanupDeps w).

(** [run ()]. *)
Definition run (n : nat) (w : nat) : M unit :=
  let* active := gets (fun s => w_active (watcher s w)) in
  if active then
    let* value := get n w in
    let* W := gets (fun s => watcher s w) in
    let* isObj := gets (fun s => is_object s value) in
    if strict_neq value (w_value W) || isObj || w_deep W then
      let oldValue := w_value W in
      modify (fun s => set_watcher w (with_value value (watcher s w)) s) ;;
      if w_user W then
        try_catch
          (call_user (w_cb W) (w_vm W) [value; oldValue] ;; ret tt)
          (fun e =>
             handleError e (w_vm W) (CallbackFor (w_expression W)))
      else
        call_user (w_cb W) (w_vm W) [value; oldValue] ;; ret tt
    else ret tt
  else ret tt.

(** [update ()]. *)
Definition update (n : nat) (w : nat) : M unit :=
  let* W := gets (fun s => watcher s w) in
  if w_lazy W then
    modify (fun s => set_watcher w (with_dirty true (watcher s w)) s)
  else if w_sync W then run n w
  else lift (queueWatcher E w).

(** [evaluate ()]. *)
Definition evaluate (n : nat) (w : nat) : M unit :=
  let* value := get n w in
  modify (fun s =>
    set_watcher w (with_dirty false (with_value value (watcher s w))) s).

(** [depend ()] of [Watcher]: [this.deps[i].depend()] from the last
    dep to the first. *)
Definition watcher_depend (w : nat) : M unit :=
  let* deps := gets (fun s => w_deps (watcher s w)) in
  for_each (rev deps) depend.

(** [teardown ()]. *)
Definition teardown (w : nat) : M unit :=
  let* W := gets (fun s => watcher s w) in
  if w_active W then
    match w_vm W with
    | VRef lvm =>
      modify (fun s =>
        match vms s !! lvm with
        | Some V =>
          if vm_isBeingDestroyed V then s
          else set_vm lvm (mkVm (remove (vm_watchers V) w) (vm_watcher V)
                                (vm_isBeingDestroyed V)) s
        | None => s
        end)
    | _ => ret tt
    end ;;
    for_each (rev (w_deps W)) (fun d => removeSub d w) ;;
    modify (fun s => set_watcher w (with_active false (watcher s w)) s)
  else ret tt.

(** ** [Dep.notify] *)

(** [subs.sort((a, b) => a.id - b.id)]. *)
Definition sort_by_id (l : list nat) : list nat := merge_sort Nat.le l.

(** [notify ()]: the copy [this.subs.slice()], sorted when not in
    production and [config.async] is off, then [subs[i].update()]
    for each element of the copy. *)
Definition notify (n : nat) (d : nat) : M unit :=
  emit (EvNotify d) ;;
  let* subs := gets (fun s => subs_of s d) in
  let* async := gets cfg_async in
  let subs :=
    if negb (production E) && negb async then sort_by_id subs else subs in
  for_each subs (fun sub => emit (EvUpdate sub) ;; update n sub).

(** ** [defineReactive]: the setter *)

Definition with_val (v : Value) (C : Cell) : Cell :=
  mkCell (c_obj C) (c_dep C) (c_getter C) (c_setter C) v
         (c_customSetter C) (c_shallow C) (c_childOb C).

Definition with_childOb (ob : option nat) (C : Cell) : Cell :=
  mkCell (c_obj C) (c_dep C) (c_getter C) (c_setter C) (c_val C)
         (c_customSetter C) (c_shallow C) ob.

(** [newVal === value || (newVal !== newVal && value !== value)]. *)
Definition unchanged (newVal value : Value) : bool :=
  strict_eq newVal value
  || (strict_neq newVal newVal && strict_neq value value).

Section Writing.
(** How a setter is run, one level of calls further down. *)
Context (n : nat).
Context (call_setter : Setter -> Value -> Value -> M unit).

(** The closure [reactiveSetter] of the call [c] of
    [defineReactive]. *)
Definition reactiveSetter_with (c : nat) (newVal : Value) : M unit :=
  let* C := gets (fun s => cell s c) in
  let* value :=
    match c_getter C with
    | Some getter => call_getter n getter (VRef (c_obj C))
    | None => ret (c_val C)
    end in
  if unchanged newVal value then ret tt
  else
    match c_customSetter C with
    | Some customSetter =>
      if negb (production E)
      then call_user customSetter VUndefined [] ;; ret tt
      else ret tt
    | None => ret tt
    end ;;
    if bool_decide (is_Some (c_getter C))
       && negb (bool_decide (is_Some (c_setter C)))
    then ret tt
    else
      match c_setter C with
      | Some setter => call_setter setter (VRef (c_obj C)) newVal
      | None => modify (fun s => set_cell c (with_val newVal (cell s c)) s)
      end ;;
      let* childOb :=
        if c_shallow C then ret None else observe n newVal false in
      modify (fun s => set_cell c (with_childOb childOb (cell s c)) s) ;;
      notify n (c_dep C).
End Writing.

(** Running a setter; each nested call takes one level. *)
Fixpoint call_setter (n : nat) (st : Setter) (this newVal : Value)
    : M unit :=
  match n with
  | 0 => diverge
  | S n' =>
    match st with
    | SUser f => call_user f this [newVal] ;; ret tt
    | SReactive c => reactiveSetter_with n' (call_setter n') c newVal
    end
  end.

Definition reactiveSetter (n : nat) (c : nat) (newVal : Value) : M unit :=
  reactiveSetter_with n (call_setter n) c newVal.

(** ** Assignment and [splice] *)

(** An array of [n] slots made from [elems]. *)
Definition resize (n : nat) (elems : list (option Prop_))
    : list (option Prop_) :=
  take n elems ++ replicate (n - length elems) None.

Definition fresh_data (v : Value) : Prop_ := PData v true true true.

(** [o[k] = v] in strict code: an own writable data property takes
    the value, a setter found on the object or along its prototype
    chain is run, a new own property is made on an extensible
    object, and every other case is a [TypeError].  The [length] of
    an array is resized. *)
Definition set_length (l : loc) (len : nat) : M unit :=
  let* o := gets (fun s => obj s l) in
  if o_frozen o then throw TypeError
  else modify (set_obj l (with_props (o_props o)
                                     (resize len (o_elems o)) o)).

Definition assign (n : nat) (l : loc) (k : string) (v : Value) : M unit :=
  let* o := gets (fun s => obj s l) in
  if isArray o && String.eqb k "length" then
    match toArrayLength E v with
    | Some len => set_length l len
    | None => throw RangeError
    end
  else
    match own o k with
    | Some (PData _ w e c) =>
      if w then modify (set_obj l (put_own k (PData v w e c) o))
      else throw TypeError
    | Some (PAccessor _ (Some setter) _ _) =>
      call_setter n setter (VRef l) v
    | Some (PAccessor _ None _ _) => throw TypeError
    | None =>
      let* inherited := gets (fun s => lookup_prop s l k) in
      match inherited with
      | Some (PAccessor _ (Some setter) _ _) =>
        call_setter n setter (VRef l) v
      | Some (PAccessor _ None _ _) => throw TypeError
      | Some (PData _ false _ _) => throw TypeError
      | _ =>
        if o_extensible o
        then modify (set_obj l (put_own k (fresh_data v) o))
        else throw TypeError
      end
    end.

(** Modelled from the spec: the method [splice] of an array, which
    for an observed array is the interceptor of [array.js], a file
    the repository imports and does not contain: "arrays get their
    mutating methods (push/pop/shift/unshift/splice/sort/reverse)
    intercepted to additionally observe inserted elements and fire
    the array's whole-object Dep".  [splice (l, start, deleteCount,
    items)] replaces [deleteCount] slots from [start] by [items]. *)
Definition splice (n : nat) (l : loc) (start deleteCount : nat)
    (items : list Value) : M unit :=
  let* o := gets (fun s => obj s l) in
  if o_frozen o then throw TypeError
  else
    modify (set_obj l
      (with_props (o_props o)
         (take start (o_elems o) ++ map (fun v => Some (fresh_data v)) items
            ++ drop (start + deleteCount) (o_elems o)) o)) ;;
    match o_intercepted o, o_ob o with
    | true, Some ob =>
      for_each items (fun v => observe n v false ;; ret tt) ;;
      let* d := gets (fun s => ob_dep (observer s ob)) in
      notify n d
    | _, _ => ret tt
    end.

(** ** [set] *)

(** [set (target, key, val)].  The two messages are those of the
    source, the first without the target it ends with. *)
Definition set (n : nat) (target : Value) (key : string) (val : Value)
    : M Value :=
  match target with
  | VRef l =>
    let* o := gets (fun s => obj s l) in
    match (if isArray o then isValidArrayIndex E key else None) with
    | Some i =>
      set_length l (Nat.max (length (o_elems o)) i) ;;
      splice n l i 1 [val] ;;
      ret val
    | None =>
      let* present := gets (fun s =>
        has_property s l key && negb (has_property s ObjectPrototype key)) in
      if present then assign n l key val ;; ret val
      else
        let* o := gets (fun s => obj s l) in
        let ob := o_ob o in
        let* vmCount := gets (fun s =>
          match ob with Some ob => ob_vmCount (observer s ob) | None => 0 end) in
        if o_isVue o || negb (Nat.eqb vmCount 0) then
          when (negb (production E))
            (warn ("Avoid adding reactive properties to a Vue instance or its root $data " ++
                   "at runtime - declare it upfront in the data option.")) ;;
          ret val
        else
          match ob with
          | None => assign n l key val ;; ret val
          | Some ob =>
            let* O := gets (fun s => observer s ob) in
            defineReactive n (ob_value O) key (Some val) None false ;;
            let* d := gets (fun s => ob_dep (observer s ob)) in
            notify n d ;;
            ret val
          end
    end
  | _ =>
    when (negb (production E))
      (warn "Cannot set reactive property on undefined, null, or primitive value: ") ;;
    throw TypeError
  end.

(** ** The constructor of [Watcher] *)

Record Options := mkOptions {
  opt_deep : bool;
  opt_user : bool;
  opt_lazy : bool;
  opt_sync : bool;
}.

Definition vm_of (s : State) (l : loc) : Vm :=
  default (mkVm [] None false) (vms s !! l).

(** [new Watcher(vm, expOrFn, cb, options, isRenderWatcher)] for a
    function [expOrFn] whose text is [expression]: the constructor
    up to the last assignment, then [this.value = this.lazy ?
    undefined : this.get()]. *)
Definition initWatcher (vm : loc) (expOrFn : nat) (expression : string)
    (cb : nat) (options : option Options) (isRenderWatcher : bool)
    : M nat :=
  let* id := gets (fun s => S (watcher_uid s)) in
  modify (fun s =>
    let V := vm_of s vm in
    set_vm vm (mkVm (vm_watchers V ++ [id])
                    (if isRenderWatcher then Some id else vm_watcher V)
                    (vm_isBeingDestroyed V)) s) ;;
  let opt := default (mkOptions false false false false) options in
  modify (set_watcher_uid id) ;;
  modify (set_watcher id
    (mkWatcher (VRef vm)
               (if production E then "" else expression)
               cb (opt_deep opt) (opt_user opt) (opt_lazy opt)
               (opt_sync opt) (opt_lazy opt) true [] [] ∅ ∅ expOrFn
               VUndefined)) ;;
  ret id.

Definition newWatcher (n : nat) (vm : loc) (expOrFn : nat)
    (expression : string) (cb : nat) (options : option Options)
    (isRenderWatcher : bool) : M nat :=
  let* id := initWatcher vm expOrFn expression cb options isRenderWatcher in
  let* lazy := gets (fun s => w_lazy (watcher s id)) in
  let* value := if lazy then ret VUndefined else get n id in
  modify (fun s => set_watcher id (with_value value (watcher s id)) s) ;;
  ret id.

End WithEnv.

End Reactive.

(** ** [compiler/to-function.js] *)

Module ToFunction.

(** A diagnostic of [compile]: a message, with a source range when
    [outputSourceRange] is set. *)
Record Message := mkMessage {
  msg : string;
  msg_start : option nat;
  msg_end : option nat;
}.

(** The options [compileToFunctions] reads itself; [warn] tells
    whether [options.warn] is set. *)
Record CompilerOptions := mkOptions {
  warn : bool;
  delimiters : option (string * string);
  outputSourceRange : bool;
}.

(** What [compile] returns. *)
Record CompiledResult := mkCompiled {
  render : string;
  staticRenderFns : list string;
  errors : list Message;
  tips : list Message;
}.

(** A function made by [new Function(code)], or [noop]. *)
Inductive Function_ :=
| FromCode (code : string)
| Noop.

(** The object [res]. *)
Record CompiledFunctionResult := mkRes {
  res_render : Function_;
  res_staticRenderFns : list Function_;
}.

(** Calls that leave [compileToFunctions]: of [compile], of [warn]
    ([options.warn] when [custom] is set, [baseWarn] otherwise) and of
    [tip]. *)
Inductive Warning :=
| CSP
| CompileError (template : string) (e : Message)
| CompileErrors (template : string) (es : list Message)
| FnGenErrors (es : list (string * string)).

Inductive Event :=
| EvCompile (template : string)
| EvWarn (custom : bool) (w : Warning)
| EvTip (m : Message).

Section Closure.
(** The world [compile] acts on. *)
Context {World : Type}.

(** The argument [compile] of [createCompileToFunctionFn]; the
    constructor [Function] of the runtime, which returns a function
    or throws an error of which [newFunction] gives the text; the
    test [/unsafe-eval|CSP/] on that text; and
    [process.env.NODE_ENV === 'production']. *)
Context (compile : string -> CompilerOptions -> World ->
                   Outcome CompiledResult * World).
Context (newFunction : string -> Function_ + string).
Context (mentionsCSP : string -> bool).
Context (production : bool).

(** The state of one closure made by [createCompileToFunctionFn]:
    [cache] maps a key to the address of a result object, [results]
    holds the result objects, each at the address that is its
    position. *)
Record State := mkState {
  cache : gmap string nat;
  results : list CompiledFunctionResult;
  world : World;
}.

(** [const cache = Object.create(null)]. *)
Definition createCompileToFunctionFn (w : World) : State :=
  mkState ∅ [] w.

(** [createFunction (code, errors)]: the function, and the entry
    pushed on [errors] when the constructor threw. *)
Definition createFunction (code : string)
    : Function_ * list (string * string) :=
  match newFunction code with
  | inl f => (f, [])
  | inr err => (Noop, [(err, code)])
  end.

(** [options.delimiters ? String(options.delimiters) + template :
    template]. *)
Definition key_of (options : CompilerOptions) (template : string)
    : string :=
  match delimiters options with
  | Some (open, close) => (open ++ "," ++ close ++ template)%string
  | None => template
  end.

(** [options] after [delete options.warn]. *)
Definition without_warn (options : CompilerOptions) : CompilerOptions :=
  mkOptions false (delimiters options) (outputSourceRange options).

(** The warnings about [compiled.errors] and [compiled.tips]. *)
Definition report (template : string) (options : CompilerOptions)
    (compiled : CompiledResult) : list Event :=
  (match errors compiled with
   | [] => []
   | es =>
     if outputSourceRange options
     then map (fun e => EvWarn (warn options) (CompileError template e)) es
     else [EvWarn (warn options) (CompileErrors template es)]
   end)
  ++ map EvTip (tips compiled).

(** [compileToFunctions (template, options, vm)]: the outcome (the
    address of the result object), the state and the calls made. *)
Definition compileToFunctions (template : string)
    (options : CompilerOptions) (s : State)
    : Outcome nat * State * list Event :=
  let csp :=
    if production then []
    else match newFunction "return 1" with
         | inr err => if mentionsCSP err then [EvWarn (warn options) CSP] else []
         | inl _ => []
         end in
  let key := key_of options template in
  match cache s !! key with
  | Some res => (Ok res, s, csp)
  | None =>
    match compile template (without_warn options) (world s) with
    | (Ok compiled, w) =>
      let diagnostics :=
        if production then [] else report template options compiled in
      let (render, e1) := createFunction (render compiled) in
      let fns := map createFunction (staticRenderFns compiled) in
      let fnGenErrors := (e1 ++ concat (map snd fns))%list in
      let res := length (results s) in
      let generation :=
        if production then []
        else match errors compiled, fnGenErrors with
             | [], _ :: _ => [EvWarn (warn options) (FnGenErrors fnGenErrors)]
             | _, _ => []
             end in
      (Ok res,
       mkState (<[key := res]> (cache s))
               (results s ++ [mkRes render (map fst fns)]) w,
       (csp ++ [EvCompile template] ++ diagnostics ++ generation)%list)
    | (Throw e, w) =>
      (Throw e, mkState (cache s) (results s) w,
       (csp ++ [EvCompile template])%list)
    | (Diverge, w) =>
      (Diverge, mkState (cache s) (results s) w,
       (csp ++ [EvCompile template])%list)
    end
  end.

End Closure.

End ToFunction.

(** ** [compiler/parser/html-parser.js] *)

Module HtmlParser.

(** *** Strings

    A string is its sequence of code units, here of eight bits. *)

(** [s.length > 0]: a string is truthy when it is not empty. *)
Definition truthy (s : string) : bool :=
  match s with EmptyString => false | _ => true end.

(** [s.substring(n)] and [s.slice(n)] for [0 <= n]. *)
Fixpoint drop (n : nat) (s : string) : string :=
  match n, s with
  | 0, _ => s
  | S n', String _ rest => drop n' rest
  | S _, EmptyString => EmptyString
  end.

(** [s.substring(0, n)]. *)
Fixpoint take (n : nat) (s : string) : string :=
  match n, s with
  | 0, _ => EmptyString
  | S n', String c rest => String c (take n' rest)
  | S _, EmptyString => EmptyString
  end.

(** [s.indexOf(pat)], [None] for [-1]. *)
Fixpoint indexOf (pat s : string) : option nat :=
  if String.prefix pat s then Some 0
  else match s with
       | EmptyString => None
       | String _ rest => option_map S (indexOf pat rest)
       end.

(** [s.indexOf(pat, 1)]. *)
Definition indexOf_from_1 (pat s : string) : option nat :=
  match s with
  | EmptyString => None
  | String _ rest => option_map S (indexOf pat rest)
  end.

Definition code (c : ascii) : nat := nat_of_ascii c.

Definition in_range (lo hi : nat) (c : ascii) : bool :=
  Nat.leb lo (code c) && Nat.leb (code c) hi.

Definition is_upper (c : ascii) : bool := in_range 65 90 c.
Definition is_lower (c : ascii) : bool := in_range 97 122 c.
Definition is_digit (c : ascii) : bool := in_range 48 57 c.

(** The class [\s] on eight-bit code units. *)
Definition is_space (c : ascii) : bool :=
  in_range 9 13 c || Nat.eqb (code c) 32 || Nat.eqb (code c) 160.

(** The class [\w]. *)
Definition is_word (c : ascii) : bool :=
  is_upper c || is_lower c || is_digit c || Ascii.eqb c "_".

Definition lower (c : ascii) : ascii :=
  if is_upper c then ascii_of_nat (code c + 32) else c.

(** [s.toLowerCase()]: the letters A to Z have a lower case, every
    other code unit of the model stands for itself. *)
Fixpoint toLowerCase (s : string) : string :=
  match s with
  | EmptyString => EmptyString
  | String c rest => String (lower c) (toLowerCase rest)
  end.

(** The longest prefix of [s] made of characters in [cls], and what
    follows it. *)
Fixpoint span (cls : ascii -> bool) (s : string) : string * string :=
  match s with
  | EmptyString => (EmptyString, EmptyString)
  | String c rest =>
    if cls c then let (a, b) := span cls rest in (String c a, b)
    else (EmptyString, s)
  end.

(** [s] without the prefix [p], when [s] starts with [p]; with [ci],
    letters match whatever their case. *)
Fixpoint strip (ci : bool) (p s : string) : option string :=
  match p, s with
  | EmptyString, _ => Some s
  | String a p', String b s' =>
    if (if ci then Ascii.eqb (lower a) (lower b) else Ascii.eqb a b)
    then strip ci p' s' else None
  | String _ _, EmptyString => None
  end.

Definition ch_is (a : ascii) (c : ascii) : bool := Ascii.eqb c a.
Definition ch_isnt (a : ascii) (c : ascii) : bool := negb (Ascii.eqb c a).

Definition dquote : ascii := "034"%char.
Definition squote : ascii := "039"%char.
Definition backtick : ascii := "096"%char.
Definition newline : ascii := "010"%char.
Definition tab : ascii := "009"%char.

(** *** The regular expressions

    Each one is anchored at the start of the input.  A match gives
    the length of the text matched and the groups the parser reads. *)

Section Regex.
(** The class [unicodeRegExp.source] of [core/util/lang], which the
    repository imports and does not contain, beyond the letters A
    to Z that it starts with: a class of code units above 127. *)
Context (unicodeLetter : ascii -> bool).

(** [[a-zA-Z_]] and [[\-\.0-9_a-zA-Z${unicodeRegExp.source}]]. *)
Definition ncname_start (c : ascii) : bool :=
  is_lower c || is_upper c || ch_is "_" c.

Definition ncname_char (c : ascii) : bool :=
  ch_is "-" c || ch_is "." c || is_digit c || ch_is "_" c || is_lower c
  || is_upper c || (Nat.leb 128 (code c) && unicodeLetter c).

(** [ncname]: the name and what follows it. *)
Definition ncname (s : string) : option (string * string) :=
  match s with
  | String c rest =>
    if ncname_start c
    then let (a, b) := span ncname_char rest in Some (String c a, b)
    else None
  | EmptyString => None
  end.

(** [qnameCapture], [((?:ncname\:)?ncname)]. *)
Definition qname (s : string) : option (string * string) :=
  match ncname s with
  | Some (n1, rest1) =>
    match rest1 with
    | String c rest2 =>
      if ch_is ":" c then
        match ncname rest2 with
        | Some (n2, rest3) => Some ((n1 ++ ":" ++ n2)%string, rest3)
        | None => Some (n1, rest1)
        end
      else Some (n1, rest1)
    | EmptyString => Some (n1, rest1)
    end
  | None => None
  end.

(** [startTagOpen], [^<qname]: the length of the match and the tag
    name. *)
Definition startTagOpen (html : string) : option (nat * string) :=
  match html with
  | String c rest =>
    if ch_is "<" c then
      match qname rest with
      | Some (name, _) => Some (S (String.length name), name)
      | None => None
      end
    else None
  | EmptyString => None
  end.

(** [endTag], [^<\/qname[^>]*>]. *)
Definition endTag (html : string) : option (nat * string) :=
  match strip false "</" html with
  | Some rest =>
    match qname rest with
    | Some (name, rest') =>
      let (junk, rest'') := span (ch_isnt ">") rest' in
      match rest'' with
      | String _ _ =>
        Some (S (S (String.length name + String.length junk + 1)), name)
      | EmptyString => None
      end
    | None => None
    end
  | None => None
  end.

(** [doctype], [/^<!DOCTYPE [^>]+>/i]. *)
Definition doctype (html : string) : option nat :=
  match strip true "<!DOCTYPE " html with
  | Some rest =>
    let (body, rest') := span (ch_isnt ">") rest in
    match body, rest' with
    | String _ _, String _ _ => Some (10 + String.length body + 1)
    | _, _ => None
    end
  | None => None
  end.

(** [comment], [/^<!\--/], and [conditionalComment], [/^<!\[/]. *)
Definition comment (html : string) : bool := String.prefix "<!--" html.
Definition conditionalComment (html : string) : bool :=
  String.prefix "<![" html.

(** [startTagClose], [/^\s*(\/?)>/]: the length and the group. *)
Definition startTagClose (html : string) : option (nat * string) :=
  let (ws, rest) := span is_space html in
  match rest with
  | String c rest' =>
    if ch_is ">" c then Some (String.length ws + 1, "")
    else if ch_is "/" c then
      match rest' with
      | String c' _ =>
        if ch_is ">" c' then Some (String.length ws + 2, "/") else None
      | EmptyString => None
      end
    else None
  | EmptyString => None
  end.

(** A match of [attribute] or of [dynamicArgAttribute]: the length
    of [args[0]] and the groups 1 to 5. *)
Record AttrMatch := mkAttrMatch {
  a_len : nat;
  a_name : string;
  a_eq : option string;
  a_double : option string;
  a_single : option string;
  a_bare : option string;
}.

(** The class of the characters of an attribute name (no white
    space, quote, angle bracket, slash or equals sign) and the class
    of the characters of a value without quotes (no white space,
    quote, equals sign, angle bracket or backtick). *)
Definition attr_name_char (c : ascii) : bool :=
  negb (is_space c || ch_is dquote c || ch_is squote c || ch_is "<" c
        || ch_is ">" c || ch_is "/" c || ch_is "=" c).

Definition bare_value_char (c : ascii) : bool :=
  negb (is_space c || ch_is dquote c || ch_is squote c || ch_is "=" c
        || ch_is "<" c || ch_is ">" c || ch_is backtick c).

(** A quoted value after its opening quote [q]: the characters up
    to the next [q], then one [q] or more. *)
Definition quoted (q : ascii) (s : string) : option (nat * string) :=
  let (v, rest) := span (ch_isnt q) s in
  let (quotes, _) := span (ch_is q) rest in
  match quotes with
  | String _ _ => Some (1 + String.length v + String.length quotes, v)
  | EmptyString => None
  end.

(** The optional end of both expressions: white space, the equals
    sign (group 2), white space, and a value in double quotes
    (group 3), in single quotes (group 4) or without quotes
    (group 5).  Its length and the groups 3 to 5. *)
Definition attr_value (s : string)
    : option (nat * option string * option string * option string) :=
  let (ws1, r1) := span is_space s in
  match r1 with
  | String c r2 =>
    if ch_is "=" c then
      let (ws2, r3) := span is_space r2 in
      let before := String.length ws1 + 1 + String.length ws2 in
      match r3 with
      | String q r4 =>
        if ch_is dquote q then
          match quoted dquote r4 with
          | Some (n, v) => Some (before + n, Some v, None, None)
          | None => None
          end
        else if ch_is squote q then
          match quoted squote r4 with
          | Some (n, v) => Some (before + n, None, Some v, None)
          | None => None
          end
        else
          let (v, _) := span bare_value_char r3 in
          match v with
          | String _ _ => Some (before + String.length v, None, None, Some v)
          | EmptyString => None
          end
      | EmptyString => None
      end
    else None
  | EmptyString => None
  end.

Definition with_value (lead : nat) (name : string) (rest : string)
    : AttrMatch :=
  match attr_value rest with
  | Some (n, d, q, b) =>
    mkAttrMatch (lead + String.length name + n) name (Some "=") d q b
  | None =>
    mkAttrMatch (lead + String.length name) name None None None None
  end.

(** [attribute]. *)
Definition attribute (html : string) : option AttrMatch :=
  let (ws, r) := span is_space html in
  let (name, rest) := span attr_name_char r in
  match name with
  | String _ _ => Some (with_value (String.length ws) name rest)
  | EmptyString => None
  end.

(** The position of the last [\]] of [s] that is not its first
    character. *)
Fixpoint last_bracket (s : string) : option nat :=
  match s with
  | EmptyString => None
  | String c rest =>
    match last_bracket rest with
    | Some j => Some (S j)
    | None =>
      match rest with
      | String c' _ => if ch_is "]" c' then Some 1 else None
      | EmptyString => None
      end
    end
  end.

(** The start [(?:v-[\w-]+:|@|:|#)] of a dynamic argument: the
    text and what follows. *)
Definition dynamic_prefix (s : string) : option (string * string) :=
  match s with
  | String c rest =>
    if ch_is "@" c || ch_is ":" c || ch_is "#" c
    then Some (String c EmptyString, rest)
    else
      match strip false "v-" s with
      | Some r =>
        let (w, r') := span (fun c => is_word c || ch_is "-" c) r in
        match w, r' with
        | String _ _, String c' r'' =>
          if ch_is ":" c' then Some (("v-" ++ w ++ ":")%string, r'') else None
        | _, _ => None
        end
      | None => None
      end
  | EmptyString => None
  end.

(** [dynamicArgAttribute]: the name is the prefix, [[], the longest
    run without [=] that a [\]] can still close, [\]], and the name
    characters after it. *)
Definition dynamicArgAttribute (html : string) : option AttrMatch :=
  let (ws, r) := span is_space html in
  match dynamic_prefix r with
  | Some (pre, r1) =>
    match r1 with
    | String c r2 =>
      if ch_is "[" c then
        let (run, _) := span (ch_isnt "=") r2 in
        match last_bracket run with
        | Some j =>
          let (tail, rest) := span attr_name_char (drop (S j) r2) in
          let name := (pre ++ "[" ++ take j r2 ++ "]" ++ tail)%string in
          Some (with_value (String.length ws) name rest)
        | None => None
        end
      else None
    | EmptyString => None
    end
  | None => None
  end.

End Regex.

(** *** The helpers of the parser *)

(** Modelled from the spec: [makeMap] of [shared/util], which the
    repository imports and does not contain; the maps made with it
    here are the "raw-text elements (script/style/textarea
    equivalents)" and the tags after which a first newline is
    ignored.  [makeMap(list, true)] tells whether the name, put in
    lower case, is in the list. *)
Definition makeMap (names : list string) (expectsLowerCase : bool)
    (tag : string) : bool :=
  let key := if expectsLowerCase then toLowerCase tag else tag in
  existsb (String.eqb key) names.

Definition isPlainTextElement : string -> bool :=
  makeMap ["script"; "style"; "textarea"] true.

Definition isIgnoreNewlineTag : string -> bool :=
  makeMap ["pre"; "textarea"] true.

(** [shouldIgnoreFirstNewline (tag, html)]. *)
Definition shouldIgnoreFirstNewline (tag : string) (html : string) : bool :=
  truthy tag && isIgnoreNewlineTag tag
  && match html with String c _ => ch_is newline c | EmptyString => false end.

(** [decodingMap], for [encodedAttr] and, with [nl], for
    [encodedAttrWithNewLines]. *)
Definition decodingMap (nl : bool) : list (string * ascii) :=
  [("&lt;", "<"%char); ("&gt;", ">"%char); ("&quot;", dquote);
   ("&amp;", "&"%char); ("&#39;", squote)]
  ++ (if nl then [("&#10;", newline); ("&#9;", tab)] else []).

Fixpoint find_entity (map : list (string * ascii)) (s : string)
    : option (nat * ascii) :=
  match map with
  | [] => None
  | (name, c) :: rest =>
    if String.prefix name s then Some (String.length name, c)
    else find_entity rest s
  end.

(** [value.replace(re, match => decodingMap[match])]; [skip] counts
    the characters of an entity that are still to be passed over. *)
Fixpoint decode (nl : bool) (skip : nat) (s : string) : string :=
  match s with
  | EmptyString => EmptyString
  | String c rest =>
    match skip with
    | S k => decode nl k rest
    | 0 =>
      match find_entity (decodingMap nl) s with
      | Some (len, ch) => String ch (decode nl (len - 1) rest)
      | None => String c (decode nl 0 rest)
      end
    end
  end.

Definition decodeAttr (value : string) (shouldDecodeNewlines : bool)
    : string :=
  decode shouldDecodeNewlines 0 value.

(** [text.replace(/open([\s\S]*?)close/g, '$1')]. *)
Fixpoint unwrap (opening closing : string) (skip : nat) (s : string)
    : string :=
  match s with
  | EmptyString => EmptyString
  | String c rest =>
    match skip with
    | S k => unwrap opening closing k rest
    | 0 =>
      match strip false opening s with
      | Some inner =>
        match indexOf closing inner with
        | Some k =>
          (take k inner
           ++ unwrap opening closing
                (String.length opening + k + String.length closing - 1)
                rest)%string
        | None => String c (unwrap opening closing 0 rest)
        end
      | None => String c (unwrap opening closing 0 rest)
      end
    end
  end.

(** *** The state of [parseHTML] *)

(** An element of [attrs]. *)
Record Attr := mkAttr {
  attr_name : string;
  attr_value_ : string;
  attr_start : option nat;
  attr_end : option nat;
}.

(** An element of [stack]. *)
Record Entry := mkEntry {
  tag : string;
  lowerCasedTag : string;
  attrs : list Attr;
  e_start : nat;
  e_end : nat;
}.

(** The calls of the callbacks of [options]. *)
Inductive Event :=
| Start (tagName : string) (attrs : list Attr) (unary : bool)
        (start end_ : nat)
| End_ (tagName : string) (start end_ : nat)
| Chars (text : string) (range : option (nat * nat))
| Comment (text : string) (start end_ : nat)
| Warn (msg : string) (start end_ : option nat).

(** The options [parseHTML] reads.  [has_start], [has_end],
    [has_chars] and [has_warn] tell whether the callback of that name
    is given; [comment] is called without that test. *)
Record Options := mkOptions {
  expectHTML : bool;
  isUnaryTag : option (string -> bool);
  canBeLeftOpenTag : option (string -> bool);
  shouldKeepComment : bool;
  shouldDecodeNewlines : bool;
  shouldDecodeNewlinesForHref : bool;
  outputSourceRange : bool;
  has_start : bool;
  has_end : bool;
  has_chars : bool;
  has_warn : bool;
}.

(** The variables of [parseHTML] and the calls made so far.
    [lastTag] is [None] while it is [undefined] or [0]. *)
Record PState := mkPState {
  html : string;
  index : nat;
  stack : list Entry;
  lastTag : option string;
  events : list Event;
}.

(** [s.substring(a, b)], which swaps its arguments when [b < a]. *)
Definition substring (a b : nat) (s : string) : string :=
  take (Nat.max a b - Nat.min a b) (drop (Nat.min a b) s).

(** The match of [reStackedTag], the expression
    [([\s\S]*?)(</stackedTag[^>]*>)] with the flag [i]: the lengths
    of its two groups.  [stackedTag] is one of the names of
    [isPlainTextElement], in which no character is special. *)
Definition close_here (stackedTag : string) (s : string) : option nat :=
  match strip true ("</" ++ stackedTag)%string s with
  | Some r =>
    let (junk, r') := span (ch_isnt ">") r in
    match r' with
    | String _ _ =>
      Some (2 + String.length stackedTag + String.length junk + 1)
    | EmptyString => None
    end
  | None => None
  end.

Fixpoint reStackedTag (stackedTag : string) (s : string)
    : option (nat * nat) :=
  match close_here stackedTag s with
  | Some m => Some (0, m)
  | None =>
    match s with
    | EmptyString => None
    | String _ rest =>
      match reStackedTag stackedTag rest with
      | Some (n, m) => Some (S n, m)
      | None => None
      end
    end
  end.

(** [parseStartTag]'s [match]; each element of [attrs] is the match
    of the attribute with its [start] and [end]. *)
Record Match := mkMatch {
  m_tagName : string;
  m_attrs : list (AttrMatch * nat * nat);
  m_start : nat;
  m_unarySlash : string;
  m_end : nat;
}.

(** What the body of the loop does at its end: [continue], or go on
    to the test [html === last]. *)
Inductive Flow :=
| Continue (p : PState)
| Fallthrough (p : PState).

Section Parser.
Context (unicodeLetter : ascii -> bool).
(** [process.env.NODE_ENV === 'production']. *)
Context (production : bool).
(** [isNonPhrasingTag] of [web/compiler/util], which the repository
    imports and does not contain. *)
Context (isNonPhrasingTag : string -> bool).
Context (options : Options).

Definition no (_ : string) : bool := false.

Definition emit (e : Event) (p : PState) : PState :=
  mkPState (html p) (index p) (stack p) (lastTag p) (events p ++ [e]).

Definition emit_if (b : bool) (e : Event) (p : PState) : PState :=
  if b then emit e p else p.

Definition advance (n : nat) (p : PState) : PState :=
  mkPState (drop n (html p)) (index p + n) (stack p) (lastTag p)
    (events p).

(** The first loop of [parseEndTag]: [k] is [pos + 1]; [None] is
    the [pos] of [-1] the loop ends with when nothing matches. *)
Fixpoint find_pos (stack : list Entry) (lowerCasedTagName : string)
    (k : nat) : option nat :=
  match k with
  | 0 => None
  | S pos =>
    match stack !! pos with
    | Some e =>
      if String.eqb (lowerCasedTag e) lowerCasedTagName then Some pos
      else find_pos stack lowerCasedTagName pos
    | None => find_pos stack lowerCasedTagName pos
    end
  end.

(** What the second loop does with [stack[i]]. *)
Definition close_entry (named : bool) (start end_ : nat) (pos i : nat)
    (e : Entry) (p : PState) : PState :=
  emit_if (has_end options) (End_ (tag e) start end_)
    (emit_if (negb production && (Nat.ltb pos i || negb named)
              && has_warn options)
       (Warn ("tag <" ++ tag e ++ "> has no matching end tag.")%string
          (Some (e_start e)) (Some (e_end e)))
       p).

(** The second loop of [parseEndTag]: [k] is [i + 1]. *)
Fixpoint close_loop (named : bool) (start end_ : nat)
    (stack : list Entry) (pos : nat) (k : nat) (p : PState) : PState :=
  match k with
  | 0 => p
  | S i =>
    if Nat.ltb i pos then p
    else
      match stack !! i with
      | Some e =>
        close_loop named start end_ stack pos i
          (close_entry named start end_ pos i e p)
      | None => p
      end
  end.

Definition parseEndTag (tagName : option string) (start end_ : option nat)
    (p : PState) : PState :=
  let start := default (index p) start in
  let end_ := default (index p) end_ in
  let name := default EmptyString tagName in
  let named := truthy name in
  let lowerCasedTagName := toLowerCase name in
  let pos :=
    if named
    then find_pos (stack p) lowerCasedTagName (length (stack p))
    else Some 0 in
  match pos with
  | Some pos =>
    let p' :=
      close_loop named start end_ (stack p) pos (length (stack p)) p in
    let stack' := firstn pos (stack p) in
    mkPState (html p') (index p') stack'
      (match pos with 0 => None | S i => tag <$> stack' !! i end)
      (events p')
  | None =>
    if String.eqb lowerCasedTagName "br" then
      emit_if (has_start options) (Start name [] true start end_) p
    else if String.eqb lowerCasedTagName "p" then
      emit_if (has_end options) (End_ name start end_)
        (emit_if (has_start options) (Start name [] false start end_) p)
    else p
  end.

(** The loop of [parseStartTag]; every turn passes over an
    attribute, so that the length of [html] is fuel enough. *)
Fixpoint attrs_loop (fuel : nat) (p : PState)
    (acc : list (AttrMatch * nat * nat))
    : option (PState * list (AttrMatch * nat * nat)
              * option (nat * string)) :=
  match startTagClose (html p) with
  | Some e => Some (p, acc, Some e)
  | None =>
    let attr :=
      match dynamicArgAttribute (html p) with
      | Some a => Some a
      | None => attribute (html p)
      end in
    match attr with
    | Some a =>
      match fuel with
      | 0 => None
      | S fuel' =>
        let p' := advance (a_len a) p in
        attrs_loop fuel' p' (acc ++ [(a, index p, index p')])
      end
    | None => Some (p, acc, None)
    end
  end.

(** [parseStartTag]: the state, and the match when there is one. *)
Definition parseStartTag (p : PState) : option (PState * option Match) :=
  match startTagOpen unicodeLetter (html p) with
  | Some (n, tagName) =>
    let start := index p in
    let p := advance n p in
    match attrs_loop (String.length (html p)) p [] with
    | Some (p, attrs, Some (len, unarySlash)) =>
      let p := advance len p in
      Some (p, Some (mkMatch tagName attrs start unarySlash (index p)))
    | Some (p, _, None) => Some (p, None)
    | None => None
    end
  | None => Some (p, None)
  end.

Definition lastTag_is (t : string) (p : PState) : bool :=
  match lastTag p with
  | Some l => String.eqb l t
  | None => false
  end.

(** [a || b] on strings that may be [undefined]. *)
Definition or_else (a : option string) (b : string) : string :=
  match a with
  | Some v => if truthy v then v else b
  | None => b
  end.

(** The body of the loop of [handleStartTag].  The match
    [args[0].match(/^\s*/)] is an array of one element, the white
    space, so that its [length] is 1. *)
Definition make_attr (tagName : string) (m : AttrMatch * nat * nat)
    : Attr :=
  let '(args, start, end_) := m in
  let value :=
    or_else (a_double args)
      (or_else (a_single args) (or_else (a_bare args) EmptyString)) in
  let newlines :=
    if String.eqb tagName "a" && String.eqb (a_name args) "href"
    then shouldDecodeNewlinesForHref options
    else shouldDecodeNewlines options in
  let ranged := negb production && outputSourceRange options in
  mkAttr (a_name args) (decodeAttr value newlines)
    (if ranged then Some (start + 1) else None)
    (if ranged then Some end_ else None).

Definition handleStartTag (m : Match) (p : PState) : PState :=
  let tagName := m_tagName m in
  let p :=
    if expectHTML options then
      let p :=
        if lastTag_is "p" p && isNonPhrasingTag tagName
        then parseEndTag (lastTag p) None None p else p in
      if default no (canBeLeftOpenTag options) tagName
         && lastTag_is tagName p
      then parseEndTag (Some tagName) None None p else p
    else p in
  let unary :=
    default no (isUnaryTag options) tagName
    || truthy (m_unarySlash m) in
  let attrs := map (make_attr tagName) (m_attrs m) in
  let p :=
    if unary then p
    else
      mkPState (html p) (index p)
        (stack p
         ++ [mkEntry tagName (toLowerCase tagName) attrs (m_start m)
               (m_end m)])
        (Some tagName) (events p) in
  emit_if (has_start options)
    (Start tagName attrs unary (m_start m) (m_end m)) p.

(** The tests of the text loop. *)
Definition stop (rest : string) : bool :=
  bool_decide (is_Some (endTag unicodeLetter rest))
  || bool_decide (is_Some (startTagOpen unicodeLetter rest))
  || comment rest || conditionalComment rest.

(** The text loop: the last [textEnd].  Every turn moves [textEnd]
    forward, so that the length of [html] is fuel enough. *)
Fixpoint text_loop (fuel : nat) (html : string) (textEnd : nat)
    : option nat :=
  let rest := drop textEnd html in
  if stop rest then Some textEnd
  else
    match indexOf_from_1 "<" rest with
    | None => Some textEnd
    | Some next =>
      match fuel with
      | 0 => None
      | S fuel' => text_loop fuel' html (textEnd + next)
      end
    end.

(** The branch [if (textEnd === 0)]. *)
Definition tags (p : PState) : option Flow :=
  match (if comment (html p) then indexOf "-->" (html p) else None) with
  | Some commentEnd =>
    Some (Continue
            (advance (commentEnd + 3)
               (emit_if (shouldKeepComment options)
                  (Comment (substring 4 commentEnd (html p)) (index p)
                     (index p + commentEnd + 3))
                  p)))
  | None =>
  match (if conditionalComment (html p) then indexOf "]>" (html p)
         else None) with
  | Some conditionalEnd =>
    Some (Continue (advance (conditionalEnd + 2) p))
  | None =>
  match doctype (html p) with
  | Some n => Some (Continue (advance n p))
  | None =>
  match endTag unicodeLetter (html p) with
  | Some (n, name) =>
    let curIndex := index p in
    let p := advance n p in
    Some (Continue
            (parseEndTag (Some name) (Some curIndex) (Some (index p)) p))
  | None =>
  match parseStartTag p with
  | Some (p, Some m) =>
    let p := handleStartTag m p in
    Some (Continue
            (if shouldIgnoreFirstNewline (m_tagName m) (html p)
             then advance 1 p else p))
  | Some (p, None) => Some (Fallthrough p)
  | None => None
  end end end end end.

(** From [let text, rest, next] to the call of [options.chars]. *)
Definition text_branch (textEnd : option nat) (p : PState)
    : option PState :=
  let text :=
    match textEnd with
    | Some t =>
      match text_loop (String.length (html p)) (html p) t with
      | Some t' => Some (take t' (html p))
      | None => None
      end
    | None => Some (html p)
    end in
  match text with
  | Some text =>
    let p := if truthy text then advance (String.length text) p else p in
    Some (emit_if (has_chars options && truthy text)
            (Chars text (Some (index p - String.length text, index p)))
            p)
  | None => None
  end.

(** The branch of the plain text elements: [lastTag] is the name
    of one. *)
Definition plaintext (p : PState) : PState :=
  let stackedTag := toLowerCase (default EmptyString (lastTag p)) in
  let '(p1, rest, endTagLength) :=
    match reStackedTag stackedTag (html p) with
    | Some (n, m) =>
      let text := take n (html p) in
      let text :=
        if negb (isPlainTextElement stackedTag)
           && negb (String.eqb stackedTag "noscript")
        then unwrap "<![CDATA[" "]]>" 0 (unwrap "<!--" "-->" 0 text)
        else text in
      let text :=
        if shouldIgnoreFirstNewline stackedTag text then drop 1 text
        else text in
      (emit_if (has_chars options) (Chars text None) p,
       drop (n + m) (html p), m)
    | None => (p, html p, 0)
    end in
  let index' :=
    index p1 + (String.length (html p1) - String.length rest) in
  parseEndTag (Some stackedTag) (Some (index' - endTagLength))
    (Some index')
    (mkPState rest index' (stack p1) (lastTag p1) (events p1)).

Definition in_plaintext (p : PState) : bool :=
  match lastTag p with
  | Some t => truthy t && isPlainTextElement t
  | None => false
  end.

(** The body of the loop up to the test [html === last]. *)
Definition pass (p : PState) : option Flow :=
  if negb (in_plaintext p) then
    let textEnd := indexOf "<" (html p) in
    let flow :=
      match textEnd with
      | Some 0 => tags p
      | _ => Some (Fallthrough p)
      end in
    match flow with
    | Some (Continue p') => Some (Continue p')
    | Some (Fallthrough p') =>
      match text_branch textEnd p' with
      | Some p'' => Some (Fallthrough p'')
      | None => None
      end
    | None => None
    end
  else Some (Fallthrough (plaintext p)).

(** The branch [if (html === last)], before its [break]. *)
Definition no_progress (p : PState) : PState :=
  emit_if (negb production && Nat.eqb (length (stack p)) 0
           && has_warn options)
    (Warn ("Mal-formatted tag at end of template: " ++ String dquote (html p)
           ++ String dquote EmptyString)%string
       (Some (index p + String.length (html p))) None)
    (emit_if (has_chars options) (Chars (html p) None) p).

(** The loop [while (html)]; [None] when the fuel runs out. *)
Fixpoint loop (fuel : nat) (p : PState) : option PState :=
  if truthy (html p) then
    match fuel with
    | 0 => None
    | S fuel' =>
      match pass p with
      | Some (Continue p') => loop fuel' p'
      | Some (Fallthrough p') =>
        if String.eqb (html p') (html p) then Some (no_progress p')
        else loop fuel' p'
      | None => None
      end
    end
  else Some p.

Definition start_state (html : string) : PState :=
  mkPState html 0 [] None [].

(** [parseHTML (html, options)]: the calls of the callbacks.  Every
    turn of the loop but the last shortens [html], so that its
    length is fuel enough. *)
Definition parseHTML (html : string) : option (list Event) :=
  match loop (String.length html) (start_state html) with
  | Some p => Some (events (parseEndTag None None None p))
  | None => None
  end.

End Parser.

Arguments parseHTML unicodeLetter production isNonPhrasingTag options html
  : assert.

End HtmlParser.

(** ** [core/observer/index.js]: [del] *)

Module Deleting.
Import Reactive.
#[local] Open Scope list_scope.

(** The entries of [l] without the key [k]. *)
Fixpoint without (k : string) (l : list (string * Prop_))
    : list (string * Prop_) :=
  match l with
  | [] => []
  | (k', p) :: rest =>
    if String.eqb k k' then without k rest else (k', p) :: without k rest
  end.

(** The object after its own property [k] was deleted; the slot of an
    index of an array becomes a hole. *)
Definition remove_own (k : string) (o : Obj) : Obj :=
  match (if isArray o then array_index k else None) with
  | Some i => with_props (o_props o) (<[i := None]> (o_elems o)) o
  | None => with_props (without k (o_props o)) (o_elems o) o
  end.

(** [delete o[k]] in strict code: an own property that is
    configurable is removed, one that is not is a [TypeError], and
    nothing happens when the object has no such property. *)
Definition delete (l : loc) (k : string) : M unit :=
  let* o := gets (fun s => obj s l) in
  match own o k with
  | Some p =>
    if configurable p && negb (o_frozen o)
    then modify (set_obj l (remove_own k o))
    else throw TypeError
  | None => ret tt
  end.

(** [hasOwn (str, key)] for a string: its indices and [length]. *)
Definition string_owns (str key : string) : bool :=
  match array_index key with
  | Some i => Nat.ltb i (String.length str)
  | None => String.eqb key "length"
  end.

(** [o.__ob__], read as any property is: on the object or along its
    prototype chain. *)
Fixpoint find_ob (n : nat) (s : State) (l : loc) : option nat :=
  match o_ob (obj s l) with
  | Some ob => Some ob
  | None =>
    match n, o_proto (obj s l) with
    | S n', Some l' => find_ob n' s l'
    | _, _ => None
    end
  end.

Definition ob_of (s : State) (l : loc) : option nat :=
  find_ob (size (heap s)) s l.

Section WithEnv.
Context (E : Env).

(** [del (target, key)].  The two messages are those of the source,
    the first without the target it ends with.  On [undefined] and
    [null] the reading of [__ob__] is a [TypeError]; a number or a
    boolean owns nothing; what a string owns cannot be deleted. *)
Definition del (n : nat) (target : Value) (key : string) : M unit :=
  let complain :=
    when (negb (production E))
      (warn "Cannot delete reactive property on undefined, null, or primitive value: ") in
  match target with
  | VRef l =>
    let* o := gets (fun s => obj s l) in
    match (if isArray o then isValidArrayIndex E key else None) with
    | Some i => splice E n l i 1 []
    | None =>
      let* ob := gets (fun s => ob_of s l) in
      let* vmCount := gets (fun s =>
        match ob with Some ob => ob_vmCount (observer s ob) | None => 0 end) in
      if o_isVue o || negb (Nat.eqb vmCount 0) then
        when (negb (production E))
          (warn ("Avoid deleting properties on a Vue instance or its root $data " ++
                 "- just set it to null."))
      else if negb (bool_decide (is_Some (own o key))) then ret tt
      else
        delete l key ;;
        match ob with
        | None => ret tt
        | Some ob =>
          let* d := gets (fun s => ob_dep (observer s ob)) in
          notify E n d
        end
    end
  | VUndefined | VNull => complain ;; throw TypeError
  | VStr str =>
    complain ;;
    if string_owns str key then throw TypeError else ret tt
  | VBool _ | VNum _ => complain
  end.

End WithEnv.

End Deleting.

(** ** [compiler/create-compiler.js] *)

Module CreateCompiler.
Import HtmlParser.
#[local] Open Scope list_scope.

(** [template.match(/^\s*/)[0].length]. *)
Definition leadingSpaceLength (template : string) : nat :=
  String.length (fst (span is_space template)).

Fixpoint reverse (s acc : string) : string :=
  match s with
  | EmptyString => acc
  | String c rest => reverse rest (String c acc)
  end.

(** [s.trim()]: [s] without the white space it starts with and the
    white space it ends with. *)
Definition trimStart (s : string) : string := snd (span is_space s).
Definition trimEnd (s : string) : string :=
  reverse (trimStart (reverse s EmptyString)) EmptyString.
Definition trim (s : string) : string := trimEnd (trimStart s).

(** The argument [range] of [warn]: an object whose [start] and [end]
    may be missing. *)
Record Range := mkRange {
  r_start : option nat;
  r_end : option nat;
}.

(** A call [warn (msg, range, tip)]. *)
Record WarnCall := mkCall {
  w_msg : string;
  w_range : option Range;
  w_tip : bool;
}.

(** What [warn] pushes: the message, or the object [data]. *)
Inductive Diagnostic :=
| Text (msg : string)
| Data (msg : string) (start end_ : option nat).

(** The two functions [warn]: the first pushes the message, the
    second, which knows [leadingSpaceLength], the object [data].  The
    state is the pair of [errors] and [tips]. *)
Definition data (shift : option nat) (c : WarnCall) : Diagnostic :=
  match shift with
  | None => Text (w_msg c)
  | Some leadingSpaceLength =>
    Data (w_msg c)
      (range ← w_range c; start ← r_start range;
       Some (start + leadingSpaceLength))
      (range ← w_range c; end_ ← r_end range;
       Some (end_ + leadingSpaceLength))
  end.

Definition warn (shift : option nat) (st : list Diagnostic * list Diagnostic)
    (c : WarnCall) : list Diagnostic * list Diagnostic :=
  if w_tip c then (st.1, st.2 ++ [data shift c])
  else (st.1 ++ [data shift c], st.2).

Section Compiler.
(** Modules, directives and the values of the other options; the
    syntax tree; the world [baseCompile] acts on. *)
Context {Mod Dir V Ast World : Type}.
Context (truthy : V -> bool).

(** [baseOptions], and the argument [options]: [modules],
    [directives], and under [others] the other keys that a loop
    [for in] finds. *)
Record Options := mkOptions {
  modules : option (list Mod);
  directives : option (gmap string Dir);
  others : gmap string V;
}.

(** The object made by [extend(Object.create(baseOptions.directives
    || null), options.directives)]: own properties and prototype. *)
Record Directives := mkDirectives {
  d_own : gmap string Dir;
  d_proto : option (gmap string Dir);
}.

(** [finalOptions]: what it owns, over the prototype [baseOptions].
    [f_warn] stands for the function [warn] it holds: [None] for the
    one that pushes the message, [Some n] for the one that adds [n]
    to the ranges. *)
Record FinalOptions := mkFinal {
  f_proto : Options;
  f_modules : option (list Mod);
  f_directives : option Directives;
  f_others : gmap string V;
  f_warn : option nat;
}.

(** What [baseCompile] returns, and [compiled] when [compile]
    returns it. *)
Record Generated := mkGenerated {
  g_ast : Ast;
  g_render : string;
  g_staticRenderFns : list string;
}.

Record CompiledResult := mkCompiled {
  ast : Ast;
  render : string;
  staticRenderFns : list string;
  errors : list Diagnostic;
  tips : list Diagnostic;
}.

(** The argument of [createCompilerCreator], with the calls of
    [options.warn] it makes; [detectErrors] of [error-detector], with
    the calls of [warn] it makes; and
    [process.env.NODE_ENV === 'production']. *)
Context (baseCompile : string -> FinalOptions -> World ->
                       Outcome Generated * list WarnCall * World).
Context (detectErrors : Ast -> World -> Outcome unit * list WarnCall * World).
Context (production : bool).

Section Created.
Context (baseOptions : Options).

(** [options.outputSourceRange]. *)
Definition outputSourceRange (options : Options) : bool :=
  match others options !! "outputSourceRange" with
  | Some v => truthy v
  | None => false
  end.

(** The function [warn] that [compile] chooses. *)
Definition shift_of (template : string) (options : option Options)
    : option nat :=
  match options with
  | Some o =>
    if negb production && outputSourceRange o
    then Some (leadingSpaceLength template) else None
  | None => None
  end.

(** [finalOptions] when [baseCompile] is called. *)
Definition finalOptions (template : string) (options : option Options)
    : FinalOptions :=
  let warn := shift_of template options in
  match options with
  | Some o =>
    mkFinal baseOptions
      (match modules o with
       | Some ms => Some (default [] (modules baseOptions) ++ ms)
       | None => None
       end)
      (match directives o with
       | Some ds => Some (mkDirectives ds (directives baseOptions))
       | None => None
       end)
      (delete "warn" (others o))
      warn
  | None => mkFinal baseOptions None None ∅ warn
  end.

(** [compile (template, options)]. *)
Definition compile (template : string) (options : option Options)
    (w : World) : Outcome CompiledResult * World :=
  let shift := shift_of template options in
  match baseCompile (trim template) (finalOptions template options) w with
  | (Ok compiled, calls, w) =>
    let st := fold_left (warn shift) calls ([], []) in
    if production then
      (Ok (mkCompiled (g_ast compiled) (g_render compiled)
             (g_staticRenderFns compiled) st.1 st.2), w)
    else
      match detectErrors (g_ast compiled) w with
      | (Ok _, calls, w) =>
        let st := fold_left (warn shift) calls st in
        (Ok (mkCompiled (g_ast compiled) (g_render compiled)
               (g_staticRenderFns compiled) st.1 st.2), w)
      | (Throw e, _, w) => (Throw e, w)
      | (Diverge, _, w) => (Diverge, w)
      end
  | (Throw e, _, w) => (Throw e, w)
  | (Diverge, _, w) => (Diverge, w)
  end.

End Created.

End Compiler.

End CreateCompiler.

(** ** [core/instance/init.js] *)

Module Init.
#[local] Open Scope list_scope.

(** An object of options as a loop [for in] goes through it: the
    keys in the order of the loop, each with its value. *)
Definition Options := list (string * Value).

(** [o[key]]. *)
Fixpoint get (o : Options) (key : string) : Value :=
  match o with
  | [] => VUndefined
  | (k, v) :: rest => if String.eqb key k then v else get rest key
  end.

(** [resolveModifiedOptions (Ctor)], from [Ctor.options] and
    [Ctor.sealedOptions]: [None] is [undefined]. *)
Definition resolveModifiedOptions (latest sealed : Options)
    : option (gmap string Value) :=
  fold_left
    (fun modified key =>
       if strict_neq (get latest key) (get sealed key)
       then Some (<[key := get latest key]> (default ∅ modified))
       else modified)
    (map fst latest) None.

End Init.

(** * Examples *)

Module Examples.
Import Reactive.
#[local] Open Scope list_scope.

(** The number 1. *)
Definition one : Value := VNum (S754_finite false 1 0).

Definition plain (props : list (string * Prop_)) : Obj :=
  mkObj KObject props [] None true false false false None false.

Definition array (elems : list (option Prop_)) : Obj :=
  mkObj KArray [] elems None true false false false None false.

Definition data (v : Value) : Prop_ := PData v true true true.

(** An environment without user code. *)
Definition quiet_env : Env :=
  mkEnv false false (fun _ _ _ s => (Ok VUndefined, s))
        (fun _ s => (Ok tt, s)) array_index (fun _ => None).

(** An environment with four user functions: 1 reads the property
    [a] of the object 1, 2 throws, 3 returns the number 1, and 4
    reads the dep 0 and returns the object 5. *)
Definition user_env : Env :=
  mkEnv false false
    (fun f this args s =>
       match f with
       | 1 => let r := get_prop quiet_env 5 1 "a" s in (out r, st r)
       | 2 => (Throw (VStr "boom"), s)
       | 3 => (Ok one, s)
       | 4 => let r := depend 0 s in (Ok (VRef 5), st r)
       | _ => (Ok VUndefined, s)
       end)
    (fun _ s => (Ok tt, s)) array_index (fun _ => None).

(** The object [{ a: 1 }] at 1; the same, observed; the same, with a
    watcher of [a]. *)
Definition s_plain : State := set_obj 1 (plain [("a", data one)]) init.

Definition s_observed : State :=
  st (observe user_env 5 (VRef 1) false s_plain).

Definition s_watched : State :=
  st (newWatcher user_env 5 9 1 "a" 0 None false s_observed).

(** An object at 1 whose property [a] has the getter 3 and no
    setter. *)
Definition s_accessor : State :=
  set_obj 1 (plain [("a", PAccessor (Some (GUser 3)) None true true)]) init.

(** The array [[1]] at 2, observed. *)
Definition s_array : State :=
  st (observe user_env 5 (VRef 2) false
        (set_obj 2 (array [Some (data one)]) init)).

(** An object at 5 whose property [x] has a getter that throws, a
    dep, and a deep user watcher, not yet evaluated, whose getter
    reads the dep and returns the object. *)
Definition s_deep : State :=
  st (initWatcher user_env 9 4 "deep" 0
        (Some (mkOptions true true true false)) false
        (st (newDep
               (set_obj 5
                  (plain [("x", PAccessor (Some (GUser 2)) None true true)])
                  init)))).

(** A dep read by a watcher under evaluation. *)
Definition s_reading : State :=
  st (depend 0
        (st (pushTarget (TWatcher 1)
               (st (initWatcher quiet_env 9 0 "w" 0 None false
                      (st (newDep init))))))).

(** The object of [s_accessor], observed. *)
Definition s_getter_only : State :=
  st (observe user_env 5 (VRef 1) false s_accessor).

(** *** The compiler *)

(** A [compile] that returns the template as the code of [render],
    and a runtime whose constructor [Function] never throws. *)
Definition compile_text (template : string)
    (options : ToFunction.CompilerOptions) (w : unit)
    : Outcome ToFunction.CompiledResult * unit :=
  (Ok (ToFunction.mkCompiled template [] [] []), w).

Definition new_function (code : string)
    : ToFunction.Function_ + string :=
  inl (ToFunction.FromCode code).

Definition no_delimiters : ToFunction.CompilerOptions :=
  ToFunction.mkOptions false None false.

(** *** The parser *)

(** Every callback given, outside production. *)
Definition all_callbacks : HtmlParser.Options :=
  HtmlParser.mkOptions true None None true false false true
    true true true true.

Definition ascii_only (c : ascii) : bool := false.

Definition non_phrasing (tag : string) : bool := String.eqb tag "div".

Definition open_div : HtmlParser.Entry :=
  HtmlParser.mkEntry "div" "div" [] 0 5.

Definition open_span : HtmlParser.Entry :=
  HtmlParser.mkEntry "SPAN" "span" [] 5 11.

(** The parser after [<div>], with [<] left to read. *)
Definition p_open : HtmlParser.PState :=
  HtmlParser.mkPState "<" 5 [open_div] (Some "div")
    [HtmlParser.Start "div" [] false 0 5].

(** The parser after [<div><SPAN>], at an end tag. *)
Definition p_nested : HtmlParser.PState :=
  HtmlParser.mkPState "" 17 [open_div; open_span] (Some "SPAN") [].

End Examples.

Module MoreExamples.
Import Reactive Examples.
#[local] Open Scope list_scope.

(** The watcher 1 after an evaluation that read the dep 0. *)
Definition s_subscribed : State :=
  st (cleanupDeps 1 (st (popTarget s_reading))).

(** A second watcher, under evaluation. *)
Definition s_computed : State :=
  st (pushTarget (TWatcher 2)
        (st (initWatcher quiet_env 9 0 "v" 0 None false s_subscribed))).

(** The object [{ a: 1 }] at 1, observed as root data. *)
Definition s_root : State :=
  st (observe quiet_env 5 (VRef 1) true s_plain).

(** The observed object [{ a: 1 }] while a new watcher is
    evaluated. *)
Definition s_tracking : State :=
  st (pushTarget (TWatcher 1)
        (st (initWatcher quiet_env 9 0 "w" 0 None false s_observed))).

(** An object at 1 whose property [a] is not configurable. *)
Definition s_sealed : State :=
  set_obj 1 (plain [("a", PData one true true false)]) init.

(** *** The parser *)

(** The callback [chars] alone, in production. *)
Definition chars_only : HtmlParser.Options :=
  HtmlParser.mkOptions true None None false false false false
    false false true false.

(** *** The compiler *)

Definition with_delimiters : ToFunction.CompilerOptions :=
  ToFunction.mkOptions false (Some ("[[", "]]")) false.

(** A [baseCompile] that reports an error at the first three
    characters and gives a tip, and a [detectErrors] that reports one
    more error. *)
Definition base_compile (template : string)
    (options : @CreateCompiler.FinalOptions unit unit bool) (w : unit)
    : Outcome (@CreateCompiler.Generated unit)
      * list CreateCompiler.WarnCall * unit :=
  (Ok (CreateCompiler.mkGenerated tt template []),
   [CreateCompiler.mkCall "bad"
      (Some (CreateCompiler.mkRange (Some 0) (Some 3))) false;
    CreateCompiler.mkCall "hint" None true], w).

Definition detect_errors (ast : unit) (w : unit)
    : Outcome unit * list CreateCompiler.WarnCall * unit :=
  (Ok tt, [CreateCompiler.mkCall "late" None false], w).

Definition no_options : @CreateCompiler.Options unit unit bool :=
  CreateCompiler.mkOptions None None ∅.

Definition with_ranges : @CreateCompiler.Options unit unit bool :=
  CreateCompiler.mkOptions None None {["outputSourceRange" := true]}.

End MoreExamples.

(** * The vocabulary of the statements *)

(** ** The observer *)

Module ReactiveSpec.
Import Reactive.
#[local] Open Scope list_scope.

(** The events of a notification: the entry of [notify] and the
    calls of [update]; the watchers called and the deps notified, in
    the order of the calls. *)
Definition signal (e : Event) : bool :=
  match e with EvNotify _ | EvUpdate _ => true | _ => false end.

Definition updates_of (l : list Event) : list nat :=
  omap (fun e => match e with EvUpdate w => Some w | _ => None end) l.

Definition notifies_of (l : list Event) : list nat :=
  omap (fun e => match e with EvNotify d => Some d | _ => None end) l.

(** Computations all of whose events satisfy [P]. *)
Definition Emits (P : Event -> Prop) {A} (m : M A) : Prop :=
  forall s, Forall P (evs (m s)).

(** No event at all; no [EvNotify] and no [EvUpdate]. *)
Definition Silent {A} (m : M A) : Prop := Emits (fun _ => False) m.
Definition Quiet {A} (m : M A) : Prop := Emits (fun e => signal e = false) m.

(** The loop of [notify] over the copy [l] of the subscribers. *)
Definition update_all E n (l : list nat) : M unit :=
  for_each l (fun sub => emit (EvUpdate sub) ;; update E n sub).

(** The copy of the subscriber list that [notify] works on. *)
Definition snapshot E (s : State) (d : nat) : list nat :=
  if negb (production E) && negb (cfg_async s)
  then sort_by_id (subs_of s d) else subs_of s d.

(** The dependency sets of a watcher. *)
Definition tracked (W : Watcher) :=
  (w_deps W, w_newDeps W, w_depIds W, w_newDepIds W).

(** What the dependency tracking keeps true: no watcher is twice
    among the subscribers of a dep, a subscriber of a dep has the dep
    in one of its sets of ids, the sets of ids hold the ids of the
    arrays of deps, which hold no dep twice, and every watcher that
    is named has been constructed. *)
Record Inv (s : State) : Prop := mkInv {
  inv_nodup_subs : forall d, NoDup (subs_of s d);
  inv_subscribed : forall w d,
    w ∈ subs_of s d ->
    d ∈ w_depIds (watcher s w) \/ d ∈ w_newDepIds (watcher s w);
  inv_depIds : forall w d,
    d ∈ w_depIds (watcher s w) <-> d ∈ w_deps (watcher s w);
  inv_newDepIds : forall w d,
    d ∈ w_newDepIds (watcher s w) <-> d ∈ w_newDeps (watcher s w);
  inv_nodup_deps : forall w, NoDup (w_deps (watcher s w));
  inv_nodup_newDeps : forall w, NoDup (w_newDeps (watcher s w));
  inv_created : forall w d, w ∈ subs_of s d -> w <= watcher_uid s;
  inv_target : forall w, active (target s) = Some w -> w <= watcher_uid s;
  inv_stack : forall w, TWatcher w ∈ targetStack s -> w <= watcher_uid s;
}.

(** States that differ in nothing the dependency tracking reads. *)
Definition untouched (s s' : State) : Prop :=
  subs s' = subs s /\
  (forall w, tracked (watcher s' w) = tracked (watcher s w)) /\
  watcher_uid s' = watcher_uid s /\
  target s' = target s /\
  targetStack s' = targetStack s.

(** The states the observer can be in: from the initial state by the
    operations that touch the dependency tracking, in any order, and
    by anything that leaves it alone. *)
Inductive reachable : State -> Prop :=
| reach_init : reachable init
| reach_newDep s : reachable s -> reachable (st (newDep s))
| reach_initWatcher E vm f expr cb opts r s :
    reachable s -> reachable (st (initWatcher E vm f expr cb opts r s))
| reach_pushTarget t s :
    reachable s -> (forall w, t = TWatcher w -> w <= watcher_uid s) ->
    reachable (st (pushTarget t s))
| reach_popTarget s : reachable s -> reachable (st (popTarget s))
| reach_depend d s : reachable s -> reachable (st (depend d s))
| reach_cleanupDeps w s : reachable s -> reachable (st (cleanupDeps w s))
| reach_teardown w s : reachable s -> reachable (st (teardown w s))
| reach_untouched s s' : reachable s -> untouched s s' -> reachable s'.

(** Computations that keep the state reachable. *)
Definition Reach {A} (m : M A) : Prop :=
  forall s, reachable s -> reachable (st (m s)).

(** User code that acts on the dependency tracking through the
    observer's own operations only. *)
Definition EnvOk (E : Env) : Prop :=
  (forall f this args s, reachable s -> reachable (snd (call E f this args s)))
  /\ (forall w s, reachable s -> reachable (snd (queueWatcher E w s))).

(** What [get] does for a watcher whose getter reads the deps
    [reads], in that order, and returns. *)
Definition evaluation (w : nat) (reads : list nat) : M unit :=
  pushTarget (TWatcher w) ;;
  for_each reads depend ;;
  popTarget ;;
  cleanupDeps w.

(** The handler of [get]. *)
Definition on_error (w : nat) (vm : Value) (e : Value) : M Value :=
  let* W := gets (fun s => watcher s w) in
  if w_user W
  then handleError e vm (GetterFor (w_expression W)) ;; ret VUndefined
  else throw e.

(** The block [finally] of [get]. *)
Definition finalizer E (n w : nat) (value : Value) : M unit :=
  let* deep := gets (fun s => w_deep (watcher s w)) in
  when deep (traverse E n value) ;;
  popTarget ;;
  cleanupDeps w.

(** [getter ? getter.call(obj) : val] *)
Definition current E (n : nat) (C : Cell) : M Value :=
  match c_getter C with
  | Some getter => call_getter E n getter (VRef (c_obj C))
  | None => ret (c_val C)
  end.

(** The call of [customSetter] outside production. *)
Definition custom E (C : Cell) : M unit :=
  match c_customSetter C with
  | Some customSetter =>
    if negb (production E)
    then call_user E customSetter VUndefined [] ;; ret tt
    else ret tt
  | None => ret tt
  end.

(** [if (setter) setter.call(obj, newVal) else val = newVal] *)
Definition store E (n c : nat) (C : Cell) (newVal : Value) : M unit :=
  match c_setter C with
  | Some setter => call_setter E n setter (VRef (c_obj C)) newVal
  | None => modify (fun s => set_cell c (with_val newVal (cell s c)) s)
  end.

(** [!shallow && observe(newVal)] *)
Definition child E (n : nat) (C : Cell) (newVal : Value) : M (option nat) :=
  if c_shallow C then ret None else observe E n newVal false.

(** An accessor with a getter and no setter. *)
Definition getter_only (C : Cell) : bool :=
  bool_decide (is_Some (c_getter C))
  && negb (bool_decide (is_Some (c_setter C))).

(** Everything up to the notification. *)
Definition write_back E (n c : nat) (C : Cell) (newVal : Value) : M unit :=
  custom E C ;;
  store E n c C newVal ;;
  let* childOb := child E n C newVal in
  modify (fun s => set_cell c (with_childOb childOb (cell s c)) s).

End ReactiveSpec.

(** ** The compiler *)

Module CacheSpec.
Import ToFunction.
#[local] Open Scope list_scope.

(** A call of [compile]. *)
Definition compiles (e : Event) : bool :=
  match e with
  | EvCompile _ => true
  | _ => false
  end.

Section Cache.
Context {World : Type}.
Context (compile : string -> CompilerOptions -> World ->
                   Outcome CompiledResult * World).
Context (newFunction : string -> Function_ + string).
Context (mentionsCSP : string -> bool) (production : bool).

(** The state after the calls [calls] of one closure, each with its
    template and options, whatever their outcomes. *)
Definition after (calls : list (string * CompilerOptions))
    (s : @State World) : @State World :=
  fold_left (fun s c => (compileToFunctions compile newFunction mentionsCSP
                         production c.1 c.2 s).1.2) calls s.

(** Every key of the cache leads to a result object. *)
Definition sound (s : @State World) : Prop :=
  forall k r, cache s !! k = Some r -> r < length (results s).

(** What [s] holds, [s'] holds as well. *)
Definition extends (s s' : @State World) : Prop :=
  (forall k r, cache s !! k = Some r -> cache s' !! k = Some r)
  /\ (forall r o, results s !! r = Some o -> results s' !! r = Some o).

End Cache.

End CacheSpec.

(** ** The parser *)

Module HtmlSpec.
Import HtmlParser.
#[local] Open Scope list_scope.

(** [s'] is what is left of [s] once some characters are passed. *)
Definition suffix_of (s' s : string) : Prop := exists k, s' = drop k s.

(** The variables a step leaves as they are. *)
Definition same_input (p' p : PState) : Prop :=
  html p' = html p /\ index p' = index p.

Definition same_stack (p' p : PState) : Prop :=
  stack p' = stack p /\ lastTag p' = lastTag p.

(** What a step leaves of [html]: after [continue], less than
    there was. *)
Definition advances (p : PState) (f : Flow) : Prop :=
  match f with
  | Continue p' => String.length (html p') < String.length (html p)
  | Fallthrough p' => suffix_of (html p') (html p)
  end.

(** A warning that the template ends with a mal-formatted tag. *)
Definition malformed (e : Event) : bool :=
  match e with
  | Warn msg _ _ => String.prefix "Mal-formatted tag" msg
  | _ => false
  end.

Section Calls.
Context (production : bool) (options : Options).

(** The calls of the branch [if (html === last)]. *)
Definition diagnosis (p : PState) : list Event :=
  (if has_chars options then [Chars (html p) None] else [])
  ++ (if negb production && Nat.eqb (length (stack p)) 0
         && has_warn options
      then [Warn ("Mal-formatted tag at end of template: "
                  ++ String dquote (html p) ++ String dquote EmptyString)%string
              (Some (index p + String.length (html p))) None]
      else []).

(** The calls made to close [stack[i]] by an end tag that matches
    [stack[pos]]. *)
Definition closing (named : bool) (start end_ : nat) (pos i : nat)
    (e : Entry) : list Event :=
  (if negb production && (Nat.ltb pos i || negb named) && has_warn options
   then [Warn ("tag <" ++ tag e ++ "> has no matching end tag.")%string
           (Some (e_start e)) (Some (e_end e))]
   else [])
  ++ (if has_end options then [End_ (tag e) start end_] else []).

(** The calls of the second loop, from [stack[k - 1]] down to
    [stack[pos]]. *)
Definition closings (named : bool) (start end_ : nat) (st : list Entry)
    (pos k : nat) : list Event :=
  flat_map
    (fun i => match st !! i with
              | Some e => closing named start end_ pos i e
              | None => []
              end)
    (rev (seq pos (k - pos))).

(** The calls made for a bare end tag, one that matches nothing
    on the stack. *)
Definition bare (tagName : string) (start end_ : nat) : list Event :=
  if String.eqb (toLowerCase tagName) "br" then
    if has_start options then [Start tagName [] true start end_] else []
  else if String.eqb (toLowerCase tagName) "p" then
    (if has_start options then [Start tagName [] false start end_] else [])
    ++ (if has_end options then [End_ tagName start end_] else [])
  else [].

End Calls.

End HtmlSpec.

Module ParserSpec.
Import HtmlParser HtmlSpec.
#[local] Open Scope list_scope.

(** How far the parser is in the template it was given. *)
Definition offset (p : PState) : nat := index p + String.length (html p).

(** [lastTag] names the top of the stack, and is [undefined] or [0]
    when the stack is empty; every entry has its tag in lower case
    beside it. *)
Definition top_is_last (p : PState) : Prop :=
  lastTag p = tag <$> last (stack p)
  /\ Forall (fun e => lowerCasedTag e = toLowerCase (tag e)) (stack p).

(** The calls of [start] for an element that is not unary and the
    calls of [end]. *)
Definition is_open (e : Event) : bool :=
  match e with
  | Start _ _ unary _ _ => negb unary
  | _ => false
  end.

Definition is_close (e : Event) : bool :=
  match e with
  | End_ _ _ _ => true
  | _ => false
  end.

(** The callback that [e] is a call of is given; for [warn], it is
    given and the code does not run in production. *)
Definition given (production : bool) (options : Options) (e : Event)
    : bool :=
  match e with
  | Start _ _ _ _ _ => has_start options
  | End_ _ _ _ => has_end options
  | Chars _ _ => has_chars options
  | Comment _ _ _ => shouldKeepComment options
  | Warn _ _ _ => negb production && has_warn options
  end.

Definition opens (evs : list Event) : nat := length (List.filter is_open evs).
Definition closes (evs : list Event) : nat := length (List.filter is_close evs).

(** The state a turn of the loop ends with. *)
Definition flow_state (f : Flow) : PState :=
  match f with
  | Continue p => p
  | Fallthrough p => p
  end.

(** What the calls counted are worth: the elements opened and not
    closed are those on the stack. *)
Definition balanced (p : PState) : Prop :=
  opens (events p) = closes (events p) + length (stack p).

End ParserSpec.

Module EntitySpec.
Import HtmlParser.
#[local] Open Scope list_scope.

(** The entity [decodingMap] decodes to the character [c], if any. *)
Definition entity_of (nl : bool) (c : ascii) : option string :=
  fst <$> List.find (fun e => Ascii.eqb (snd e) c) (decodingMap nl).

(** The value in which every character that has an entity is
    written as that entity. *)
Fixpoint encode (nl : bool) (s : string) : string :=
  match s with
  | EmptyString => EmptyString
  | String c rest =>
    match entity_of nl c with
    | Some name => name ++ encode nl rest
    | None => String c (encode nl rest)
    end
  end.

End EntitySpec.

Module WatcherSpec.
Import Reactive.
#[local] Open Scope list_scope.

(** The state after the removal from [vm._watchers]. *)
Definition unlisted (vm : loc) (w : nat) (s : State) : State :=
  match vms s !! vm with
  | Some V =>
    if vm_isBeingDestroyed V then s
    else set_vm vm (mkVm (remove (vm_watchers V) w) (vm_watcher V)
                         (vm_isBeingDestroyed V)) s
  | None => s
  end.

End WatcherSpec.

Module GetterSpec.
Import Reactive.
#[local] Open Scope list_scope.

(** The deps a reading through [reactiveGetter] depends on: the dep
    of the property, then the dep of the observer of its value. *)
Definition deps_read (s : State) (c : nat) : list nat :=
  c_dep (cell s c)
  :: match c_childOb (cell s c) with
     | Some ob => [ob_dep (observer s ob)]
     | None => []
     end.

End GetterSpec.

Module ObserveSpec.
Import Reactive.
#[local] Open Scope list_scope.

(** The object at [l] is one that [observe] looks at and holds the
    observer [ob] as its [__ob__]. *)
Definition observed_by (l : loc) (ob : nat) (s : State) : Prop :=
  o_ob (obj s l) = Some ob
  /\ isObject (obj s l) = true
  /\ o_isVNode (obj s l) = false.

(** Computations, and user code, that keep [P]. *)
Definition Keeps (P : State -> Prop) {A} (m : M A) : Prop :=
  forall s, P s -> P (st (m s)).

Definition EnvKeeps (P : State -> Prop) (E : Env) : Prop :=
  forall f this args s, P s -> P (snd (call E f this args s)).

End ObserveSpec.

Module CompilerSpec.
Import HtmlParser CreateCompiler.
#[local] Open Scope list_scope.

Section Calls.
Context {Mod Dir V Ast World : Type}.
Context (truthy : V -> bool).
Context (baseCompile : string -> @FinalOptions Mod Dir V -> World ->
                       Outcome (@Generated Ast) * list WarnCall * World).
Context (detectErrors : Ast -> World -> Outcome unit * list WarnCall * World).
Context (production : bool).

(** The calls of [warn] during a call of [compile]: those of
    [baseCompile], then, outside production, those of
    [detectErrors]. *)
Definition calls_of (baseOptions : Options) (template : string)
    (options : option Options) (w : World) : list WarnCall :=
  match baseCompile (trim template)
          (finalOptions truthy production baseOptions template options) w with
  | (Ok compiled, calls, w) =>
    calls ++ (if production then []
              else (detectErrors (g_ast compiled) w).1.2)
  | (_, calls, _) => calls
  end.

End Calls.

End CompilerSpec.

Module InitSpec.
Import Init.
#[local] Open Scope list_scope.

(** The keys of [keys] whose value is not the sealed one. *)
Definition differs (latest sealed : Options) (keys : list string)
    (key : string) : bool :=
  existsb (String.eqb key) keys
  && strict_neq (get latest key) (get sealed key).

End InitSpec.

(** * The observer *)

Module ReactiveFacts.
Import Reactive ReactiveSpec.
#[local] Open Scope list_scope.

#[local] Arguments bind : simpl never.
#[local] Arguments gets : simpl never.
#[local] Arguments ret : simpl never.
#[local] Arguments modify : simpl never.

Lemma res_eta {A} (r : Res A) : mkRes (out r) (st r) (evs r) = r.
Proof. by destruct r. Qed.

Lemma bind_ok {A B} (m : M A) (k : A -> M B) s a :
  out (m s) = Ok a ->
  bind m k s = mkRes (out (k a (st (m s)))) (st (k a (st (m s))))
                     (evs (m s) ++ evs (k a (st (m s)))).
Proof. unfold bind. intros ->. done. Qed.

Lemma bind_throw {A B} (m : M A) (k : A -> M B) s e :
  out (m s) = Throw e -> bind m k s = mkRes (Throw e) (st (m s)) (evs (m s)).
Proof. unfold bind. intros ->. done. Qed.

Lemma bind_diverge {A B} (m : M A) (k : A -> M B) s :
  out (m s) = Diverge -> bind m k s = mkRes Diverge (st (m s)) (evs (m s)).
Proof. unfold bind. intros ->. done. Qed.

Lemma bind_gets {A B} (f : State -> A) (k : A -> M B) s :
  bind (gets f) k s = k (f s) s.
Proof. unfold bind, gets. simpl. by destruct (k (f s) s). Qed.

Lemma bind_ret {A B} (a : A) (k : A -> M B) s :
  bind (ret a) k s = k a s.
Proof. unfold bind, ret. simpl. by destruct (k a s). Qed.

Lemma bind_modify {B} (f : State -> State) (k : unit -> M B) s :
  bind (modify f) k s = k tt (f s).
Proof. unfold bind, modify. simpl. by destruct (k tt (f s)). Qed.

Lemma depend_no_target d s :
  active (target s) = None -> depend d s = mkRes (Ok tt) s [].
Proof.
  intros H. unfold depend. rewrite bind_gets, H. done.
Qed.

(** C10: while no watcher is under evaluation, [depend] leaves the
    state as it is and calls nothing, and reading a property that
    [defineReactive] installed is the call of [reactiveGetter].  With
    no getter of its own the property reads as the value it holds,
    and the state, with the subscribers of every dep, the dependency
    sets of every watcher, the target and its stack, is left as it
    is; with a getter of its own the reading is the call of that
    getter and nothing more, as long as the getter leaves no watcher
    under evaluation. *)
Theorem read_without_target E n c d l k st_ e cf s :
  active (target s) = None ->
  lookup_prop s l k = Some (PAccessor (Some (GReactive c)) st_ e cf) ->
  depend d s = mkRes (Ok tt) s [] /\
  get_prop E (S n) l k s = reactiveGetter E n c s /\
  match c_getter (cell s c) with
  | None => reactiveGetter E n c s = mkRes (Ok (c_val (cell s c))) s []
  | Some getter =>
    let r := call_getter E n getter (VRef (c_obj (cell s c))) s in
    (forall v, out r = Ok v -> active (target (st r)) = None) ->
    reactiveGetter E n c s = r
  end.
Proof.
  intros Ht Hp. split; [by apply depend_no_target|]. split.
  - unfold get_prop, get_prop_with. rewrite bind_gets, Hp. done.
  - unfold reactiveGetter, reactiveGetter_with. rewrite bind_gets.
    destruct (c_getter (cell s c)) as [g|].
    + cbv beta iota zeta. intros Hr. unfold bind at 1.
      destruct (call_getter E n g (VRef (c_obj (cell s c))) s)
        as [[v|e'|] s' ev]; simpl in *; try done.
      rewrite (Hr v eq_refl), bind_ret.
      unfold ret. simpl. by rewrite app_nil_r.
    + rewrite bind_ret, bind_gets, Ht, bind_ret. done.
Qed.

#[local] Arguments updates_of : simpl never.
#[local] Arguments notifies_of : simpl never.

Section Emits.
Context (P : Event -> Prop).

Lemma emits_ret {A} (a : A) : Emits P (ret a).
Proof. intros s. constructor. Qed.
Lemma emits_throw {A} e : Emits P (@throw A e).
Proof. intros s. constructor. Qed.
Lemma emits_diverge {A} : Emits P (@diverge A).
Proof. intros s. constructor. Qed.
Lemma emits_gets {A} (f : State -> A) : Emits P (gets f).
Proof. intros s. constructor. Qed.
Lemma emits_modify f : Emits P (modify f).
Proof. intros s. constructor. Qed.
Lemma emits_lift {A} (f : State -> Outcome A * State) : Emits P (lift f).
Proof. intros s. constructor. Qed.
Lemma emits_emit e : P e -> Emits P (emit e).
Proof. intros H s. by repeat constructor. Qed.

Lemma emits_bind {A B} (m : M A) (k : A -> M B) :
  Emits P m -> (forall a, Emits P (k a)) -> Emits P (bind m k).
Proof.
  intros Hm Hk s. unfold bind. specialize (Hm s).
  destruct (m s) as [[a|e|] s' ev]; simpl in *; try done.
  apply Forall_app. split; [done | apply Hk].
Qed.

Lemma emits_try_catch {A} (m : M A) h :
  Emits P m -> (forall e, Emits P (h e)) -> Emits P (try_catch m h).
Proof.
  intros Hm Hh s. unfold try_catch. specialize (Hm s).
  destruct (m s) as [[a|e|] s' ev]; simpl in *; try done.
  apply Forall_app. split; [done | apply Hh].
Qed.

Lemma emits_try_finally m f :
  Emits P m -> (forall v, Emits P (f v)) -> Emits P (try_finally m f).
Proof.
  intros Hm Hf s. unfold try_finally. specialize (Hm s).
  destruct (m s) as [[a|e|] s' ev]; simpl in *; try done;
    (apply Forall_app; split; [done | apply Hf]).
Qed.

Lemma emits_when b m : Emits P m -> Emits P (when b m).
Proof. destruct b; simpl; auto using emits_ret. Qed.

Lemma emits_for_each {A} (l : list A) body :
  (forall x, Emits P (body x)) -> Emits P (for_each l body).
Proof.
  intros H. induction l; simpl; [apply emits_ret|].
  apply emits_bind; auto.
Qed.

Lemma emits_for_range from count body :
  (forall i, Emits P (body i)) -> Emits P (for_range from count body).
Proof.
  intros H. revert from. induction count; intros; simpl; [apply emits_ret|].
  apply emits_bind; auto.
Qed.
End Emits.

Lemma emits_mono (P Q : Event -> Prop) {A} (m : M A) :
  (forall e, P e -> Q e) -> Emits P m -> Emits Q m.
Proof. intros H Hm s. eapply Forall_impl; [apply Hm | done]. Qed.

Lemma silent_nil {A} (m : M A) s : Silent m -> evs (m s) = [].
Proof. intros H. specialize (H s). by destruct H. Qed.

Lemma silent_quiet {A} (m : M A) : Silent m -> Quiet m.
Proof. apply emits_mono. done. Qed.

Create HintDb emits.
#[export] Hint Resolve emits_ret emits_throw emits_diverge emits_gets
  emits_modify emits_lift : emits.

Ltac emits :=
  repeat first
    [ match goal with |- forall _, _ => intro end
    | progress cbv zeta
    | solve [eauto with emits]
    | apply emits_bind
    | apply emits_for_range
    | apply emits_for_each
    | apply emits_when
    | apply emits_try_catch
    | apply emits_try_finally
    | apply emits_emit; reflexivity
    | case_match ].

Section Reading.
Context (P : Event -> Prop).

Lemma emits_addSub d w : Emits P (addSub d w).
Proof. unfold addSub. emits. Qed.
Lemma emits_removeSub d w : Emits P (removeSub d w).
Proof. unfold removeSub. emits. Qed.
#[local] Hint Resolve emits_addSub emits_removeSub : emits.
Lemma emits_addDep w d : Emits P (addDep w d).
Proof. unfold addDep. emits. Qed.
#[local] Hint Resolve emits_addDep : emits.
Lemma emits_depend d : Emits P (depend d).
Proof. unfold depend. emits. Qed.
Lemma emits_pushTarget t : Emits P (pushTarget t).
Proof. unfold pushTarget. emits. Qed.
Lemma emits_popTarget : Emits P popTarget.
Proof. unfold popTarget. emits. Qed.
Lemma emits_cleanup_loop w ids l : Emits P (cleanup_loop w ids l).
Proof. induction l; simpl; emits. Qed.
#[local] Hint Resolve emits_depend emits_pushTarget emits_popTarget
  emits_cleanup_loop : emits.
Lemma emits_cleanupDeps w : Emits P (cleanupDeps w).
Proof. unfold cleanupDeps. emits. Qed.
Lemma emits_newDep : Emits P newDep.
Proof. intros s. constructor. Qed.
Lemma emits_call_user E f this args : Emits P (call_user E f this args).
Proof. unfold call_user. emits. Qed.
#[local] Hint Resolve emits_cleanupDeps emits_call_user emits_newDep : emits.

Lemma emits_depend_on_ob e : Emits P (depend_on_ob e).
Proof. unfold depend_on_ob. emits. Qed.
#[local] Hint Resolve emits_depend_on_ob : emits.

Lemma emits_get_prop_with cg l k :
  (forall g this, Emits P (cg g this)) -> Emits P (get_prop_with cg l k).
Proof. intros H. unfold get_prop_with. emits. Qed.
#[local] Hint Resolve emits_get_prop_with : emits.

Lemma emits_reading E n :
  (forall g this, Emits P (call_getter E n g this)) /\
  (forall l, Emits P (dependArray E n l)).
Proof.
  induction n as [|n [IHg IHd]]; simpl.
  - split; intros; apply emits_diverge.
  - split.
    + intros g this. destruct g; [emits|].
      unfold reactiveGetter_with. emits.
    + intros l. unfold dependArray_with. emits.
Qed.

Lemma emits_call_getter E n g this : Emits P (call_getter E n g this).
Proof. apply emits_reading. Qed.
Lemma emits_dependArray E n l : Emits P (dependArray E n l).
Proof. apply emits_reading. Qed.
#[local] Hint Resolve emits_call_getter emits_dependArray : emits.
Lemma emits_get_prop E n l k : Emits P (get_prop E n l k).
Proof. apply emits_get_prop_with. auto with emits. Qed.
#[local] Hint Resolve emits_get_prop : emits.
Lemma emits_reactiveGetter E n c : Emits P (reactiveGetter E n c).
Proof. unfold reactiveGetter, reactiveGetter_with. emits. Qed.

Lemma emits__traverse E n v : Emits P (_traverse E n v).
Proof.
  revert v. induction n as [|n IH]; intros v; simpl; emits.
Qed.
#[local] Hint Resolve emits__traverse : emits.
Lemma emits_traverse E n v : Emits P (traverse E n v).
Proof. unfold traverse. emits. Qed.

Lemma emits_defineProperty l k p : Emits P (defineProperty l k p).
Proof. unfold defineProperty. emits. Qed.
#[local] Hint Resolve emits_defineProperty : emits.

Lemma emits_observe E n v b : Emits P (observe E n v b).
Proof.
  revert v b. induction n as [|n IH]; intros v b; simpl; emits.
Qed.
End Reading.

#[export] Hint Resolve emits_addSub emits_removeSub emits_addDep
  emits_depend emits_pushTarget emits_popTarget emits_cleanup_loop
  emits_cleanupDeps emits_newDep emits_call_user emits_depend_on_ob
  emits_get_prop_with emits_call_getter emits_dependArray emits_get_prop
  emits_reactiveGetter emits__traverse emits_traverse emits_defineProperty
  emits_observe : emits.

Lemma quiet_handleError e vm i : Quiet (handleError e vm i).
Proof. unfold handleError, Quiet. emits. Qed.
#[export] Hint Resolve quiet_handleError : emits.
Lemma quiet_get E n w : Quiet (get E n w).
Proof. unfold get, Quiet. emits. Qed.
#[export] Hint Resolve quiet_get : emits.
Lemma quiet_run E n w : Quiet (run E n w).
Proof. unfold run, Quiet. emits. Qed.
#[export] Hint Resolve quiet_run : emits.
Lemma quiet_update E n w : Quiet (update E n w).
Proof. unfold update, Quiet. emits. Qed.
#[export] Hint Resolve quiet_update : emits.

Lemma updates_of_app l1 l2 :
  updates_of (l1 ++ l2) = updates_of l1 ++ updates_of l2.
Proof. apply omap_app. Qed.
Lemma notifies_of_app l1 l2 :
  notifies_of (l1 ++ l2) = notifies_of l1 ++ notifies_of l2.
Proof. apply omap_app. Qed.

Lemma quiet_no_signal l :
  Forall (fun e => signal e = false) l ->
  updates_of l = [] /\ notifies_of l = [].
Proof.
  induction 1 as [|e l He _ [IH1 IH2]]; [done|].
  unfold updates_of, notifies_of in *. destruct e; simpl in *; try done.
Qed.

Lemma run_bind {A B} (m : M A) (k : A -> M B) s :
  bind m k s =
  match out (m s) with
  | Ok a => mkRes (out (k a (st (m s)))) (st (k a (st (m s))))
                  (evs (m s) ++ evs (k a (st (m s))))
  | Throw e => mkRes (Throw e) (st (m s)) (evs (m s))
  | Diverge => mkRes Diverge (st (m s)) (evs (m s))
  end.
Proof. done. Qed.

Lemma bind_emit {B} e (k : unit -> M B) s :
  bind (emit e) k s = mkRes (out (k tt s)) (st (k tt s)) (e :: evs (k tt s)).
Proof. done. Qed.

Lemma bind_assoc {A B C} (m : M A) (k : A -> M B) (h : B -> M C) s :
  bind (bind m k) h s = bind m (fun a => bind (k a) h) s.
Proof.
  unfold bind. destruct (m s) as [[a|e|] s1 ev1]; simpl; try done.
  destruct (k a s1) as [[b|e|] s2 ev2]; simpl; try done.
  by rewrite app_assoc.
Qed.

Lemma update_all_events E n l s :
  let r := update_all E n l s in
  updates_of (evs r) `prefix_of` l /\
  (out r = Ok tt -> updates_of (evs r) = l) /\
  notifies_of (evs r) = [].
Proof.
  revert s. induction l as [|w l IH]; intros s.
  - repeat split; auto.
  - unfold update_all in *. cbn [for_each]. rewrite bind_assoc, bind_emit.
    cbv beta zeta. cbn [out st evs].
    pose proof (quiet_update E n w s) as Hq.
    apply quiet_no_signal in Hq as [Hu Hn].
    rewrite (run_bind (update E n w)).
    destruct (update E n w s) as [[[]|e|] s' ev]; cbn [out st evs] in *.
    + specialize (IH s'). cbv zeta in IH. destruct IH as (IH1 & IH2 & IH4).
      change (EvUpdate w :: ?l) with ([EvUpdate w] ++ l).
      rewrite !updates_of_app, !notifies_of_app, Hu, Hn.
      repeat split.
      * by apply prefix_cons.
      * intros Ho. by rewrite IH2.
      * done.
    + change (EvUpdate w :: ?l) with ([EvUpdate w] ++ l).
      rewrite !updates_of_app, !notifies_of_app, Hu, Hn. repeat split; try done.
      apply prefix_cons, prefix_nil.
    + change (EvUpdate w :: ?l) with ([EvUpdate w] ++ l).
      rewrite !updates_of_app, !notifies_of_app, Hu, Hn. repeat split; try done.
      apply prefix_cons, prefix_nil.
Qed.

Lemma notify_unfold E n d s :
  notify E n d s =
  let r := update_all E n (snapshot E s d) s in
  mkRes (out r) (st r) (EvNotify d :: evs r).
Proof.
  unfold notify. rewrite bind_emit. cbv beta.
  rewrite !bind_gets. done.
Qed.

#[local] Instance le_total : Total Nat.le.
Proof. intros x y. lia. Qed.

(** What a notification calls. *)
Lemma notify_events E n d s :
  let r := notify E n d s in
  updates_of (evs r) `prefix_of` snapshot E s d /\
  (out r = Ok tt -> updates_of (evs r) = snapshot E s d) /\
  notifies_of (evs r) = [d].
Proof.
  cbv zeta. rewrite notify_unfold. cbv zeta. simpl.
  destruct (update_all_events E n (snapshot E s d) s) as (H1 & H2 & H4).
  split_and!; auto.
  change (EvNotify d :: ?l) with ([EvNotify d] ++ l).
  by rewrite notifies_of_app, H4.
Qed.


End ReactiveFacts.

Module DepFacts.
Import Reactive ReactiveSpec ReactiveFacts.
#[local] Open Scope list_scope.

#[local] Arguments bind : simpl never.
#[local] Arguments gets : simpl never.
#[local] Arguments ret : simpl never.
#[local] Arguments modify : simpl never.

(** [remove] *)
Lemma remove_subset (l : list nat) x y : x ∈ remove l y -> x ∈ l.
Proof.
  induction l as [|a l IH]; simpl; [done|].
  destruct (Nat.eqb a y); set_solver.
Qed.

Lemma remove_other (l : list nat) x y : x <> y -> x ∈ l -> x ∈ remove l y.
Proof.
  intros Hne. induction l as [|a l IH]; simpl; [done|].
  destruct (Nat.eqb_spec a y) as [->|]; set_solver.
Qed.

Lemma remove_NoDup (l : list nat) y : NoDup l -> NoDup (remove l y).
Proof.
  induction 1 as [|a l Ha Hl IH]; simpl; [constructor|].
  destruct (Nat.eqb a y); [done|].
  constructor; [|done]. intros H. by apply remove_subset in H.
Qed.

Lemma remove_gone (l : list nat) y : NoDup l -> y ∉ remove l y.
Proof.
  induction 1 as [|a l Ha Hl IH]; simpl; [set_solver|].
  destruct (Nat.eqb_spec a y) as [->|]; [done|].
  set_solver.
Qed.

Lemma remove_absent (l : list nat) y : y ∉ l -> remove l y = l.
Proof.
  induction l as [|a l IH]; simpl; [done|].
  intros H.
  destruct (Nat.eqb_spec a y) as [->|]; [set_solver|].
  f_equal. apply IH. set_solver.
Qed.

Lemma elem_of_rev {A} (x : A) l : x ∈ rev l <-> x ∈ l.
Proof. rewrite !list_elem_of_In. symmetry. apply in_rev. Qed.

(** Projections of updated states *)
Lemma subs_of_set_subs d l s d' :
  subs_of (set_subs d l s) d' = if decide (d = d') then l else subs_of s d'.
Proof.
  unfold subs_of, set_subs. simpl. rewrite lookup_insert.
  by case_decide.
Qed.

Lemma watcher_set_watcher w W s w' :
  watcher (set_watcher w W s) w' = if decide (w = w') then W else watcher s w'.
Proof.
  unfold watcher, set_watcher. simpl. rewrite lookup_insert.
  by case_decide.
Qed.

Lemma watcher_set_subs d l s w : watcher (set_subs d l s) w = watcher s w.
Proof. done. Qed.
Lemma subs_of_set_watcher w W s d : subs_of (set_watcher w W s) d = subs_of s d.
Proof. done. Qed.

(** A change of one subscriber list. *)
Lemma inv_set_subs d l s :
  Inv s ->
  NoDup l ->
  (forall w, w ∈ l ->
     (d ∈ w_depIds (watcher s w) \/ d ∈ w_newDepIds (watcher s w))
     /\ w <= watcher_uid s) ->
  Inv (set_subs d l s).
Proof.
  intros [] Hnd Hl. split; try done.
  - intros d'. rewrite subs_of_set_subs. case_decide; auto.
  - intros w d'. rewrite subs_of_set_subs, watcher_set_subs.
    case_decide; subst; auto. intros Hw. by apply Hl.
  - intros w d'. rewrite subs_of_set_subs. case_decide; subst; eauto.
    intros Hw. by apply Hl.
Qed.

(** A change of the dependency sets of one watcher. *)
Lemma inv_set_watcher w W s :
  Inv s ->
  NoDup (w_deps W) -> NoDup (w_newDeps W) ->
  (forall d, d ∈ w_depIds W <-> d ∈ w_deps W) ->
  (forall d, d ∈ w_newDepIds W <-> d ∈ w_newDeps W) ->
  (forall d, w ∈ subs_of s d -> d ∈ w_depIds W \/ d ∈ w_newDepIds W) ->
  Inv (set_watcher w W s).
Proof.
  intros [] H1 H2 H3 H4 H5. split; try done.
  - intros w' d. rewrite watcher_set_watcher, subs_of_set_watcher.
    case_decide; subst; auto.
  - intros w' d. rewrite watcher_set_watcher. case_decide; subst; auto.
  - intros w' d. rewrite watcher_set_watcher. case_decide; subst; auto.
  - intros w'. rewrite watcher_set_watcher. case_decide; subst; auto.
  - intros w'. rewrite watcher_set_watcher. case_decide; subst; auto.
Qed.

Lemma inv_set_target t stack s :
  Inv s ->
  (forall w, active t = Some w -> w <= watcher_uid s) ->
  (forall w, TWatcher w ∈ stack -> w <= watcher_uid s) ->
  Inv (set_target t stack s).
Proof. intros [] H1 H2. by split. Qed.

(** [addSub], [removeSub] *)
Lemma addSub_st d w s :
  st (addSub d w s) = set_subs d (subs_of s d ++ [w]) s.
Proof. done. Qed.
Lemma removeSub_st d w s :
  st (removeSub d w s) = set_subs d (remove (subs_of s d) w) s.
Proof. done. Qed.

Lemma removeSub_inv d w s : Inv s -> Inv (st (removeSub d w s)).
Proof.
  intros HI. rewrite removeSub_st. apply inv_set_subs; [done|..].
  - apply remove_NoDup, HI.
  - intros w' Hw'. apply remove_subset in Hw'. split.
    + by apply HI.
    + by eapply inv_created.
Qed.

(** [addDep] *)
Lemma addDep_st w d s :
  st (addDep w d s) =
  let W := watcher s w in
  if bool_decide (d ∈ w_newDepIds W) then s
  else
    let s1 := set_watcher w
                (with_deps (w_deps W) (w_newDeps W ++ [d]) (w_depIds W)
                           ({[d]} ∪ w_newDepIds W) W) s in
    if bool_decide (d ∈ w_depIds W) then s1
    else set_subs d (subs_of s1 d ++ [w]) s1.
Proof.
  unfold addDep. rewrite bind_gets. cbv zeta.
  case_bool_decide; [done|].
  rewrite bind_modify. by case_bool_decide.
Qed.

Lemma addDep_inv w d s :
  Inv s -> w <= watcher_uid s -> Inv (st (addDep w d s)).
Proof.
  intros HI Hw. rewrite addDep_st. cbv zeta.
  case_bool_decide as Hnew; [done|].
  assert (Inv (set_watcher w
                (with_deps (w_deps (watcher s w)) (w_newDeps (watcher s w) ++ [d])
                   (w_depIds (watcher s w)) ({[d]} ∪ w_newDepIds (watcher s w))
                   (watcher s w)) s)) as HI1.
  { apply inv_set_watcher; simpl; try done.
    - apply HI.
    - apply NoDup_app. split; [apply HI|]. split; [|apply NoDup_singleton].
      intros x Hx ->%list_elem_of_singleton. apply Hnew. by apply HI.
    - apply HI.
    - intros d'. rewrite elem_of_union, elem_of_app, elem_of_singleton,
        list_elem_of_singleton. rewrite (inv_newDepIds _ HI). tauto.
    - intros d' Hd'. destruct (inv_subscribed _ HI _ _ Hd'); set_solver. }
  case_bool_decide as Hold; [done|].
  apply inv_set_subs; [done|..].
  - rewrite subs_of_set_watcher. apply NoDup_app. split; [apply HI|].
    split; [|apply NoDup_singleton].
    intros x Hx ->%list_elem_of_singleton.
    destruct (inv_subscribed _ HI _ _ Hx); done.
  - intros w'. rewrite subs_of_set_watcher, elem_of_app, list_elem_of_singleton.
    intros [Hw'| ->].
    + split; [by apply HI1 | by eapply inv_created].
    + split; [|done]. right. rewrite watcher_set_watcher.
      case_decide; [|done]. simpl. set_solver.
Qed.

Lemma depend_inv d s : Inv s -> Inv (st (depend d s)).
Proof.
  intros HI. unfold depend. rewrite bind_gets.
  destruct (active (target s)) as [w|] eqn:Ht; [|done].
  apply addDep_inv; [done|]. by eapply inv_target.
Qed.

(** [cleanupDeps] *)
Lemma cleanup_loop_ok w ids rdeps s :
  out (cleanup_loop w ids rdeps s) = Ok tt /\
  evs (cleanup_loop w ids rdeps s) = [].
Proof.
  revert s. induction rdeps as [|d rdeps IH]; intros s; simpl; [done|].
  rewrite run_bind.
  case_bool_decide; simpl; apply IH.
Qed.

Lemma cleanup_loop_cons w ids d rdeps s :
  st (cleanup_loop w ids (d :: rdeps) s) =
  st (cleanup_loop w ids rdeps
        (if bool_decide (d ∈ ids) then s else st (removeSub d w s))).
Proof.
  simpl. rewrite run_bind.
  by case_bool_decide.
Qed.

Lemma cleanup_loop_spec w ids rdeps s :
  Inv s ->
  let s' := st (cleanup_loop w ids rdeps s) in
  Inv s' /\
  (forall w', watcher s' w' = watcher s w') /\
  watcher_uid s' = watcher_uid s /\
  target s' = target s /\ targetStack s' = targetStack s /\
  (forall d x, x ∈ subs_of s' d -> x ∈ subs_of s d) /\
  (forall d x, x <> w -> x ∈ subs_of s d -> x ∈ subs_of s' d) /\
  (forall d, d ∈ rdeps -> d ∉ ids -> w ∉ subs_of s' d) /\
  (forall d, d ∉ rdeps \/ d ∈ ids -> subs_of s' d = subs_of s d).
Proof.
  revert s. induction rdeps as [|d0 rdeps IH]; intros s HI.
  - simpl. split_and!; auto. intros d Hd. by apply elem_of_nil in Hd.
  - cbv zeta. rewrite cleanup_loop_cons.
    case_bool_decide as Hin.
    + destruct (IH s HI) as (I1 & I2 & I3 & I4 & I5 & I6 & I7 & I8 & I9).
      split_and!; auto.
      * intros d [->|Hd]%elem_of_cons Hn; [done | by apply I8].
      * intros d Hd. apply I9. set_solver.
    + pose proof (removeSub_inv d0 w s HI) as HI'.
      destruct (IH _ HI') as (I1 & I2 & I3 & I4 & I5 & I6 & I7 & I8 & I9).
      rewrite removeSub_st in *.
      split_and!; auto.
      * intros d x Hx. apply I6 in Hx. rewrite subs_of_set_subs in Hx.
        case_decide; subst; [by eapply remove_subset | done].
      * intros d x Hne Hx. apply I7; [done|]. rewrite subs_of_set_subs.
        case_decide; subst; [by apply remove_other | done].
      * intros d [->|Hd]%elem_of_cons Hn; [|by apply I8].
        intros Hw. apply I6 in Hw. rewrite subs_of_set_subs in Hw.
        case_decide; [|done]. revert Hw. apply remove_gone, HI.
      * intros d Hd. rewrite I9 by set_solver. rewrite subs_of_set_subs.
        case_decide; [|done]. subst. set_solver.
Qed.

Lemma cleanupDeps_st w s :
  st (cleanupDeps w s) =
  let W := watcher s w in
  let s1 := st (cleanup_loop w (w_newDepIds W) (rev (w_deps W)) s) in
  set_watcher w (with_deps (w_newDeps (watcher s1 w)) []
                           (w_newDepIds (watcher s1 w)) ∅ (watcher s1 w)) s1.
Proof.
  unfold cleanupDeps. rewrite bind_gets, run_bind.
  destruct (cleanup_loop_ok w (w_newDepIds (watcher s w))
              (rev (w_deps (watcher s w))) s) as [-> _].
  done.
Qed.

(** What reconciliation achieves. *)
Lemma cleanupDeps_spec w s :
  Inv s ->
  let s' := st (cleanupDeps w s) in
  Inv s' /\
  w_deps (watcher s' w) = w_newDeps (watcher s w) /\
  w_newDeps (watcher s' w) = [] /\
  (forall d, d ∈ w_deps (watcher s w) -> d ∉ w_newDeps (watcher s w) ->
             w ∉ subs_of s' d) /\
  (forall d x, x ∈ subs_of s' d -> x ∈ subs_of s d) /\
  (forall d x, x <> w -> x ∈ subs_of s d -> x ∈ subs_of s' d) /\
  (forall d, d ∈ w_newDeps (watcher s w) -> subs_of s' d = subs_of s d).
Proof.
  intros HI. cbv zeta. rewrite cleanupDeps_st. cbv zeta.
  destruct (cleanup_loop_spec w (w_newDepIds (watcher s w))
              (rev (w_deps (watcher s w))) s HI)
    as (I1 & I2 & I3 & I4 & I5 & I6 & I7 & I8 & I9).
  set (s1 := st (cleanup_loop w (w_newDepIds (watcher s w))
                   (rev (w_deps (watcher s w))) s)) in *.
  rewrite !I2.
  split_and!.
  - apply inv_set_watcher; simpl.
    + done.
    + apply HI.
    + constructor.
    + intros d. apply HI.
    + intros d. set_solver.
    + intros d Hd. left.
      destruct (inv_subscribed _ I1 _ _ Hd) as [H|H]; rewrite I2 in H; [|done].
      destruct (decide (d ∈ w_newDepIds (watcher s w))) as [|Hn]; [done|].
      exfalso. eapply I8; [|exact Hn|exact Hd].
      rewrite elem_of_rev. by apply HI.
  - rewrite watcher_set_watcher. by case_decide.
  - rewrite watcher_set_watcher. by case_decide.
  - intros d Hd Hn. rewrite subs_of_set_watcher. apply I8.
    + by rewrite elem_of_rev.
    + by rewrite (inv_newDepIds _ HI).
  - intros d x. rewrite subs_of_set_watcher. apply I6.
  - intros d x. rewrite subs_of_set_watcher. apply I7.
  - intros d Hd. rewrite subs_of_set_watcher. apply I9. right.
    by rewrite (inv_newDepIds _ HI).
Qed.

Lemma untouched_refl s : untouched s s.
Proof. by repeat split. Qed.

Lemma inv_untouched s s' : Inv s -> untouched s s' -> Inv s'.
Proof.
  intros [] (Hs & Hw & Hu & Ht & Hk).
  assert (forall d, subs_of s' d = subs_of s d) as Hsubs.
  { intros d. unfold subs_of. by rewrite Hs. }
  assert (forall w, w_deps (watcher s' w) = w_deps (watcher s w) /\
                    w_newDeps (watcher s' w) = w_newDeps (watcher s w) /\
                    w_depIds (watcher s' w) = w_depIds (watcher s w) /\
                    w_newDepIds (watcher s' w) = w_newDepIds (watcher s w))
    as Hf.
  { intros w. specialize (Hw w). unfold tracked in Hw.
    by inversion Hw. }
  split.
  - intros d. by rewrite Hsubs.
  - intros w d. rewrite Hsubs. destruct (Hf w) as (_ & _ & -> & ->). auto.
  - intros w d. destruct (Hf w) as (-> & _ & -> & _). auto.
  - intros w d. destruct (Hf w) as (_ & -> & _ & ->). auto.
  - intros w. destruct (Hf w) as (-> & _). auto.
  - intros w. destruct (Hf w) as (_ & -> & _). auto.
  - intros w d. rewrite Hsubs, Hu. eauto.
  - intros w. rewrite Ht, Hu. auto.
  - intros w. rewrite Hk, Hu. auto.
Qed.

Lemma newDep_inv s : Inv s -> Inv (st (newDep s)).
Proof.
  intros HI. unfold newDep. simpl.
  apply inv_set_subs.
  - eapply inv_untouched; [done|]. by repeat split.
  - constructor.
  - intros w Hw. by apply elem_of_nil in Hw.
Qed.

Lemma pushTarget_inv t s :
  Inv s -> (forall w, t = TWatcher w -> w <= watcher_uid s) ->
  Inv (st (pushTarget t s)).
Proof.
  intros HI Ht. unfold pushTarget. simpl. apply inv_set_target; [done|..].
  - intros w Hw. apply Ht. by destruct t; simplify_eq/=.
  - intros w [Hw|Hw%list_elem_of_singleton]%elem_of_app.
    + by eapply inv_stack.
    + auto.
Qed.

Lemma elem_of_removelast {A} (x : A) l : x ∈ removelast l -> x ∈ l.
Proof.
  induction l as [|a [|b l] IH]; simpl; [set_solver..|].
  rewrite !elem_of_cons. intros [->|H]; [by left|]. right.
  apply elem_of_cons. by apply IH.
Qed.

Lemma last_default_elem {A} (l : list A) d :
  List.last l d = d \/ List.last l d ∈ l.
Proof.
  induction l as [|a [|b l] IH]; simpl; [by left | right; set_solver |].
  destruct IH as [IH|IH]; [by left|]. right. by apply elem_of_cons; right.
Qed.

Lemma popTarget_inv s : Inv s -> Inv (st (popTarget s)).
Proof.
  intros HI. unfold popTarget. simpl. apply inv_set_target; [done|..].
  - intros w Hw.
    destruct (last_default_elem (removelast (targetStack s)) TUndefined)
      as [Hl|Hl].
    + by rewrite Hl in Hw.
    + apply elem_of_removelast in Hl.
      destruct (List.last _ _) eqn:?; simplify_eq/=. by eapply inv_stack.
  - intros w Hw%elem_of_removelast. by eapply inv_stack.
Qed.

Lemma cleanupDeps_inv w s : Inv s -> Inv (st (cleanupDeps w s)).
Proof. intros HI. by apply cleanupDeps_spec. Qed.

Lemma for_each_removeSub_inv w l s :
  Inv s -> Inv (st (for_each l (fun d => removeSub d w) s)).
Proof.
  revert s. induction l as [|d l IH]; intros s HI; simpl; [done|].
  apply IH. by apply removeSub_inv.
Qed.

Lemma teardown_inv w s : Inv s -> Inv (st (teardown w s)).
Proof.
  intros HI. unfold teardown. rewrite bind_gets.
  destruct (w_active (watcher s w)); [|done].
  rewrite run_bind.
  set (m := match w_vm (watcher s w) with VRef _ => _ | _ => _ end).
  assert (out (m s) = Ok tt /\ Inv (st (m s))) as [Hm HIm].
  { subst m. destruct (w_vm (watcher s w)); try done. simpl. split; [done|].
    destruct (vms s !! l) as [V|]; [|done].
    destruct (vm_isBeingDestroyed V); [done|].
    eapply inv_untouched; [done|]. by repeat split. }
  rewrite Hm. simpl. rewrite run_bind.
  pose proof (for_each_removeSub_inv w (rev (w_deps (watcher s w))) _ HIm) as HI2.
  destruct (out (for_each _ _ _)); simpl; try done.
  apply inv_set_watcher; simpl; apply HI2.
Qed.

Lemma initWatcher_inv E vm f expr cb opts r s :
  Inv s -> Inv (st (initWatcher E vm f expr cb opts r s)).
Proof.
  intros HI. unfold initWatcher. simpl.
  split; simpl.
  - apply HI.
  - intros w d. rewrite watcher_set_watcher. simpl.
    change (subs_of _ d) with (subs_of s d). intros Hw.
    case_decide as Heq.
    + subst. apply (inv_created _ HI) in Hw. lia.
    + by apply HI.
  - intros w d. rewrite watcher_set_watcher. case_decide; [set_solver|]. apply HI.
  - intros w d. rewrite watcher_set_watcher. case_decide; [set_solver|]. apply HI.
  - intros w. rewrite watcher_set_watcher. case_decide; [constructor|]. apply HI.
  - intros w. rewrite watcher_set_watcher. case_decide; [constructor|]. apply HI.
  - intros w d. change (subs_of _ d) with (subs_of s d). intros Hw.
    apply (inv_created _ HI) in Hw. lia.
  - intros w Hw. apply (inv_target _ HI) in Hw. lia.
  - intros w Hw. apply (inv_stack _ HI) in Hw. lia.
Qed.

Lemma init_inv : Inv init.
Proof.
  split; unfold subs_of, watcher; simpl; intros;
    rewrite ?lookup_empty in *; simpl in *;
    try done; try constructor; set_solver.
Qed.

Lemma reachable_inv s : reachable s -> Inv s.
Proof.
  induction 1;
    eauto using init_inv, newDep_inv, initWatcher_inv, pushTarget_inv,
      popTarget_inv, depend_inv, cleanupDeps_inv, teardown_inv,
      inv_untouched.
Qed.

Lemma reach_ret {A} (a : A) : Reach (ret a).
Proof. by intros s. Qed.
Lemma reach_throw {A} e : Reach (@throw A e).
Proof. by intros s. Qed.
Lemma reach_diverge {A} : Reach (@diverge A).
Proof. by intros s. Qed.
Lemma reach_gets {A} (f : State -> A) : Reach (gets f).
Proof. by intros s. Qed.
Lemma reach_emit e : Reach (emit e).
Proof. by intros s. Qed.
Lemma reach_modify f : (forall s, untouched s (f s)) -> Reach (modify f).
Proof. intros H s Hs. simpl. eapply reach_untouched; eauto. Qed.

Lemma reach_bind {A B} (m : M A) (k : A -> M B) :
  Reach m -> (forall a, Reach (k a)) -> Reach (bind m k).
Proof.
  intros Hm Hk s Hs. rewrite run_bind. specialize (Hm s Hs).
  destruct (out (m s)); simpl; auto. by apply Hk.
Qed.

Lemma reach_try_catch {A} (m : M A) h :
  Reach m -> (forall e, Reach (h e)) -> Reach (try_catch m h).
Proof.
  intros Hm Hh s Hs. unfold try_catch. specialize (Hm s Hs).
  destruct (m s) as [[a|e|] s' ev]; simpl in *; auto. by apply Hh.
Qed.

Lemma reach_try_finally m f :
  Reach m -> (forall v, Reach (f v)) -> Reach (try_finally m f).
Proof.
  intros Hm Hf s Hs. unfold try_finally. specialize (Hm s Hs).
  destruct (m s) as [[a|e|] s' ev]; simpl in *; auto; by apply Hf.
Qed.

Lemma reach_when b m : Reach m -> Reach (when b m).
Proof. destruct b; simpl; auto using reach_ret. Qed.

Lemma reach_for_each {A} (l : list A) body :
  (forall x, Reach (body x)) -> Reach (for_each l body).
Proof.
  intros H. induction l; simpl; [apply reach_ret|].
  apply reach_bind; auto.
Qed.

Lemma reach_for_range from count body :
  (forall i, Reach (body i)) -> Reach (for_range from count body).
Proof.
  intros H. revert from. induction count; intros; simpl; [apply reach_ret|].
  apply reach_bind; auto.
Qed.

Lemma reach_depend_ d : Reach (depend d).
Proof. intros s Hs. by constructor. Qed.
Lemma reach_popTarget_ : Reach popTarget.
Proof. intros s Hs. by constructor. Qed.
Lemma reach_cleanupDeps_ w : Reach (cleanupDeps w).
Proof. intros s Hs. by constructor. Qed.
Lemma reach_teardown_ w : Reach (teardown w).
Proof. intros s Hs. by constructor. Qed.
Lemma reach_newDep_ : Reach newDep.
Proof. intros s Hs. by constructor. Qed.
Lemma reach_handleError e vm i : Reach (handleError e vm i).
Proof. apply reach_emit. Qed.

Lemma reach_call_user E f this args :
  EnvOk E -> Reach (call_user E f this args).
Proof. intros [H _] s Hs. by apply H. Qed.
Lemma reach_queueWatcher E w : EnvOk E -> Reach (lift (queueWatcher E w)).
Proof. intros [_ H] s Hs. by apply H. Qed.

Create HintDb reach.
#[export] Hint Resolve reach_ret reach_throw reach_diverge reach_gets
  reach_emit reach_depend_ reach_popTarget_ reach_cleanupDeps_
  reach_teardown_ reach_newDep_ reach_handleError reach_call_user
  reach_queueWatcher untouched_refl : reach.

Ltac reach :=
  repeat first
    [ match goal with |- forall _, _ => intro end
    | progress cbv zeta
    | solve [eauto with reach]
    | apply reach_bind
    | apply reach_for_range
    | apply reach_for_each
    | apply reach_when
    | apply reach_try_catch
    | apply reach_try_finally
    | apply reach_modify; intros; solve [repeat split]
    | case_match ].

Lemma reach_depend_on_ob e : Reach (depend_on_ob e).
Proof. unfold depend_on_ob. reach. Qed.
#[export] Hint Resolve reach_depend_on_ob : reach.

Lemma reach_get_prop_with cg l k :
  (forall g this, Reach (cg g this)) -> Reach (get_prop_with cg l k).
Proof. intros H. unfold get_prop_with. reach. Qed.
#[export] Hint Resolve reach_get_prop_with : reach.

Lemma reach_reading E n :
  EnvOk E ->
  (forall g this, Reach (call_getter E n g this)) /\
  (forall l, Reach (dependArray E n l)).
Proof.
  intros HE. induction n as [|n [IHg IHd]]; simpl.
  - split; intros; apply reach_diverge.
  - split.
    + intros g this. destruct g; [reach|].
      unfold reactiveGetter_with. reach.
    + intros l. unfold dependArray_with. reach.
Qed.

Lemma reach_call_getter E n g this : EnvOk E -> Reach (call_getter E n g this).
Proof. intros. by apply reach_reading. Qed.
Lemma reach_dependArray E n l : EnvOk E -> Reach (dependArray E n l).
Proof. intros. by apply reach_reading. Qed.
#[export] Hint Resolve reach_call_getter reach_dependArray : reach.
Lemma reach_get_prop E n l k : EnvOk E -> Reach (get_prop E n l k).
Proof. intros. apply reach_get_prop_with. auto with reach. Qed.
#[export] Hint Resolve reach_get_prop : reach.

Lemma reach__traverse E n v : EnvOk E -> Reach (_traverse E n v).
Proof.
  intros HE. revert v. induction n as [|n IH]; intros v; simpl; reach.
Qed.
#[export] Hint Resolve reach__traverse : reach.
Lemma reach_traverse E n v : EnvOk E -> Reach (traverse E n v).
Proof. intros. unfold traverse. reach. Qed.
#[export] Hint Resolve reach_traverse : reach.

Lemma reach_get E n w s :
  EnvOk E -> reachable s -> w <= watcher_uid s ->
  reachable (st (get E n w s)).
Proof.
  intros HE Hs Hw. unfold get. rewrite run_bind. simpl.
  assert (reachable (st (pushTarget (TWatcher w) s))) as H1.
  { constructor; [done|]. by intros ? [= ->]. }
  match goal with
  | |- reachable (st (?m ?s')) =>
    assert (Reach m) as Hr by reach; by apply Hr
  end.
Qed.

(** A read of [d] while [w] is the target records [d]. *)
Lemma depend_records d w s :
  Inv s -> active (target s) = Some w ->
  d ∈ w_newDeps (watcher (st (depend d s)) w).
Proof.
  intros HI Ht. unfold depend. rewrite bind_gets, Ht, addDep_st. cbv zeta.
  case_bool_decide as Hnew.
  - by apply HI.
  - case_bool_decide.
    + rewrite watcher_set_watcher. case_decide; [|done]. simpl. set_solver.
    + rewrite watcher_set_subs, watcher_set_watcher.
      case_decide; [|done]. simpl. set_solver.
Qed.

(** What [cleanupDeps] leaves. *)
Lemma cleanup_reachable s w :
  reachable s ->
  let s' := st (cleanupDeps w s) in
  reachable s' /\
  (forall d, NoDup (subs_of s' d)) /\
  NoDup (w_newDeps (watcher s w)) /\
  NoDup (w_deps (watcher s' w)) /\
  w_deps (watcher s' w) = w_newDeps (watcher s w) /\
  w_newDeps (watcher s' w) = [] /\
  (forall d, d ∈ w_deps (watcher s w) -> d ∉ w_newDeps (watcher s w) ->
             w ∉ subs_of s' d).
Proof.
  intros Hs s'. pose proof (reachable_inv s Hs) as HI.
  destruct (cleanupDeps_spec w s HI) as (I1 & I2 & I3 & I4 & _).
  fold s' in I1, I2, I3, I4.
  split_and!; auto.
  - by constructor.
  - apply I1.
  - apply HI.
  - apply I1.
Qed.

(** C2: in a state that the operations of deps and watchers reach,
    once [cleanupDeps] has run for a watcher, no list of subscribers
    holds a watcher twice, the deps of the watcher are the deps that
    [depend] recorded for it during the evaluation, each one once,
    and a dep that the watcher had before and that the evaluation did
    not read no longer has the watcher among its subscribers. *)
Theorem reconciliation s w :
  reachable s ->
  let s' := st (cleanupDeps w s) in
  reachable s' /\
  (forall d, NoDup (subs_of s' d)) /\
  NoDup (w_newDeps (watcher s w)) /\
  NoDup (w_deps (watcher s' w)) /\
  w_deps (watcher s' w) = w_newDeps (watcher s w) /\
  w_newDeps (watcher s' w) = [] /\
  (forall d, d ∈ w_deps (watcher s w) -> d ∉ w_newDeps (watcher s w) ->
             w ∉ subs_of s' d) /\
  (forall d, active (target s) = Some w ->
             d ∈ w_newDeps (watcher (st (depend d s)) w)).
Proof.
  intros Hs s'.
  destruct (cleanup_reachable s w Hs) as (R1 & R2 & R3 & R4 & R5 & R6 & R7).
  split_and!; auto.
  intros d Ht. apply depend_records; [|exact Ht].
  by apply reachable_inv.
Qed.

(** ** An evaluation that reads the deps [reads] *)

Lemma addDep_ok w d s : out (addDep w d s) = Ok tt /\ evs (addDep w d s) = [].
Proof.
  unfold addDep. rewrite bind_gets. cbv zeta.
  case_bool_decide; [done|]. rewrite bind_modify. by case_bool_decide.
Qed.

Lemma depend_ok d s : out (depend d s) = Ok tt /\ evs (depend d s) = [].
Proof.
  unfold depend. rewrite bind_gets. destruct (active (target s)); [|done].
  apply addDep_ok.
Qed.

Lemma reads_ok reads s :
  out (for_each reads depend s) = Ok tt /\ evs (for_each reads depend s) = [].
Proof.
  revert s. induction reads as [|d reads IH]; intros s; [done|].
  cbn [for_each]. rewrite run_bind.
  destruct (depend_ok d s) as [-> ->]. simpl. apply IH.
Qed.

Lemma reads_cons d reads s :
  st (for_each (d :: reads) depend s) = st (for_each reads depend (st (depend d s))).
Proof.
  cbn [for_each]. rewrite run_bind. by destruct (depend_ok d s) as [-> _].
Qed.

(** What [depend] leaves alone. *)
Lemma depend_frame d s :
  let s' := st (depend d s) in
  target s' = target s /\ targetStack s' = targetStack s /\
  watcher_uid s' = watcher_uid s /\
  (forall w, w_deps (watcher s' w) = w_deps (watcher s w)) /\
  (forall w, w_deep (watcher s' w) = w_deep (watcher s w)) /\
  (forall w, w_user (watcher s' w) = w_user (watcher s w)) /\
  (forall w, active (target s) <> Some w ->
             w_newDeps (watcher s' w) = w_newDeps (watcher s w)).
Proof.
  cbv zeta. unfold depend. rewrite bind_gets.
  destruct (active (target s)) as [w0|] eqn:Ht; [|by split_and!].
  rewrite addDep_st. cbv zeta.
  case_bool_decide; [by split_and!|].
  case_bool_decide; split_and!; try done; intros w;
    rewrite ?watcher_set_subs, watcher_set_watcher; case_decide; subst; try done.
Qed.

Lemma reads_spec w reads s :
  Inv s -> active (target s) = Some w ->
  let s1 := st (for_each reads depend s) in
  Inv s1 /\ target s1 = target s /\ targetStack s1 = targetStack s /\
  watcher_uid s1 = watcher_uid s /\
  w_deps (watcher s1 w) = w_deps (watcher s w) /\
  w_deep (watcher s1 w) = w_deep (watcher s w) /\
  w_user (watcher s1 w) = w_user (watcher s w) /\
  (forall d, d ∈ w_newDeps (watcher s1 w) <->
             d ∈ w_newDeps (watcher s w) \/ d ∈ reads).
Proof.
  revert s. induction reads as [|d reads IH]; intros s HI Ht.
  - simpl. split_and!; auto. set_solver.
  - cbv zeta. rewrite reads_cons.
    destruct (depend_frame d s) as (F1 & F2 & F3 & F4 & F5 & F6 & F7).
    cbv zeta in *.
    destruct (IH (st (depend d s))) as (I1 & I2 & I3 & I4 & I5 & I6 & I7 & I8).
    { by apply depend_inv. }
    { by rewrite F1. }
    cbv zeta in *.
    split_and!; try congruence.
    intros d'. rewrite I8, elem_of_cons.
    assert (d' ∈ w_newDeps (watcher (st (depend d s)) w) <->
            d' ∈ w_newDeps (watcher s w) \/ d' = d) as ->; [|tauto].
    unfold depend. rewrite bind_gets, Ht, addDep_st. cbv zeta.
    case_bool_decide as Hnew.
    + apply (inv_newDepIds _ HI) in Hnew. split; [tauto|].
      intros [?| ->]; done.
    + case_bool_decide;
        rewrite ?watcher_set_subs, watcher_set_watcher;
        (case_decide; [|done]); simpl;
        rewrite elem_of_app, list_elem_of_singleton; tauto.
Qed.

Lemma evaluation_st w reads s :
  st (evaluation w reads s) =
  st (cleanupDeps w (st (popTarget
        (st (for_each reads depend (st (pushTarget (TWatcher w) s))))))).
Proof.
  unfold evaluation. rewrite run_bind. simpl. rewrite run_bind.
  destruct (reads_ok reads (set_target (TWatcher w) (targetStack s ++ [TWatcher w]) s))
    as [-> _].
  simpl. by rewrite run_bind.
Qed.

Lemma evaluation_spec w reads s :
  reachable s -> w <= watcher_uid s -> w_newDeps (watcher s w) = [] ->
  let s' := st (evaluation w reads s) in
  reachable s' /\
  (forall d, NoDup (subs_of s' d)) /\
  NoDup (w_deps (watcher s' w)) /\
  (forall d, d ∈ w_deps (watcher s' w) <-> d ∈ reads) /\
  (forall d, d ∈ w_deps (watcher s w) -> d ∉ reads -> w ∉ subs_of s' d) /\
  targetStack s' = targetStack s.
Proof.
  intros Hs Hw Hidle. cbv zeta. rewrite evaluation_st.
  set (s1 := st (pushTarget (TWatcher w) s)).
  assert (reachable s1) as Hs1.
  { constructor; [done|]. by intros ? [= ->]. }
  pose proof (reachable_inv _ Hs1) as HI1.
  destruct (reads_spec w reads s1 HI1 eq_refl)
    as (I1 & I2 & I3 & I4 & I5 & I6 & I7 & I8).
  set (s2 := st (for_each reads depend s1)) in *.
  assert (reachable s2) as Hs2.
  { subst s2. apply reach_for_each; [|done]. intros d. apply reach_depend_. }
  set (s3 := st (popTarget s2)).
  assert (reachable s3) as Hs3 by by constructor.
  destruct (cleanup_reachable s3 w Hs3) as (R1 & R2 & R3 & R4 & R5 & R6 & R7).
  cbv zeta in *.
  assert (watcher s3 w = watcher s2 w) as E3 by done.
  rewrite E3 in *.
  assert (forall d, d ∈ w_newDeps (watcher s2 w) <-> d ∈ reads) as Hreads.
  { intros d. rewrite I8. subst s1. simpl.
    change (watcher (set_target _ _ s) w) with (watcher s w).
    rewrite Hidle. set_solver. }
  split_and!; auto.
  - intros d. by rewrite R5.
  - intros d Hd Hn. apply R7.
    + rewrite I5. done.
    + by rewrite Hreads.
  - rewrite cleanupDeps_st. cbv zeta. simpl.
    destruct (cleanup_loop_spec w (w_newDepIds (watcher s3 w))
                (rev (w_deps (watcher s3 w))) s3 (reachable_inv _ Hs3))
      as (_ & _ & _ & _ & -> & _).
    subst s3. simpl. rewrite I3. subst s1. simpl.
    by rewrite removelast_last.
Qed.

End DepFacts.

Module WatcherFacts.
Import Reactive ReactiveSpec ReactiveFacts DepFacts.
#[local] Open Scope list_scope.

#[local] Arguments bind : simpl never.
#[local] Arguments gets : simpl never.
#[local] Arguments ret : simpl never.
#[local] Arguments modify : simpl never.

Lemma cleanupDeps_ok w s :
  out (cleanupDeps w s) = Ok tt /\ evs (cleanupDeps w s) = [].
Proof.
  unfold cleanupDeps. rewrite bind_gets, run_bind.
  destruct (cleanup_loop_ok w (w_newDepIds (watcher s w))
              (rev (w_deps (watcher s w))) s) as [-> ->].
  done.
Qed.

(** The block [finally] of [get] once the traversal is over. *)
Lemma pop_and_cleanup w s :
  (popTarget ;; cleanupDeps w) s =
  mkRes (Ok tt) (st (cleanupDeps w (st (popTarget s)))) [].
Proof.
  rewrite run_bind. simpl.
  destruct (cleanupDeps_ok w (st (popTarget s))) as [Ho He].
  simpl in *. by rewrite Ho, He.
Qed.

Lemma traverse_undefined E n s :
  traverse E n VUndefined s = mkRes (Ok tt) (set_seenObjects ∅ s) [].
Proof. unfold traverse. by destruct n. Qed.

Lemma cleanupDeps_stack w s :
  targetStack (st (cleanupDeps w s)) = targetStack s /\
  target (st (cleanupDeps w s)) = target s.
Proof.
  rewrite cleanupDeps_st. cbv zeta. simpl.
  generalize (rev (w_deps (watcher s w))) as l.
  generalize (w_newDepIds (watcher s w)) as ids.
  intros ids l. revert s. induction l as [|d l IH]; intros s; [done|].
  rewrite cleanup_loop_cons. case_bool_decide; [apply IH|].
  destruct (IH (st (removeSub d w s))) as [-> ->]. done.
Qed.

Lemma get_unfold E n w s :
  get E n w s =
  try_finally
    (try_catch (call_user E (w_getter (watcher s w)) (w_vm (watcher s w))
                          [w_vm (watcher s w)])
               (on_error w (w_vm (watcher s w))))
    (finalizer E n w)
    (st (pushTarget (TWatcher w) s)).
Proof. unfold get, pushTarget. by rewrite bind_modify, bind_gets. Qed.

Lemma on_error_run w vm e s :
  on_error w vm e s =
  if w_user (watcher s w)
  then mkRes (Ok VUndefined) s
             [EvHandleError e vm (GetterFor (w_expression (watcher s w)))]
  else mkRes (Throw e) s [].
Proof. unfold on_error. rewrite bind_gets. by destruct (w_user _). Qed.

Lemma finalizer_run E n w value s :
  finalizer E n w value s =
  let rt := when (w_deep (watcher s w)) (traverse E n value) s in
  match out rt with
  | Ok _ => mkRes (Ok tt) (st (cleanupDeps w (st (popTarget (st rt))))) []
  | Throw e => mkRes (Throw e) (st rt) []
  | Diverge => mkRes Diverge (st rt) []
  end.
Proof.
  unfold finalizer. rewrite bind_gets, run_bind. cbv zeta.
  assert (evs (when (w_deep (watcher s w)) (traverse E n value) s) = []) as ->.
  { apply silent_nil. apply emits_when, emits_traverse. }
  destruct (out _); try done.
  by rewrite pop_and_cleanup.
Qed.


End WatcherFacts.

Module SetterFacts.
Import Reactive ReactiveSpec ReactiveFacts DepFacts WatcherFacts.
#[local] Open Scope list_scope.

#[local] Arguments bind : simpl never.
#[local] Arguments gets : simpl never.
#[local] Arguments ret : simpl never.
#[local] Arguments modify : simpl never.

(** The steps of [reactiveSetter]. *)

Lemma reactiveSetter_unfold E n c newVal s :
  reactiveSetter E n c newVal s =
  let C := cell s c in
  (let* value := current E n C in
   if unchanged newVal value then ret tt
   else
     custom E C ;;
     if getter_only C then ret tt
     else
       store E n c C newVal ;;
       let* childOb := child E n C newVal in
       modify (fun s => set_cell c (with_childOb childOb (cell s c)) s) ;;
       notify E n (c_dep C)) s.
Proof.
  unfold reactiveSetter, reactiveSetter_with. by rewrite bind_gets.
Qed.

Lemma current_silent E n C : Silent (current E n C).
Proof. unfold current, Silent. emits. Qed.
Lemma custom_silent E C : Silent (custom E C).
Proof. unfold custom, Silent. emits. Qed.
Lemma child_silent E n C v : Silent (child E n C v).
Proof. unfold child, Silent. emits. Qed.

Lemma cell_set_cell c C s c' :
  cell (set_cell c C s) c' = if decide (c = c') then C else cell s c'.
Proof.
  unfold cell, set_cell. simpl. rewrite lookup_insert. by case_decide.
Qed.

Lemma filter_absent (l : list nat) w :
  w ∉ l -> filter (fun x => x = w) l = [].
Proof.
  induction l as [|x l IH]; [done|]. intros Hw.
  rewrite filter_cons, decide_False by set_solver. apply IH. set_solver.
Qed.

Lemma count_updates (l snap subs : list nat) w :
  l = snap -> snap ≡ₚ subs -> NoDup subs -> w ∈ subs ->
  length (filter (fun x => x = w) l) = 1.
Proof.
  intros -> Hp Hnd Hw. rewrite Hp. clear Hp.
  induction Hnd as [|x subs Hx Hnd IH]; [by apply elem_of_nil in Hw|].
  rewrite filter_cons. apply elem_of_cons in Hw as [->|Hw].
  - rewrite decide_True by done. simpl. by rewrite filter_absent.
  - rewrite decide_False.
    + by apply IH.
    + intros ->. by apply Hx.
Qed.

Lemma snapshot_perm E s d : snapshot E s d ≡ₚ subs_of s d.
Proof.
  unfold snapshot. destruct (_ && _); [|done]. apply merge_sort_Permutation.
Qed.

Lemma write_then_notify E n c C newVal s :
  (custom E C ;;
   store E n c C newVal ;;
   let* childOb := child E n C newVal in
   modify (fun s => set_cell c (with_childOb childOb (cell s c)) s) ;;
   notify E n (c_dep C)) s =
  (write_back E n c C newVal ;; notify E n (c_dep C)) s.
Proof.
  unfold write_back. rewrite ?run_bind.
  destruct (custom E C s) as [[[]|e|] s1 ev1]; cbn [out st evs]; try done.
  rewrite ?run_bind.
  destruct (store E n c C newVal s1) as [[[]|e|] s2 ev2]; cbn [out st evs];
    try done.
  rewrite ?run_bind.
  destruct (child E n C newVal s2) as [[ob|e|] s3 ev3]; cbn [out st evs];
    try done.
  rewrite ?bind_modify, ?run_bind. unfold modify. cbn [out st evs].
  destruct (out (notify _ _ _ _)); by rewrite ?app_nil_r, ?app_assoc.
Qed.


End SetterFacts.

Module InstallFacts.
Import Reactive ReactiveSpec ReactiveFacts DepFacts WatcherFacts SetterFacts.
#[local] Open Scope list_scope.

#[local] Arguments bind : simpl never.
#[local] Arguments gets : simpl never.
#[local] Arguments ret : simpl never.
#[local] Arguments modify : simpl never.

Lemma assoc_replace k p l old :
  assoc k l = Some old -> assoc k (replace k p l) = Some p.
Proof.
  induction l as [|[k' p'] l IH]; simpl; [done|].
  destruct (String.eqb_spec k k') as [->|Hne].
  - intros _. simpl. by rewrite String.eqb_refl.
  - intros H. simpl. destruct (String.eqb_spec k k'); [done|]. by apply IH.
Qed.

Lemma own_put_own o k p g0 s0 e0 c0 :
  own o k = Some (PAccessor g0 s0 e0 c0) ->
  own (put_own k p o) k = Some p.
Proof.
  destruct o as [kind props elems proto ext fr vn vue ob ic].
  unfold own, put_own, isArray. cbn [o_kind o_props o_elems].
  destruct kind; cbn [with_props o_kind o_props o_elems];
    try (intros Hown; rewrite Hown; cbn [with_props o_kind o_props o_elems];
         by eapply assoc_replace).
  destruct (array_index k) as [i|] eqn:Hi.
  - intros Hown. cbn [with_props o_kind o_props o_elems]. rewrite ?Hi.
    unfold put_slot.
    destruct (elems !! i) as [slot|] eqn:Hl; [|done].
    apply lookup_lt_Some in Hl as Hlt.
    apply Nat.ltb_lt in Hlt as Hlt'. rewrite Hlt'.
    by rewrite list_lookup_insert_eq.
  - destruct (String.eqb k "length") eqn:Hk; [done|].
    intros Hown. rewrite Hown. cbn [with_props o_kind o_props o_elems].
    rewrite ?Hi, ?Hk. by eapply assoc_replace.
Qed.

Lemma bind_ret_r (m : M unit) s : (m ;; ret tt) s = m s.
Proof.
  rewrite run_bind. destruct (m s) as [[[]|e|] s' ev]; cbn [out st evs];
    by rewrite ?app_nil_r.
Qed.

Lemma depend_cells d s : cells (st (depend d s)) = cells s.
Proof.
  unfold depend. rewrite bind_gets. destruct (active (target s)); [|done].
  rewrite addDep_st. cbv zeta. by repeat case_bool_decide.
Qed.

Lemma bind_out_ok {A B} (m : M A) (k : A -> M B) s b :
  out (bind m k s) = Ok b ->
  exists a, out (m s) = Ok a /\ out (k a (st (m s))) = Ok b.
Proof.
  rewrite run_bind. destruct (out (m s)) as [a| |]; try done.
  intros H. by exists a.
Qed.

Lemma observe_undefined E n b s :
  observe E n VUndefined b s = mkRes (Ok None) s [].
Proof. by destruct n. Qed.

Lemma obj_set_obj l o s l' :
  obj (set_obj l o s) l' = if decide (l = l') then o else obj s l'.
Proof. unfold obj, set_obj. simpl. rewrite lookup_insert. by case_decide. Qed.



End InstallFacts.

(** * The parser *)

Module HtmlFacts.
Import HtmlParser HtmlSpec.
#[local] Open Scope list_scope.

(** *** Strings *)

Lemma drop_length n s : String.length (drop n s) = String.length s - n.
Proof.
  revert s; induction n as [|n IH]; intros [|c s]; simpl; auto.
Qed.

Lemma drop_drop a b s : drop b (drop a s) = drop (a + b) s.
Proof.
  revert s; induction a as [|a IH]; intros s; simpl; auto.
  destruct s; simpl; auto. destruct b; auto.
Qed.

Lemma drop_all n s : String.length s <= n -> drop n s = "".
Proof.
  revert s; induction n as [|n IH]; intros [|c s]; simpl; auto; try lia.
  intros; apply IH; lia.
Qed.

Lemma take_length n s : String.length (take n s) = Nat.min n (String.length s).
Proof.
  revert s; induction n as [|n IH]; intros [|c s]; simpl; auto.
Qed.

Lemma suffix_refl s : suffix_of s s.
Proof. now exists 0. Qed.

Lemma suffix_drop n s : suffix_of (drop n s) s.
Proof. now exists n. Qed.

Lemma suffix_trans a b c : suffix_of a b -> suffix_of b c -> suffix_of a c.
Proof.
  intros [i ->] [j ->]. exists (j + i). apply drop_drop.
Qed.

Lemma suffix_length s' s : suffix_of s' s -> String.length s' <= String.length s.
Proof. intros [k ->]. rewrite drop_length. lia. Qed.

Lemma suffix_neq s' s :
  suffix_of s' s -> s' <> s -> String.length s' < String.length s.
Proof.
  intros [k ->] Hne. rewrite drop_length.
  destruct k as [|k]; [now destruct Hne|].
  destruct s as [|c s]; [now destruct Hne|]. simpl; lia.
Qed.

Lemma drop_shorter n s :
  truthy s = true -> 1 <= n -> String.length (drop n s) < String.length s.
Proof.
  intros Hs Hn. rewrite drop_length. destruct s; [discriminate|]. simpl; lia.
Qed.

Lemma prefix_length p s :
  String.prefix p s = true -> String.length p <= String.length s.
Proof.
  revert s; induction p as [|a p IH]; intros [|b s]; simpl; try lia;
    try discriminate.
  case_match; [|intros; discriminate].
  intros Hp; apply IH in Hp; lia.
Qed.

Lemma indexOf_bound pat s n :
  indexOf pat s = Some n -> n + String.length pat <= String.length s.
Proof.
  revert n; induction s as [|c s IH]; intros n; cbn [indexOf].
  - destruct (String.prefix pat "") eqn:E; [|intros; discriminate].
    intros [= <-]. apply prefix_length in E. simpl in *; lia.
  - destruct (String.prefix pat (String c s)) eqn:E.
    + intros [= <-]. apply prefix_length in E. simpl in *; lia.
    + destruct (indexOf pat s) as [m|]; [|intros; discriminate].
      intros [= <-]. specialize (IH m eq_refl). simpl; lia.
Qed.

Lemma indexOf_from_1_bound s n :
  indexOf_from_1 "<" s = Some n -> 1 <= n < String.length s.
Proof.
  destruct s as [|c s]; simpl; [intros; discriminate|].
  destruct (indexOf "<" s) as [m|] eqn:E; [|intros; discriminate].
  intros [= <-]. apply indexOf_bound in E. simpl in E. lia.
Qed.

Lemma append_length a b :
  String.length (a ++ b)%string = String.length a + String.length b.
Proof. induction a; simpl; auto. Qed.

(** *** The lengths of the matches *)

Lemma with_value_length lead name rest :
  String.length name <= a_len (with_value lead name rest).
Proof.
  unfold with_value. destruct (attr_value rest) as [[[[n d] q] b]|]; simpl; lia.
Qed.

Lemma attribute_length s a : attribute s = Some a -> 1 <= a_len a.
Proof.
  unfold attribute. destruct (span is_space s) as [ws r].
  destruct (span attr_name_char r) as [name rest].
  destruct name as [|c name]; [intros; discriminate|].
  intros [= <-].
  pose proof (with_value_length (String.length ws) (String c name) rest) as H.
  simpl in H. lia.
Qed.

Lemma dynamicArgAttribute_length s a :
  dynamicArgAttribute s = Some a -> 1 <= a_len a.
Proof.
  unfold dynamicArgAttribute. destruct (span is_space s) as [ws r].
  destruct (dynamic_prefix r) as [[pre r1]|]; [|intros; discriminate].
  destruct r1 as [|c r2]; [intros; discriminate|].
  destruct (ch_is "[" c); [|intros; discriminate].
  destruct (span (ch_isnt "=") r2) as [run x].
  destruct (last_bracket run) as [j|]; [|intros; discriminate].
  destruct (span attr_name_char (drop (S j) r2)) as [tail rest].
  intros [= <-].
  match goal with
  | |- 1 <= a_len (with_value ?l ?n ?r) =>
    pose proof (with_value_length l n r) as H;
    assert (1 <= String.length n)
  end; [|lia].
  rewrite !append_length. simpl. lia.
Qed.

Lemma startTagOpen_length u s n t :
  startTagOpen u s = Some (n, t) -> 1 <= n /\ truthy s = true.
Proof.
  destruct s as [|c s]; simpl; [intros; discriminate|].
  destruct (ch_is "<" c); [|intros; discriminate].
  destruct (qname u s) as [[name x]|]; [|intros; discriminate].
  intros [= <- <-]. split; [lia|reflexivity].
Qed.

Lemma endTag_length u s n t : endTag u s = Some (n, t) -> 1 <= n.
Proof.
  unfold endTag. destruct (strip false "</" s); [|intros; discriminate].
  destruct (qname u _) as [[name x]|]; [|intros; discriminate].
  destruct (span _ x) as [junk y]. destruct y; [intros; discriminate|].
  intros [= <- <-]. lia.
Qed.

Lemma doctype_length s n : doctype s = Some n -> 1 <= n.
Proof.
  unfold doctype. destruct (strip true _ s); [|intros; discriminate].
  destruct (span _ _) as [body y].
  destruct body; [intros; discriminate|].
  destruct y; [intros; discriminate|].
  intros [= <-]. lia.
Qed.

(** *** What the parser leaves of [html] *)

Section Progress.
Context (unicodeLetter : ascii -> bool) (production : bool).
Context (isNonPhrasingTag : string -> bool) (options : Options).

#[local] Abbreviation parseEndTag := (parseEndTag production options).
#[local] Abbreviation handleStartTag :=
  (handleStartTag production isNonPhrasingTag options).
#[local] Abbreviation parseStartTag := (parseStartTag unicodeLetter).
#[local] Abbreviation tags := (tags unicodeLetter production isNonPhrasingTag options).
#[local] Abbreviation text_branch := (text_branch unicodeLetter options).
#[local] Abbreviation plaintext := (plaintext production options).
#[local] Abbreviation pass := (pass unicodeLetter production isNonPhrasingTag options).
#[local] Abbreviation loop := (loop unicodeLetter production isNonPhrasingTag options).
#[local] Abbreviation no_progress := (no_progress production options).
#[local] Abbreviation diagnosis := (diagnosis production options).

Lemma emit_if_input b e p : same_input (emit_if b e p) p.
Proof. now destruct b. Qed.

Lemma emit_if_stack b e p : same_stack (emit_if b e p) p.
Proof. now destruct b. Qed.

Lemma same_input_trans a b c :
  same_input a b -> same_input b c -> same_input a c.
Proof. intros [? ?] [? ?]; split; congruence. Qed.

Lemma same_stack_trans a b c :
  same_stack a b -> same_stack b c -> same_stack a c.
Proof. intros [? ?] [? ?]; split; congruence. Qed.

Lemma close_entry_input named s e pos i x p :
  same_input (close_entry production options named s e pos i x p) p.
Proof.
  unfold close_entry.
  eapply same_input_trans; apply emit_if_input.
Qed.

Lemma close_entry_stack named s e pos i x p :
  same_stack (close_entry production options named s e pos i x p) p.
Proof.
  unfold close_entry.
  eapply same_stack_trans; apply emit_if_stack.
Qed.

Lemma close_loop_input named s e st pos k p :
  same_input (close_loop production options named s e st pos k p) p.
Proof.
  revert p; induction k as [|i IH]; intros p; simpl; [now split|].
  destruct (Nat.ltb i pos); [now split|].
  destruct (st !! i); [|now split].
  eapply same_input_trans; [apply IH|apply close_entry_input].
Qed.

Lemma close_loop_stack named s e st pos k p :
  same_stack (close_loop production options named s e st pos k p) p.
Proof.
  revert p; induction k as [|i IH]; intros p; simpl; [now split|].
  destruct (Nat.ltb i pos); [now split|].
  destruct (st !! i); [|now split].
  eapply same_stack_trans; [apply IH|apply close_entry_stack].
Qed.

Lemma parseEndTag_input t s e p : same_input (parseEndTag t s e p) p.
Proof.
  unfold HtmlParser.parseEndTag.
  destruct (if truthy _ then _ else _) as [pos|].
  - cbn [html index]. apply close_loop_input.
  - repeat case_match; try (now split);
      repeat (eapply same_input_trans; [apply emit_if_input|]);
      now split.
Qed.

Lemma handleStartTag_input m p : same_input (handleStartTag m p) p.
Proof.
  unfold HtmlParser.handleStartTag.
  eapply same_input_trans; [apply emit_if_input|].
  set (q := if expectHTML options then _ else p).
  assert (Hq : same_input q p).
  { subst q. destruct (expectHTML options); [|now split].
    set (q1 := if lastTag_is "p" p && _ then _ else p).
    assert (H1 : same_input q1 p).
    { subst q1. case_match; [apply parseEndTag_input|now split]. }
    case_match; [|exact H1].
    eapply same_input_trans; [apply parseEndTag_input|exact H1]. }
  destruct (_ || _); [exact Hq|].
  destruct Hq as [Hh Hi]. split; assumption.
Qed.

Lemma advance_suffix n p : suffix_of (html (advance n p)) (html p).
Proof. apply suffix_drop. Qed.

Lemma attrs_loop_total fuel p acc :
  String.length (html p) <= fuel ->
  exists p' acc' e,
    attrs_loop fuel p acc = Some (p', acc', e)
    /\ suffix_of (html p') (html p).
Proof.
  revert p acc; induction fuel as [|fuel IH]; intros p acc Hlen.
  - assert (Hp : html p = "") by (destruct (html p); simpl in *; [auto|lia]).
    eexists _, _, _.
    unfold attrs_loop. rewrite Hp. simpl. split; [reflexivity|].
    rewrite Hp; apply suffix_refl.
  - cbn [attrs_loop].
    destruct (startTagClose (html p)) as [e|];
      [eexists _, _, _; split; [reflexivity|apply suffix_refl]|].
    set (attr := match dynamicArgAttribute (html p) with
                 | Some a => Some a | None => attribute (html p) end).
    destruct attr as [a|] eqn:Ha;
      [|eexists _, _, _; split; [reflexivity|apply suffix_refl]].
    assert (Hn : 1 <= a_len a).
    { subst attr. destruct (dynamicArgAttribute (html p)) eqn:Hd.
      - injection Ha as <-. eapply dynamicArgAttribute_length; eauto.
      - eapply attribute_length; eauto. }
    assert (Ht : truthy (html p) = true).
    { subst attr. destruct (html p); [discriminate Ha|reflexivity]. }
    destruct (IH (advance (a_len a) p)
                (acc ++ [(a, index p, index (advance (a_len a) p))]))
      as (p' & acc' & e & Heq & Hs).
    { pose proof (drop_shorter (a_len a) (html p) Ht Hn). simpl. lia. }
    eexists _, _, _; split; [exact Heq|].
    eapply suffix_trans; [exact Hs|apply advance_suffix].
Qed.

Lemma parseStartTag_total p :
  exists p' m,
    parseStartTag p = Some (p', m)
    /\ suffix_of (html p') (html p)
    /\ (is_Some m -> String.length (html p') < String.length (html p)).
Proof.
  unfold HtmlParser.parseStartTag.
  destruct (startTagOpen unicodeLetter (html p)) as [[n t]|] eqn:Ho.
  - apply startTagOpen_length in Ho as [Hn Ht].
    destruct (attrs_loop_total (String.length (html (advance n p)))
                (advance n p) []) as (p' & acc & e & -> & Hs);
      [lia|].
    pose proof (drop_shorter n (html p) Ht Hn) as Hlt.
    assert (Hs' : suffix_of (html p') (html p))
      by (eapply suffix_trans; [exact Hs|apply advance_suffix]).
    apply suffix_length in Hs. simpl in Hs.
    destruct e as [[len slash]|].
    + eexists _, _; split; [reflexivity|]. split.
      * eapply suffix_trans; [apply advance_suffix|exact Hs'].
      * intros _. pose proof (suffix_length _ _ (advance_suffix len p')).
        lia.
    + eexists _, _; split; [reflexivity|]. split; [exact Hs'|].
      intros [? [=]].
  - eexists _, _; split; [reflexivity|]. split; [apply suffix_refl|].
    intros [? [=]].
Qed.

Lemma text_loop_total fuel h t :
  String.length h - t <= fuel -> is_Some (text_loop unicodeLetter fuel h t).
Proof.
  revert t; induction fuel as [|fuel IH]; intros t Hlen; cbn [text_loop].
  - destruct (stop _ _); [eauto|].
    destruct (indexOf_from_1 _ _) as [next|] eqn:Hn; [|eauto].
    apply indexOf_from_1_bound in Hn. rewrite drop_length in Hn. lia.
  - destruct (stop _ _); [eauto|].
    destruct (indexOf_from_1 _ _) as [next|] eqn:Hn; [|eauto].
    apply indexOf_from_1_bound in Hn. rewrite drop_length in Hn.
    apply IH. lia.
Qed.

Lemma text_branch_total te p :
  exists p', text_branch te p = Some p'
             /\ suffix_of (html p') (html p).
Proof.
  unfold HtmlParser.text_branch.
  set (text := match te with Some t => _ | None => Some (html p) end).
  assert (Ht : is_Some text).
  { subst text. destruct te as [t|]; [|eauto].
    destruct (text_loop_total (String.length (html p)) (html p) t)
      as [t' ->]; [lia|eauto]. }
  destruct Ht as [txt ->].
  eexists; split; [reflexivity|].
  destruct (emit_if_input (has_chars options && truthy txt)
    (Chars txt
       (Some (index (if truthy txt then advance (String.length txt) p else p)
              - String.length txt,
              index (if truthy txt then advance (String.length txt) p else p))))
    (if truthy txt then advance (String.length txt) p else p)) as [-> _].
  destruct (truthy txt); [apply advance_suffix|apply suffix_refl].
Qed.

Lemma tags_total p :
  truthy (html p) = true -> exists f, tags p = Some f /\ advances p f.
Proof.
  intros Ht. unfold HtmlParser.tags.
  destruct (if comment (html p) then _ else _) as [commentEnd|].
  { eexists; split; [reflexivity|]. simpl.
    destruct (emit_if_input (shouldKeepComment options)
      (Comment (substring 4 commentEnd (html p)) (index p)
         (index p + commentEnd + 3)) p) as [-> _].
    apply drop_shorter; [exact Ht|lia]. }
  destruct (if conditionalComment (html p) then _ else _)
    as [conditionalEnd|].
  { eexists; split; [reflexivity|]. simpl.
    apply drop_shorter; [exact Ht|lia]. }
  destruct (doctype (html p)) as [n|] eqn:Hd.
  { eexists; split; [reflexivity|]. simpl.
    apply drop_shorter; [exact Ht|]. eapply doctype_length; eauto. }
  destruct (endTag unicodeLetter (html p)) as [[n name]|] eqn:He.
  { eexists; split; [reflexivity|]. cbn [advances].
    destruct (parseEndTag_input (Some name) (Some (index p))
      (Some (index (advance n p))) (advance n p)) as [-> _].
    apply drop_shorter; [exact Ht|]. eapply endTag_length; eauto. }
  destruct (parseStartTag_total p) as (p' & m & -> & Hs & Hlt).
  destruct m as [m|]; [|eexists; split; [reflexivity|exact Hs]].
  eexists; split; [reflexivity|]. cbn [advances].
  specialize (Hlt (ltac:(eauto))).
  destruct (handleStartTag_input m p') as [Hh _].
  destruct (shouldIgnoreFirstNewline _ _).
  - pose proof (suffix_length _ _ (advance_suffix 1 (handleStartTag m p'))).
    rewrite Hh in *. lia.
  - rewrite Hh. exact Hlt.
Qed.

Lemma plaintext_suffix p : suffix_of (html (plaintext p)) (html p).
Proof.
  unfold HtmlParser.plaintext.
  destruct (reStackedTag _ _) as [[n m]|].
  - match goal with
    | |- suffix_of (html (HtmlParser.parseEndTag _ _ ?t ?s ?e ?q)) _ =>
      destruct (parseEndTag_input t s e q) as [-> _]
    end.
    apply suffix_drop.
  - match goal with
    | |- suffix_of (html (HtmlParser.parseEndTag _ _ ?t ?s ?e ?q)) _ =>
      destruct (parseEndTag_input t s e q) as [-> _]
    end.
    apply suffix_refl.
Qed.

Lemma pass_total p :
  truthy (html p) = true -> exists f, pass p = Some f /\ advances p f.
Proof.
  intros Ht. unfold HtmlParser.pass.
  destruct (negb (in_plaintext p));
    [|eexists; split; [reflexivity|apply plaintext_suffix]].
  set (flow := match indexOf "<" (html p) with
               | Some 0 => tags p | _ => Some (Fallthrough p) end).
  assert (Hf : exists f, flow = Some f /\ advances p f).
  { subst flow. destruct (indexOf "<" (html p)) as [[|n]|];
      try (eexists; split; [reflexivity|apply suffix_refl]).
    apply tags_total, Ht. }
  destruct Hf as (f & -> & Hf).
  destruct f as [p'|p']; [eexists; split; [reflexivity|exact Hf]|].
  destruct (text_branch_total (indexOf "<" (html p)) p') as (p'' & -> & Hs).
  eexists; split; [reflexivity|].
  eapply suffix_trans; [exact Hs|exact Hf].
Qed.

Lemma loop_total fuel p :
  String.length (html p) <= fuel -> is_Some (loop fuel p).
Proof.
  revert p; induction fuel as [|fuel IH]; intros p Hlen.
  - destruct (html p) eqn:Hp; simpl in Hlen; [|lia].
    simpl. rewrite Hp. simpl. eauto.
  - cbn [HtmlParser.loop].
    destruct (truthy (html p)) eqn:Ht; [|eauto].
    destruct (pass_total p Ht) as (f & -> & Hf).
    destruct f as [p'|p']; cbn [advances] in Hf.
    + apply IH; lia.
    + destruct (String.eqb (html p') (html p)) eqn:He; [eauto|].
      apply String.eqb_neq in He.
      apply IH. pose proof (suffix_neq _ _ Hf He). lia.
Qed.

Lemma parseHTML_total h :
  is_Some (parseHTML unicodeLetter production isNonPhrasingTag options h).
Proof.
  unfold parseHTML.
  destruct (loop_total (String.length h) (start_state h)) as [p ->];
    [simpl; lia|eauto].
Qed.

Lemma no_progress_events p :
  events (no_progress p) = events p ++ diagnosis p.
Proof.
  unfold HtmlParser.no_progress, HtmlSpec.diagnosis, emit_if, emit.
  destruct (has_chars options),
    (negb production && Nat.eqb (length (stack p)) 0 && has_warn options);
    cbn; rewrite ?app_nil_r, <- ?app_assoc; auto.
Qed.

Lemma no_progress_input p :
  same_input (no_progress p) p /\ same_stack (no_progress p) p.
Proof.
  unfold HtmlParser.no_progress. split.
  - eapply same_input_trans; apply emit_if_input.
  - eapply same_stack_trans; apply emit_if_stack.
Qed.

(** C5 (amended): [parseHTML] returns on every input.  A turn of
    the loop that ends with [continue] leaves less of [html] than
    it found, and so does one that goes on to the test
    [html === last] with [html] changed; the loop then goes on with
    what is left.  A turn that leaves [html] as it found it ends
    the loop: what is left is passed to [chars], when that callback
    is given, and reported as a mal-formatted tag when, outside
    production, the stack of open elements is empty and the
    callback [warn] is given. *)
Theorem no_progress_stops :
  (forall h,
      is_Some (parseHTML unicodeLetter production isNonPhrasingTag options h))
  /\ (forall fuel p,
        truthy (html p) = true ->
        exists f,
          pass p = Some f
          /\ match f with
             | Continue p' =>
               String.length (html p') < String.length (html p)
               /\ loop (S fuel) p = loop fuel p'
             | Fallthrough p' =>
               if String.eqb (html p') (html p) then
                 exists q,
                   loop (S fuel) p = Some q
                   /\ html q = html p /\ index q = index p'
                   /\ stack q = stack p' /\ lastTag q = lastTag p'
                   /\ events q = events p' ++ diagnosis p'
               else
                 String.length (html p') < String.length (html p)
                 /\ loop (S fuel) p = loop fuel p'
             end).
Proof.
  split; [apply parseHTML_total|].
  intros fuel p Ht. destruct (pass_total p Ht) as (f & Hp & Hf).
  exists f. split; [exact Hp|].
  cbn [HtmlParser.loop]. rewrite Ht, Hp.
  destruct f as [p'|p']; cbn [advances] in Hf; [now split|].
  destruct (String.eqb (html p') (html p)) eqn:He.
  - apply String.eqb_eq in He.
    destruct (no_progress_input p') as [[Hh Hi] [Hs Hl]].
    exists (no_progress p'). split_and!; auto; try congruence.
    apply no_progress_events.
  - apply String.eqb_neq in He. split; [|reflexivity].
    now apply suffix_neq.
Qed.

End Progress.

End HtmlFacts.

Module EndTagFacts.
Import HtmlParser HtmlSpec HtmlFacts.
#[local] Open Scope list_scope.

Section EndTag.
Context (production : bool) (options : Options).

#[local] Abbreviation parseEndTag := (parseEndTag production options).
#[local] Abbreviation closing := (closing production options).
#[local] Abbreviation closings := (closings production options).
#[local] Abbreviation bare := (bare options).

Lemma find_pos_some st name k pos :
  find_pos st name k = Some pos ->
  pos < k
  /\ (exists e, st !! pos = Some e /\ lowerCasedTag e = name)
  /\ (forall j e, pos < j < k -> st !! j = Some e -> lowerCasedTag e <> name).
Proof.
  induction k as [|i IH]; simpl; [intros; discriminate|].
  destruct (st !! i) as [e|] eqn:Hi.
  - destruct (String.eqb (lowerCasedTag e) name) eqn:He.
    + intros [= <-]. apply String.eqb_eq in He.
      split; [lia|]. split; [eauto|]. intros; lia.
    + intros H. destruct (IH H) as (Hlt & Hex & Hab).
      split; [lia|]. split; [exact Hex|].
      intros j e' Hj Hj'. destruct (decide (j = i)) as [->|].
      * rewrite Hi in Hj'. injection Hj' as <-.
        now apply String.eqb_neq.
      * apply (Hab j); [lia|exact Hj'].
  - intros H. destruct (IH H) as (Hlt & Hex & Hab).
    split; [lia|]. split; [exact Hex|].
    intros j e' Hj Hj'. destruct (decide (j = i)) as [->|].
    + congruence.
    + apply (Hab j); [lia|exact Hj'].
Qed.

Lemma find_pos_none st name k :
  find_pos st name k = None ->
  forall j e, j < k -> st !! j = Some e -> lowerCasedTag e <> name.
Proof.
  induction k as [|i IH]; simpl; [intros; lia|].
  destruct (st !! i) as [e|] eqn:Hi.
  - destruct (String.eqb (lowerCasedTag e) name) eqn:He;
      [intros; discriminate|].
    intros H j e' Hj Hj'. destruct (decide (j = i)) as [->|].
    + rewrite Hi in Hj'. injection Hj' as <-. now apply String.eqb_neq.
    + apply (IH H j); [lia|exact Hj'].
  - intros H j e' Hj Hj'. destruct (decide (j = i)) as [->|].
    + congruence.
    + apply (IH H j); [lia|exact Hj'].
Qed.

Lemma close_entry_events named s e pos i x p :
  events (close_entry production options named s e pos i x p)
  = events p ++ closing named s e pos i x.
Proof.
  unfold close_entry, HtmlSpec.closing, emit_if, emit.
  destruct (negb production && _ && has_warn options),
    (has_end options); simpl; rewrite ?app_nil_r, <- ?app_assoc; auto.
Qed.

Lemma close_loop_events named s e st pos k p :
  k <= length st ->
  events (close_loop production options named s e st pos k p)
  = events p ++ closings named s e st pos k.
Proof.
  revert p; induction k as [|i IH]; intros p Hk; cbn [close_loop].
  - unfold HtmlSpec.closings. simpl. now rewrite app_nil_r.
  - destruct (Nat.ltb i pos) eqn:Hlt.
    + apply Nat.ltb_lt in Hlt. unfold HtmlSpec.closings.
      replace (S i - pos) with 0 by lia. simpl. now rewrite app_nil_r.
    + apply Nat.ltb_ge in Hlt.
      destruct (lookup_lt_is_Some_2 st i) as [x Hx]; [lia|].
      rewrite Hx, IH by lia. rewrite close_entry_events.
      unfold HtmlSpec.closings. replace (S i - pos) with (S (i - pos)) by lia.
      rewrite seq_S, rev_app_distr. simpl.
      replace (pos + (i - pos)) with i by lia.
      rewrite Hx. now rewrite <- app_assoc.
Qed.


End EndTag.

End EndTagFacts.

(** * The compiler *)

Module CacheFacts.
Import ToFunction CacheSpec.
#[local] Open Scope list_scope.

Section Cache.
Context {World : Type}.
Context (compile : string -> CompilerOptions -> World ->
                   Outcome CompiledResult * World).
Context (newFunction : string -> Function_ + string).
Context (mentionsCSP : string -> bool) (production : bool).

#[local] Abbreviation compileToFunctions :=
  (compileToFunctions compile newFunction mentionsCSP production).
#[local] Abbreviation after :=
  (after compile newFunction mentionsCSP production).

Lemma extends_refl (s : @State World) : extends s s.
Proof. split; auto. Qed.

Lemma extends_trans (a b c : @State World) : extends a b -> extends b c -> extends a c.
Proof. intros [? ?] [? ?]; split; auto. Qed.

Lemma call_extends template options s :
  extends s (compileToFunctions template options s).1.2.
Proof.
  unfold ToFunction.compileToFunctions.
  destruct (cache s !! key_of options template) as [r|] eqn:Hk;
    [apply extends_refl|].
  destruct (compile _ _ _) as [[compiled|e|] w];
    [|split; auto..].
  destruct (createFunction _ _) as [render e1]. cbn. split.
  - intros k r Hr. cbn [cache]. rewrite lookup_insert_ne; [exact Hr|].
    intros <-. congruence.
  - intros r o Hr. cbn [results]. now apply lookup_app_l_Some.
Qed.

Lemma after_extends calls s : extends s (after calls s).
Proof.
  revert s; induction calls as [|c calls IH]; intros s;
    [apply extends_refl|].
  eapply extends_trans; [apply call_extends|apply IH].
Qed.

Lemma call_sound template options s :
  sound s -> sound (compileToFunctions template options s).1.2.
Proof.
  intros Hs. unfold ToFunction.compileToFunctions.
  destruct (cache s !! key_of options template) as [r|] eqn:Hk; [exact Hs|].
  destruct (compile _ _ _) as [[compiled|e|] w]; try exact Hs.
  destruct (createFunction _ _) as [render e1]. cbn.
  intros k r. cbn [cache results]. rewrite length_app. cbn [length].
  destruct (decide (k = key_of options template)) as [->|Hne].
  - rewrite lookup_insert_eq. intros [= <-]. lia.
  - rewrite lookup_insert_ne by auto. intros Hr. apply Hs in Hr. lia.
Qed.

Lemma after_sound calls s : sound s -> sound (after calls s).
Proof.
  revert s; induction calls as [|c calls IH]; intros s Hs; [exact Hs|].
  apply IH, call_sound, Hs.
Qed.

Lemma hit template options s r :
  cache s !! key_of options template = Some r ->
  exists evs,
    compileToFunctions template options s = (Ok r, s, evs)
    /\ existsb compiles evs = false.
Proof.
  intros Hk. unfold ToFunction.compileToFunctions. rewrite Hk.
  eexists; split; [reflexivity|].
  destruct production; [reflexivity|].
  destruct (newFunction "return 1"); [reflexivity|].
  destruct (mentionsCSP _); reflexivity.
Qed.

Lemma miss template options s :
  cache s !! key_of options template = None ->
  existsb compiles (compileToFunctions template options s).2 = true.
Proof.
  intros Hk. unfold ToFunction.compileToFunctions. rewrite Hk.
  destruct (compile _ _ _) as [[compiled|e|] w];
    try destruct (createFunction _ _) as [render e1]; cbn;
    rewrite existsb_app; cbn; apply orb_true_r.
Qed.

Lemma returned template options s r :
  (compileToFunctions template options s).1.1 = Ok r ->
  cache (compileToFunctions template options s).1.2
    !! key_of options template = Some r.
Proof.
  unfold ToFunction.compileToFunctions.
  destruct (cache s !! key_of options template) as [r'|] eqn:Hk.
  - cbn. now intros [= <-].
  - destruct (compile _ _ _) as [[compiled|e|] w]; try discriminate.
    destruct (createFunction _ _) as [render e1]. cbn.
    intros [= <-]. apply lookup_insert_eq.
Qed.

Lemma created_sound (w : World) : sound (createCompileToFunctionFn w).
Proof. intros k r. cbn. now rewrite lookup_empty. Qed.

Lemma key_of_delimiters template options options' :
  delimiters options' = delimiters options ->
  key_of options' template = key_of options template.
Proof. unfold key_of. now intros ->. Qed.

(** C4: on one closure made by [createCompileToFunctionFn], once a
    call of [compileToFunctions] has returned a result object, a
    later call with the same delimiters and the same template
    returns the same object, which is still what it was, leaves
    the state as it is and does not call [compile]; and a call
    calls [compile] exactly when the cache has nothing for its
    key. *)
Theorem cached_result w before between template options options' r :
  let s := after before (createCompileToFunctionFn w) in
  let first := compileToFunctions template options s in
  let s2 := after between first.1.2 in
  delimiters options' = delimiters options ->
  first.1.1 = Ok r ->
  (exists o, results first.1.2 !! r = Some o /\ results s2 !! r = Some o)
  /\ (exists evs,
         compileToFunctions template options' s2 = (Ok r, s2, evs)
         /\ existsb compiles evs = false)
  /\ (forall t o s0,
         existsb compiles (compileToFunctions t o s0).2 = true
         <-> cache s0 !! key_of o t = None).
Proof.
  intros s first s2 Hd Hr.
  pose proof (returned template options s r Hr) as Hc. fold first in Hc.
  assert (Hs1 : sound first.1.2).
  { apply call_sound, after_sound, created_sound. }
  destruct (after_extends between first.1.2) as [Hcache Hres].
  fold s2 in Hcache, Hres.
  split_and!.
  - destruct (lookup_lt_is_Some_2 (results first.1.2) r) as [o Ho];
      [eapply Hs1, Hc|].
    exists o. split; [exact Ho|apply Hres, Ho].
  - apply hit. rewrite (key_of_delimiters _ _ _ Hd). apply Hcache, Hc.
  - intros t o s0. split.
    + intros He. destruct (cache s0 !! key_of o t) as [r0|] eqn:Hk; [|auto].
      destruct (hit t o s0 r0 Hk) as (evs & Heq & Hn).
      rewrite Heq in He. cbn in He. congruence.
    + apply miss.
Qed.

End Cache.

End CacheFacts.

(** * The statements on examples *)

Module Witnesses.
Import Reactive ReactiveSpec ReactiveFacts DepFacts WatcherFacts SetterFacts InstallFacts Examples.
#[local] Open Scope list_scope.

(** C10, on the observed object [{ a: 1 }] with no watcher under
    evaluation. *)
Lemma read_without_target_witness :
  active (target s_observed) = None
  /\ lookup_prop s_observed 1 "a"
     = Some (PAccessor (Some (GReactive 0)) (Some (SReactive 0)) true true)
  /\ depend 1 s_observed = mkRes (Ok tt) s_observed []
  /\ get_prop quiet_env 6 1 "a" s_observed = mkRes (Ok one) s_observed [].
Proof.
  assert (H1 : active (target s_observed) = None)
    by (vm_compute; reflexivity).
  assert (H2 : lookup_prop s_observed 1 "a"
               = Some (PAccessor (Some (GReactive 0)) (Some (SReactive 0))
                         true true)) by (vm_compute; reflexivity).
  destruct (read_without_target quiet_env 5 0 1 1 "a" _ _ _ s_observed H1 H2)
    as (Hd & Hg & Hv).
  split; [exact H1|]. split; [exact H2|]. split; [exact Hd|].
  rewrite Hg. vm_compute in Hv. vm_compute. exact Hv.
Defined.

(** C2, on a watcher that has read a dep. *)
Lemma reconciliation_witness :
  reachable s_reading
  /\ w_deps (watcher (st (cleanupDeps 1 s_reading)) 1) = [0]
  /\ w_newDeps (watcher (st (cleanupDeps 1 s_reading)) 1) = []
  /\ (forall d, NoDup (subs_of (st (cleanupDeps 1 s_reading)) d)).
Proof.
  assert (H : reachable s_reading).
  { apply reach_depend, reach_pushTarget;
      [apply reach_initWatcher, reach_newDep, reach_init|].
    intros w [= <-]. vm_compute. lia. }
  destruct (reconciliation s_reading 1 H)
    as (_ & R2 & _ & _ & R5 & R6 & _).
  split; [exact H|]. split; [|split; [exact R6|exact R2]].
  rewrite R5. vm_compute. reflexivity.
Defined.








End Witnesses.

Module ParserWitnesses.
Import HtmlParser HtmlSpec HtmlFacts EndTagFacts Examples.
#[local] Open Scope list_scope.

#[local] Abbreviation parse := (parseHTML ascii_only false non_phrasing all_callbacks).
#[local] Abbreviation pass_ := (pass ascii_only false non_phrasing all_callbacks).
#[local] Abbreviation loop_ := (loop ascii_only false non_phrasing all_callbacks).

(** C5 (amended), on the parser after [<div>] with [<] left. *)
Lemma no_progress_stops_witness :
  truthy (html p_open) = true
  /\ pass_ p_open = Some (Fallthrough p_open)
  /\ exists q,
       loop_ 1 p_open = Some q
       /\ events q = events p_open ++ [Chars "<" None].
Proof.
  assert (Ht : truthy (html p_open) = true) by reflexivity.
  assert (Hc : pass_ p_open = Some (Fallthrough p_open))
    by (vm_compute; reflexivity).
  destruct (proj2 (no_progress_stops ascii_only false non_phrasing
                     all_callbacks) 0 p_open Ht) as (f & Hp & Hf).
  rewrite Hc in Hp. injection Hp as <-.
  destruct Hf as (q & Hl & _ & _ & _ & _ & He).
  split; [exact Ht|]. split; [exact Hc|].
  exists q. split; [exact Hl|exact He].
Defined.

(** C5: after [<div>], the turn of the loop that finds [<] leaves it
    as it is; the loop ends, [<] is passed to [chars], and no call
    reports a mal-formatted tag. *)
Lemma no_progress_undiagnosed :
  has_chars all_callbacks = true /\ has_warn all_callbacks = true
  /\ pass_ (start_state "<div><") = Some (Continue p_open)
  /\ pass_ p_open = Some (Fallthrough p_open)
  /\ loop_ 1 p_open = Some (emit (Chars "<" None) p_open)
  /\ parse "<div><"
     = Some [Start "div" [] false 0 5; Chars "<" None;
             Warn "tag <div> has no matching end tag." (Some 0) (Some 5);
             End_ "div" 5 5]
  /\ existsb malformed
       [Start "div" [] false 0 5; Chars "<" None;
        Warn "tag <div> has no matching end tag." (Some 0) (Some 5);
        End_ "div" 5 5] = false.
Proof. vm_compute. repeat split. Qed.


End ParserWitnesses.

Module CacheWitnesses.
Import ToFunction CacheSpec CacheFacts Examples.
#[local] Open Scope list_scope.

#[local] Abbreviation call := (compileToFunctions compile_text new_function
                    (fun _ => false) false).
#[local] Abbreviation after_ := (after compile_text new_function (fun _ => false) false).

(** C4, on the templates [a], [b] and [a] again. *)
Lemma cached_result_witness :
  delimiters no_delimiters = delimiters no_delimiters
  /\ (call "a" no_delimiters
        (after_ [] (createCompileToFunctionFn tt))).1.1 = Ok 0
  /\ exists evs,
       call "a" no_delimiters
         (after_ [("b", no_delimiters)]
            (call "a" no_delimiters
               (after_ [] (createCompileToFunctionFn tt))).1.2)
       = (Ok 0,
          after_ [("b", no_delimiters)]
            (call "a" no_delimiters
               (after_ [] (createCompileToFunctionFn tt))).1.2,
          evs)
       /\ existsb compiles evs = false.
Proof.
  assert (H1 : delimiters no_delimiters = delimiters no_delimiters)
    by reflexivity.
  assert (H2 : (call "a" no_delimiters
                  (after_ [] (createCompileToFunctionFn tt))).1.1 = Ok 0)
    by (vm_compute; reflexivity).
  split; [exact H1|]. split; [exact H2|].
  exact (proj1 (proj2 (cached_result compile_text new_function
                         (fun _ => false) false tt []
                         [("b", no_delimiters)] "a" no_delimiters
                         no_delimiters 0 H1 H2))).
Defined.

End CacheWitnesses.

(** * The parser: what the loop keeps *)

Module MatchBounds.
Import HtmlParser HtmlSpec HtmlFacts.
#[local] Open Scope list_scope.
#[local] Unset Default Proof Using.

(** *** A match is a prefix of the input *)

Lemma span_length cls s a b :
  span cls s = (a, b) -> String.length a + String.length b = String.length s.
Proof.
  revert a b; induction s as [|c s IH]; intros a b; simpl.
  - intros [= <- <-]. reflexivity.
  - destruct (cls c).
    + destruct (span cls s) as [a' b'] eqn:E. intros [= <- <-].
      simpl. specialize (IH a' b' eq_refl). lia.
    + intros [= <- <-]. reflexivity.
Qed.

Lemma strip_length ci p s r :
  strip ci p s = Some r -> String.length p + String.length r = String.length s.
Proof.
  revert s; induction p as [|a p IH]; intros [|b s]; simpl;
    try (intros [= <-]; reflexivity); try (intros; discriminate).
  destruct (if ci then _ else _); [|intros; discriminate].
  intros H. apply IH in H. lia.
Qed.

Lemma ncname_length u s n r :
  ncname u s = Some (n, r) -> String.length n + String.length r = String.length s.
Proof.
  destruct s as [|c s]; simpl; [intros; discriminate|].
  destruct (ncname_start c); [|intros; discriminate].
  destruct (span (ncname_char u) s) as [a b] eqn:E.
  intros [= <- <-]. apply span_length in E. simpl. lia.
Qed.

Lemma qname_length u s n r :
  qname u s = Some (n, r) -> String.length n + String.length r = String.length s.
Proof.
  unfold qname. destruct (ncname u s) as [[n1 r1]|] eqn:E1; [|intros; discriminate].
  apply ncname_length in E1.
  destruct r1 as [|c r2]; [intros [= <- <-]; exact E1|].
  destruct (ch_is ":" c); [|intros [= <- <-]; exact E1].
  destruct (ncname u r2) as [[n2 r3]|] eqn:E2; [|intros [= <- <-]; exact E1].
  apply ncname_length in E2. intros [= <- <-].
  rewrite !append_length. simpl in *. lia.
Qed.

Lemma startTagOpen_bound u s n t :
  startTagOpen u s = Some (n, t) -> n <= String.length s.
Proof.
  destruct s as [|c s]; simpl; [intros; discriminate|].
  destruct (ch_is "<" c); [|intros; discriminate].
  destruct (qname u s) as [[name x]|] eqn:E; [|intros; discriminate].
  apply qname_length in E. intros [= <- <-]. lia.
Qed.

Lemma endTag_bound u s n t : endTag u s = Some (n, t) -> n <= String.length s.
Proof.
  unfold endTag. destruct (strip false "</" s) as [r|] eqn:E0;
    [|intros; discriminate].
  apply strip_length in E0.
  destruct (qname u r) as [[name x]|] eqn:E1; [|intros; discriminate].
  apply qname_length in E1.
  destruct (span (ch_isnt ">") x) as [junk y] eqn:E2.
  apply span_length in E2. destruct y; [intros; discriminate|].
  intros [= <- <-]. simpl in *. lia.
Qed.

Lemma doctype_bound s n : doctype s = Some n -> n <= String.length s.
Proof.
  unfold doctype. destruct (strip true "<!DOCTYPE " s) as [r|] eqn:E0;
    [|intros; discriminate].
  apply strip_length in E0.
  destruct (span (ch_isnt ">") r) as [body y] eqn:E2.
  apply span_length in E2.
  destruct body; [intros; discriminate|].
  destruct y; [intros; discriminate|].
  intros [= <-]. simpl in *. lia.
Qed.

Lemma startTagClose_bound s n t :
  startTagClose s = Some (n, t) -> n <= String.length s.
Proof.
  unfold startTagClose. destruct (span is_space s) as [ws r] eqn:E.
  apply span_length in E.
  destruct r as [|c r']; [intros; discriminate|].
  destruct (ch_is ">" c); [intros [= <- <-]; simpl in *; lia|].
  destruct (ch_is "/" c); [|intros; discriminate].
  destruct r' as [|c' r'']; [intros; discriminate|].
  destruct (ch_is ">" c'); [|intros; discriminate].
  intros [= <- <-]. simpl in *. lia.
Qed.

Lemma quoted_bound q s n v : quoted q s = Some (n, v) -> n <= 1 + String.length s.
Proof.
  unfold quoted. destruct (span (ch_isnt q) s) as [v' rest] eqn:E1.
  destruct (span (ch_is q) rest) as [quotes x] eqn:E2.
  apply span_length in E1. apply span_length in E2.
  destruct quotes; [intros; discriminate|]. intros [= <- <-].
  simpl in *. lia.
Qed.

Lemma attr_value_bound s n d q b :
  attr_value s = Some (n, d, q, b) -> n <= String.length s.
Proof.
  unfold attr_value. destruct (span is_space s) as [ws1 r1] eqn:E1.
  apply span_length in E1.
  destruct r1 as [|c r2]; [intros; discriminate|].
  destruct (ch_is "=" c); [|intros; discriminate].
  destruct (span is_space r2) as [ws2 r3] eqn:E2. apply span_length in E2.
  destruct r3 as [|qc r4]; [intros; discriminate|].
  destruct (ch_is dquote qc).
  { destruct (quoted dquote r4) as [[n' v]|] eqn:Eq; [|intros; discriminate].
    apply quoted_bound in Eq. intros [= <- <- <- <-]. simpl in *. lia. }
  destruct (ch_is squote qc).
  { destruct (quoted squote r4) as [[n' v]|] eqn:Eq; [|intros; discriminate].
    apply quoted_bound in Eq. intros [= <- <- <- <-]. simpl in *. lia. }
  destruct (span bare_value_char (String qc r4)) as [v x] eqn:E3.
  apply span_length in E3.
  destruct v; [intros; discriminate|].
  intros [= <- <- <- <-]. simpl in *. lia.
Qed.

Lemma with_value_bound lead name rest :
  a_len (with_value lead name rest)
  <= lead + String.length name + String.length rest.
Proof.
  unfold with_value.
  destruct (attr_value rest) as [[[[n d] q] b]|] eqn:E; simpl; [|lia].
  apply attr_value_bound in E. lia.
Qed.

Lemma attribute_bound s a : attribute s = Some a -> a_len a <= String.length s.
Proof.
  unfold attribute. destruct (span is_space s) as [ws r] eqn:E1.
  destruct (span attr_name_char r) as [name rest] eqn:E2.
  apply span_length in E1. apply span_length in E2.
  destruct name as [|c name]; [intros; discriminate|].
  intros [= <-].
  pose proof (with_value_bound (String.length ws) (String c name) rest). lia.
Qed.

Lemma last_bracket_bound s j : last_bracket s = Some j -> j < String.length s.
Proof.
  revert j; induction s as [|c s IH]; intros j; simpl; [intros; discriminate|].
  destruct (last_bracket s) as [j'|].
  - intros [= <-]. specialize (IH j' eq_refl). lia.
  - destruct s as [|c' s']; [intros; discriminate|].
    destruct (ch_is "]" c'); [|intros; discriminate].
    intros [= <-]. simpl. lia.
Qed.

Lemma dynamic_prefix_length s pre r :
  dynamic_prefix s = Some (pre, r) ->
  String.length pre + String.length r = String.length s.
Proof.
  destruct s as [|c rest]; [intros; discriminate|].
  unfold dynamic_prefix.
  destruct (ch_is "@" c || ch_is ":" c || ch_is "#" c);
    [intros [= <- <-]; reflexivity|].
  destruct (strip false "v-" (String c rest)) as [r0|] eqn:E0;
    [|intros; discriminate].
  apply strip_length in E0.
  destruct (span _ r0) as [w r'] eqn:E1. apply span_length in E1.
  destruct w; [intros; discriminate|].
  destruct r' as [|c' r'']; [intros; discriminate|].
  destruct (ch_is ":" c'); [|intros; discriminate].
  intros [= <- <-]. rewrite !append_length. simpl in *. lia.
Qed.

Lemma dynamicArgAttribute_bound s a :
  dynamicArgAttribute s = Some a -> a_len a <= String.length s.
Proof.
  unfold dynamicArgAttribute. destruct (span is_space s) as [ws r] eqn:E0.
  apply span_length in E0.
  destruct (dynamic_prefix r) as [[pre r1]|] eqn:E1; [|intros; discriminate].
  apply dynamic_prefix_length in E1.
  destruct r1 as [|c r2]; [intros; discriminate|].
  destruct (ch_is "[" c); [|intros; discriminate].
  destruct (span (ch_isnt "=") r2) as [run x] eqn:E2. apply span_length in E2.
  destruct (last_bracket run) as [j|] eqn:E3; [|intros; discriminate].
  apply last_bracket_bound in E3.
  destruct (span attr_name_char (drop (S j) r2)) as [tail rest] eqn:E4.
  apply span_length in E4. rewrite drop_length in E4.
  intros [= <-].
  match goal with
  | |- a_len (with_value ?l ?n ?r) <= _ =>
    pose proof (with_value_bound l n r) as H;
    assert (String.length n + String.length r <= String.length (String c r2) + String.length pre)
  end; [|lia].
  rewrite !append_length, take_length. simpl.
  rewrite Nat.min_l by lia. lia.
Qed.

Lemma close_here_bound t s m : close_here t s = Some m -> m <= String.length s.
Proof.
  unfold close_here.
  destruct (strip true ("</" ++ t)%string s) as [r|] eqn:E0;
    [|intros; discriminate].
  apply strip_length in E0.
  destruct (span (ch_isnt ">") r) as [junk r'] eqn:E1. apply span_length in E1.
  destruct r'; [intros; discriminate|]. intros [= <-].
  rewrite append_length in E0. simpl in *. lia.
Qed.

Lemma reStackedTag_bound t s n m :
  reStackedTag t s = Some (n, m) -> n + m <= String.length s.
Proof.
  revert n; induction s as [|c s IH]; intros n; cbn [reStackedTag].
  - destruct (close_here t "") as [m'|] eqn:E; [|intros; discriminate].
    apply close_here_bound in E. intros [= <- <-]. simpl in *. lia.
  - destruct (close_here t (String c s)) as [m'|] eqn:E.
    + apply close_here_bound in E. intros [= <- <-]. simpl in *. lia.
    + destruct (reStackedTag t s) as [[n' m']|]; [|intros; discriminate].
      intros [= <- <-]. specialize (IH n' eq_refl). simpl. lia.
Qed.

End MatchBounds.

Module ParserInvariants.
Import HtmlParser HtmlSpec HtmlFacts MatchBounds ParserSpec.
#[local] Open Scope list_scope.
#[local] Unset Default Proof Using.

Section Preserved.
Context (unicodeLetter : ascii -> bool) (production : bool).
Context (isNonPhrasingTag : string -> bool) (options : Options).

(** A property of the state of the parser that its steps keep:
    passing over a match, the calls of [chars] and [comment],
    [parseEndTag], [handleStartTag] and the branch that ends the
    loop. *)
Context (I : PState -> Prop).
Hypothesis I_advance :
  forall n p, n <= String.length (html p) -> I p -> I (advance n p).
Hypothesis I_chars :
  forall t r p, I p -> I (emit_if (has_chars options) (Chars t r) p).
Hypothesis I_comment :
  forall t s e p,
    I p -> I (emit_if (shouldKeepComment options) (Comment t s e) p).
Hypothesis I_end :
  forall t s e p, I p -> I (parseEndTag production options t s e p).
Hypothesis I_start :
  forall m p,
    I p -> I (handleStartTag production isNonPhrasingTag options m p).
Hypothesis I_stop : forall p, I p -> I (no_progress production options p).

Lemma attrs_loop_keeps fuel p acc p' acc' e :
  I p -> attrs_loop fuel p acc = Some (p', acc', e) ->
  I p' /\ (forall x, e = Some x -> startTagClose (html p') = Some x).
Proof.
  revert p acc; induction fuel as [|fuel IH]; intros p acc Hp; cbn [attrs_loop].
  - destruct (startTagClose (html p)) eqn:Hc;
      [intros [= <- <- <-]; split; [exact Hp|now intros x [= <-]]|].
    destruct (match dynamicArgAttribute (html p) with
              | Some a => Some a | None => attribute (html p) end);
      [intros; discriminate|].
    intros [= <- <- <-]; split; [exact Hp|intros; discriminate].
  - destruct (startTagClose (html p)) eqn:Hc;
      [intros [= <- <- <-]; split; [exact Hp|now intros x [= <-]]|].
    destruct (match dynamicArgAttribute (html p) with
              | Some a => Some a | None => attribute (html p) end)
      as [a|] eqn:Ha;
      [|intros [= <- <- <-]; split; [exact Hp|intros; discriminate]].
    apply IH. apply I_advance; [|exact Hp].
    destruct (dynamicArgAttribute (html p)) eqn:Hd.
    + injection Ha as <-. eapply dynamicArgAttribute_bound; eauto.
    + eapply attribute_bound; eauto.
Qed.

Lemma parseStartTag_keeps p p' m :
  I p -> parseStartTag unicodeLetter p = Some (p', m) -> I p'.
Proof.
  intros Hp. unfold parseStartTag.
  destruct (startTagOpen unicodeLetter (html p)) as [[n t]|] eqn:Ho;
    [|intros [= <- <-]; exact Hp].
  apply startTagOpen_bound in Ho.
  destruct (attrs_loop _ _ _) as [[[q attrs] e]|] eqn:Hl; [|intros; discriminate].
  apply attrs_loop_keeps in Hl as [Hq Hc]; [|apply I_advance; assumption].
  destruct e as [[len slash]|]; intros [= <- <-]; [|exact Hq].
  apply I_advance; [|exact Hq].
  eapply startTagClose_bound, Hc. reflexivity.
Qed.

Lemma tags_keeps p f :
  truthy (html p) = true -> I p ->
  tags unicodeLetter production isNonPhrasingTag options p = Some f ->
  I (flow_state f).
Proof.
  intros Ht Hp. unfold tags.
  destruct (if comment (html p) then _ else _) as [commentEnd|] eqn:Hc.
  { intros [= <-]. cbn [flow_state].
    destruct (comment (html p)); [|discriminate].
    apply indexOf_bound in Hc. simpl in Hc.
    apply I_advance; [|apply I_comment, Hp].
    destruct (emit_if_input (shouldKeepComment options)
      (Comment (substring 4 commentEnd (html p)) (index p)
         (index p + commentEnd + 3)) p) as [-> _]. lia. }
  destruct (if conditionalComment (html p) then _ else _)
    as [conditionalEnd|] eqn:Hcc.
  { intros [= <-]. cbn [flow_state].
    destruct (conditionalComment (html p)); [|discriminate].
    apply indexOf_bound in Hcc. simpl in Hcc.
    apply I_advance; [lia|exact Hp]. }
  destruct (doctype (html p)) as [n|] eqn:Hd.
  { intros [= <-]. apply doctype_bound in Hd. now apply I_advance. }
  destruct (endTag unicodeLetter (html p)) as [[n name]|] eqn:He.
  { intros [= <-]. apply endTag_bound in He.
    apply I_end. now apply I_advance. }
  destruct (parseStartTag unicodeLetter p) as [[q [m|]]|] eqn:Hs;
    [| |intros; discriminate].
  - intros [= <-]. cbn [flow_state].
    apply parseStartTag_keeps in Hs; [|exact Hp].
    pose proof (I_start m q Hs) as Hh.
    destruct (shouldIgnoreFirstNewline _ _) eqn:Hn; [|exact Hh].
    apply I_advance; [|exact Hh].
    unfold shouldIgnoreFirstNewline in Hn.
    destruct (html (handleStartTag production isNonPhrasingTag options m q));
      [|simpl; lia].
    now rewrite andb_false_r in Hn.
  - intros [= <-]. eapply parseStartTag_keeps; eauto.
Qed.

Lemma text_branch_keeps te p p' :
  I p -> text_branch unicodeLetter options te p = Some p' -> I p'.
Proof.
  intros Hp. unfold text_branch.
  destruct (match te with Some t => _ | None => Some (html p) end)
    as [txt|] eqn:Ht; [|intros; discriminate].
  intros [= <-].
  destruct (truthy txt);
    [rewrite andb_true_r; apply I_chars|rewrite andb_false_r; exact Hp].
  apply I_advance; [|exact Hp].
  destruct te as [t|].
  - destruct (text_loop _ _ _ _) as [t'|]; [|discriminate].
    injection Ht as <-. rewrite take_length. lia.
  - injection Ht as <-. lia.
Qed.

Lemma plaintext_keeps p : I p -> I (plaintext production options p).
Proof.
  intros Hp. unfold plaintext.
  destruct (reStackedTag _ _) as [[n m]|] eqn:Hr.
  - apply reStackedTag_bound in Hr. apply I_end.
    match goal with
    | |- I (mkPState _ _ (stack ?q) _ _) =>
      replace (mkPState _ _ (stack q) _ _) with (advance (n + m) q)
    end.
    + apply I_advance; [|apply I_chars, Hp].
      match goal with
      | |- _ <= String.length (html (emit_if ?b ?e p)) =>
        destruct (emit_if_input b e p) as [-> _]
      end. exact Hr.
    + match goal with
      | |- context [emit_if ?b ?e p] =>
        destruct (emit_if_input b e p) as [Hh _]
      end.
      unfold advance. rewrite Hh. f_equal. rewrite drop_length. lia.
  - apply I_end.
    replace (mkPState _ _ (stack p) _ _) with (advance 0 p); [now apply I_advance; [lia|]|].
    unfold advance. simpl. f_equal. rewrite Nat.sub_diag. reflexivity.
Qed.

Lemma pass_keeps p f :
  truthy (html p) = true -> I p ->
  pass unicodeLetter production isNonPhrasingTag options p = Some f ->
  I (flow_state f).
Proof.
  intros Ht Hp. unfold pass.
  destruct (negb (in_plaintext p));
    [|intros [= <-]; now apply plaintext_keeps].
  destruct (match indexOf "<" (html p) with
            | Some 0 => tags unicodeLetter production isNonPhrasingTag options p
            | _ => Some (Fallthrough p) end) as [[q|q]|] eqn:Hf;
    [| |intros; discriminate].
  - intros [= <-]. destruct (indexOf "<" (html p)) as [[|k]|];
      try discriminate. eapply (tags_keeps p (Continue q)); eauto.
  - assert (Hq : I q).
    { destruct (indexOf "<" (html p)) as [[|k]|]; try (now injection Hf as <-).
      eapply (tags_keeps p (Fallthrough q)); eauto. }
    destruct (text_branch _ _ _ q) as [q'|] eqn:Hb; [|intros; discriminate].
    intros [= <-]. eapply text_branch_keeps; eauto.
Qed.

Lemma loop_keeps fuel p q :
  I p ->
  loop unicodeLetter production isNonPhrasingTag options fuel p = Some q ->
  I q.
Proof.
  revert p; induction fuel as [|fuel IH]; intros p Hp; cbn [loop].
  - destruct (truthy (html p)); [intros; discriminate|].
    now intros [= <-].
  - destruct (truthy (html p)) eqn:Ht; [|now intros [= <-]].
    destruct (pass _ _ _ _ p) as [f|] eqn:Hf; [|intros; discriminate].
    pose proof (pass_keeps p f Ht Hp Hf) as Hq.
    destruct f as [p'|p']; cbn [flow_state] in Hq; [now apply IH|].
    destruct (String.eqb (html p') (html p)); [|now apply IH].
    intros [= <-]. now apply I_stop.
Qed.

(** What holds at the start holds when [parseHTML] returns. *)
Lemma parse_keeps h q :
  I (start_state h) ->
  loop unicodeLetter production isNonPhrasingTag options (String.length h)
    (start_state h) = Some q ->
  I (parseEndTag production options None None None q).
Proof.
  intros H0 Hl. apply I_end. eapply loop_keeps; eauto.
Qed.

End Preserved.

End ParserInvariants.

Module ParserMore.
Import HtmlParser HtmlSpec HtmlFacts EndTagFacts MatchBounds ParserInvariants.
Import ParserSpec.
#[local] Open Scope list_scope.
#[local] Unset Default Proof Using.

Section More.
Context (unicodeLetter : ascii -> bool) (production : bool).
Context (isNonPhrasingTag : string -> bool) (options : Options).

#[local] Abbreviation parseEndTag := (parseEndTag production options).
#[local] Abbreviation handleStartTag :=
  (handleStartTag production isNonPhrasingTag options).
#[local] Abbreviation pass :=
  (pass unicodeLetter production isNonPhrasingTag options).
#[local] Abbreviation loop :=
  (loop unicodeLetter production isNonPhrasingTag options).
#[local] Abbreviation parseHTML :=
  (parseHTML unicodeLetter production isNonPhrasingTag options).
#[local] Abbreviation no_progress := (no_progress production options).

(** What [parseEndTag] does to the stack and which calls it makes. *)
Lemma parseEndTag_cases t s e p :
  let name := default EmptyString t in
  let s0 := default (index p) s in
  let e0 := default (index p) e in
  let p' := parseEndTag t s e p in
  (exists pos,
      pos <= length (stack p)
      /\ stack p' = firstn pos (stack p)
      /\ lastTag p'
         = match pos with
           | 0 => None
           | S i => tag <$> firstn pos (stack p) !! i
           end
      /\ events p'
         = events p
           ++ closings production options (truthy name) s0 e0 (stack p) pos
                (length (stack p)))
  \/ (truthy name = true
      /\ stack p' = stack p /\ lastTag p' = lastTag p
      /\ events p' = events p ++ bare options name s0 e0).
Proof.
  intros name s0 e0 p'. subst p'. unfold HtmlParser.parseEndTag.
  fold name s0 e0.
  destruct (truthy name) eqn:Ht.
  - destruct (find_pos (stack p) (toLowerCase name) (length (stack p)))
      as [pos|] eqn:Hf.
    + left. apply find_pos_some in Hf as (Hlt & _). exists pos.
      cbn [stack lastTag events]. split_and!; auto; [lia|].
      apply close_loop_events. lia.
    + right. split; [reflexivity|]. unfold bare.
      destruct (String.eqb (toLowerCase name) "br");
        [|destruct (String.eqb (toLowerCase name) "p")];
        unfold emit_if, emit;
        destruct (has_start options), (has_end options); cbn;
        rewrite ?app_nil_r, <- ?app_assoc; auto.
  - left. exists 0. cbn [stack lastTag events]. split_and!; auto; [lia|].
    apply close_loop_events. lia.
Qed.

(** *** The position in the template *)

Lemma offset_same p' p : same_input p' p -> offset p' = offset p.
Proof. intros [Hh Hi]. unfold offset. now rewrite Hh, Hi. Qed.

Lemma offset_advance n p :
  n <= String.length (html p) -> offset (advance n p) = offset p.
Proof. intros Hn. unfold offset, advance. simpl. rewrite drop_length. lia. Qed.

Lemma offset_kept total :
  let I := fun p => offset p = total in
  (forall n p, n <= String.length (html p) -> I p -> I (advance n p))
  /\ (forall b t r p, I p -> I (emit_if b (Chars t r) p))
  /\ (forall b t s e p, I p -> I (emit_if b (Comment t s e) p))
  /\ (forall t s e p, I p -> I (parseEndTag t s e p))
  /\ (forall m p, I p -> I (handleStartTag m p))
  /\ (forall p, I p -> I (no_progress p)).
Proof.
  intros I. unfold I. split_and!.
  - intros n p Hn <-. now apply offset_advance.
  - intros b t r p <-. apply offset_same, emit_if_input.
  - intros b t s e p <-. apply offset_same, emit_if_input.
  - intros t s e p <-. apply offset_same, parseEndTag_input.
  - intros m p <-. apply offset_same, handleStartTag_input.
  - intros p <-. apply offset_same, no_progress_input.
Qed.

(** X1: a turn of the loop moves [index] forward by as many
    characters as it takes off [html], so that [index] is the position
    of [html] in the template: when the loop of [parseHTML] ends,
    [index] and the length of what is left add up to the length of
    the template. *)
Theorem index_is_position :
  (forall p f,
      truthy (html p) = true -> pass p = Some f ->
      index (flow_state f) + String.length (html (flow_state f))
      = index p + String.length (html p))
  /\ (forall h q,
        loop (String.length h) (start_state h) = Some q ->
        index q + String.length (html q) = String.length h).
Proof.
  split.
  - intros p f Ht Hf.
    destruct (offset_kept (offset p)) as (H1 & H2 & H3 & H4 & H5 & H6).
    exact (pass_keeps unicodeLetter production isNonPhrasingTag options
             (fun q => offset q = offset p) H1 (H2 _) (H3 _) H4 H5 p f Ht eq_refl Hf).
  - intros h q Hl.
    destruct (offset_kept (String.length h)) as (H1 & H2 & H3 & H4 & H5 & H6).
    exact (loop_keeps unicodeLetter production isNonPhrasingTag options
             (fun q => offset q = String.length h) H1 (H2 _) (H3 _) H4 H5 H6
             (String.length h) (start_state h) q eq_refl Hl).
Qed.

(** *** The stack of open elements *)

Lemma top_same p' p : same_stack p' p -> top_is_last p -> top_is_last p'.
Proof. intros [Hs Hl] [H1 H2]. split; rewrite ?Hs, ?Hl; assumption. Qed.

Lemma last_firstn {A} (l : list A) i :
  S i <= length l -> last (firstn (S i) l) = firstn (S i) l !! i.
Proof.
  intros Hi. rewrite last_lookup. f_equal.
  rewrite length_firstn. lia.
Qed.

Lemma parseEndTag_top t s e p : top_is_last p -> top_is_last (parseEndTag t s e p).
Proof.
  intros [H1 H2].
  destruct (parseEndTag_cases t s e p) as [(pos & Hp & Hs & Hl & _)|(_ & Hs & Hl & _)].
  - split.
    + rewrite Hl, Hs. destruct pos as [|i]; [reflexivity|].
      now rewrite last_firstn.
    + rewrite Hs. now apply Forall_take.
  - split; rewrite ?Hs, ?Hl; assumption.
Qed.

Lemma handleStartTag_top m p : top_is_last p -> top_is_last (handleStartTag m p).
Proof.
  intros Hp. unfold HtmlParser.handleStartTag.
  eapply top_same; [apply emit_if_stack|].
  set (q := if expectHTML options then _ else p).
  assert (Hq : top_is_last q).
  { subst q. destruct (expectHTML options); [|exact Hp].
    set (q1 := if lastTag_is "p" p && _ then _ else p).
    assert (H1 : top_is_last q1).
    { subst q1. case_match; [now apply parseEndTag_top|exact Hp]. }
    case_match; [now apply parseEndTag_top|exact H1]. }
  destruct (_ || _); [exact Hq|].
  destruct Hq as [_ H2]. split; cbn [stack lastTag].
  - now rewrite last_snoc.
  - apply Forall_app. split; [exact H2|]. now repeat constructor.
Qed.

(** X2: [lastTag] is the tag of the element on top of the stack of
    open elements, and [undefined] or [0] when the stack is empty, and
    every entry of the stack has its tag in lower case beside it: what
    holds when [parseHTML] starts holds after every turn of its loop
    and when the loop ends. *)
Theorem lastTag_is_top :
  (forall h, top_is_last (start_state h))
  /\ (forall p f,
        truthy (html p) = true -> top_is_last p -> pass p = Some f ->
        top_is_last (flow_state f))
  /\ (forall h q,
        loop (String.length h) (start_state h) = Some q -> top_is_last q).
Proof.
  assert (H1 : forall n p, n <= String.length (html p) ->
                           top_is_last p -> top_is_last (advance n p))
    by (intros n p _ Hp; exact Hp).
  assert (H2 : forall b t r p, top_is_last p ->
                               top_is_last (emit_if b (Chars t r) p))
    by (intros; eapply top_same; [apply emit_if_stack|assumption]).
  assert (H3 : forall b t s e p, top_is_last p ->
                                 top_is_last (emit_if b (Comment t s e) p))
    by (intros; eapply top_same; [apply emit_if_stack|assumption]).
  assert (H6 : forall p, top_is_last p -> top_is_last (no_progress p))
    by (intros; eapply top_same; [apply no_progress_input|assumption]).
  assert (H0 : forall h, top_is_last (start_state h))
    by (intros h; split; [reflexivity|constructor]).
  split; [exact H0|]. split.
  - intros p f Ht Hp Hf.
    exact (pass_keeps unicodeLetter production isNonPhrasingTag options
             top_is_last H1 (H2 _) (H3 _) parseEndTag_top handleStartTag_top
             p f Ht Hp Hf).
  - intros h q Hl.
    exact (loop_keeps unicodeLetter production isNonPhrasingTag options
             top_is_last H1 (H2 _) (H3 _) parseEndTag_top handleStartTag_top H6
             (String.length h) (start_state h) q (H0 h) Hl).
Qed.

(** *** The calls of [warn] *)

Lemma events_emit_if b e p :
  events (emit_if b e p) = events p ++ (if b then [e] else []).
Proof. destruct b; cbn; now rewrite ?app_nil_r. Qed.

Lemma given_emit_if b e p :
  (b = true -> given production options e = true) ->
  Forall (fun e => given production options e = true) (events p) ->
  Forall (fun e => given production options e = true)
    (events (emit_if b e p)).
Proof.
  intros He Hp. rewrite events_emit_if. apply Forall_app. split; [exact Hp|].
  destruct b; [|constructor]. constructor; [now apply He|constructor].
Qed.

Lemma closings_given named s e st pos k :
  Forall (fun e => given production options e = true)
    (closings production options named s e st pos k).
Proof.
  unfold closings.
  induction (rev (seq pos (k - pos))) as [|i l IH]; [constructor|].
  cbn [flat_map]. apply Forall_app. split; [|exact IH].
  destruct (st !! i) as [x|]; [|constructor].
  unfold closing. apply Forall_app. split.
  - destruct (negb production && _ && has_warn options) eqn:G;
      [|constructor].
    constructor; [|constructor]. cbn.
    destruct production, (has_warn options); try reflexivity;
      cbn in G; rewrite ?andb_false_r in G; discriminate.
  - destruct (has_end options) eqn:G; [|constructor].
    constructor; [exact G|constructor].
Qed.

Lemma parseEndTag_given t s e p :
  Forall (fun e => given production options e = true) (events p) ->
  Forall (fun e => given production options e = true)
    (events (parseEndTag t s e p)).
Proof.
  intros Hp.
  destruct (parseEndTag_cases t s e p)
    as [(pos & _ & _ & _ & ->)|(_ & _ & _ & ->)];
    apply Forall_app; (split; [exact Hp|]).
  - apply closings_given.
  - unfold bare.
    destruct (String.eqb _ "br"); [|destruct (String.eqb _ "p")];
      destruct (has_start options) eqn:G1, (has_end options) eqn:G2;
      repeat constructor; assumption.
Qed.

Lemma handleStartTag_given m p :
  Forall (fun e => given production options e = true) (events p) ->
  Forall (fun e => given production options e = true)
    (events (handleStartTag m p)).
Proof.
  intros Hp. unfold HtmlParser.handleStartTag.
  set (q := if expectHTML options then _ else p).
  assert (Hq : Forall (fun e => given production options e = true)
                 (events q)).
  { subst q. destruct (expectHTML options); [|exact Hp].
    set (q1 := if lastTag_is "p" p && _ then _ else p).
    assert (H1 : Forall (fun e => given production options e = true)
                   (events q1)).
    { subst q1. case_match; [now apply parseEndTag_given|exact Hp]. }
    case_match; [now apply parseEndTag_given|exact H1]. }
  apply given_emit_if; [intros G; exact G|].
  now destruct (_ || _).
Qed.

Lemma no_progress_given p :
  Forall (fun e => given production options e = true) (events p) ->
  Forall (fun e => given production options e = true)
    (events (no_progress p)).
Proof.
  intros Hp. unfold HtmlParser.no_progress.
  apply given_emit_if.
  - cbn. intros G. destruct production, (has_warn options);
      try reflexivity; cbn in G; rewrite ?andb_false_r in G; discriminate.
  - apply given_emit_if; [intros G; exact G|exact Hp].
Qed.

(** X3: [parseHTML] calls no callback that the options do not give:
    [start], [end] and [chars] are called only when they are set,
    [comment] only when [shouldKeepComment] is, and [warn] only when
    it is set and the code does not run in production. *)
Theorem only_given_callbacks h evs :
  parseHTML h = Some evs ->
  Forall (fun e => given production options e = true) evs.
Proof.
  unfold HtmlParser.parseHTML.
  destruct (loop (String.length h) (start_state h)) as [q|] eqn:Hl;
    [|intros; discriminate].
  intros Heq.
  assert (evs = events (parseEndTag None None None q)) as -> by congruence.
  apply parseEndTag_given.
  apply (loop_keeps unicodeLetter production isNonPhrasingTag options
           (fun p => Forall (fun e => given production options e = true)
                       (events p))) with
    (fuel := String.length h) (p := start_state h); auto.
  - intros t r p Hp. apply given_emit_if; [intros G; exact G|exact Hp].
  - intros t s e p Hp. apply given_emit_if; [intros G; exact G|exact Hp].
  - intros; now apply parseEndTag_given.
  - intros; now apply handleStartTag_given.
  - intros; now apply no_progress_given.
Qed.

(** *** Elements opened and closed *)

Lemma opens_app a b : opens (a ++ b) = opens a + opens b.
Proof. unfold opens. now rewrite List.filter_app, length_app. Qed.

Lemma closes_app a b : closes (a ++ b) = closes a + closes b.
Proof. unfold closes. now rewrite List.filter_app, length_app. Qed.

Section Counting.
Hypothesis with_start : has_start options = true.
Hypothesis with_end : has_end options = true.

Lemma closing_calls_count named s e st pos (l : list nat) :
  Forall (fun i => i < length st) l ->
  let evs := flat_map
    (fun i => match st !! i with
              | Some x => closing production options named s e pos i x
              | None => []
              end) l in
  opens evs = 0 /\ closes evs = length l.
Proof.
  induction 1 as [|i l Hi Hl [IH1 IH2]]; [split; reflexivity|].
  cbn [flat_map length]. rewrite opens_app, closes_app, IH1, IH2.
  destruct (lookup_lt_is_Some_2 st i Hi) as [x ->].
  unfold closing. rewrite with_end.
  destruct (negb production && _ && has_warn options); split; reflexivity.
Qed.

Lemma closings_count named s e st pos k :
  k <= length st ->
  opens (closings production options named s e st pos k) = 0
  /\ closes (closings production options named s e st pos k) = k - pos.
Proof.
  intros Hk. unfold closings.
  assert (Hall : Forall (fun i => i < length st) (rev (seq pos (k - pos)))).
  { apply Forall_forall. intros i Hi%list_elem_of_In%in_rev%in_seq. lia. }
  destruct (closing_calls_count named s e st pos _ Hall) as [H1 H2].
  split; [exact H1|]. rewrite H2. now rewrite length_rev, length_seq.
Qed.

Lemma parseEndTag_balanced t s e p : balanced p -> balanced (parseEndTag t s e p).
Proof.
  unfold balanced. intros Hp.
  destruct (parseEndTag_cases t s e p)
    as [(pos & Hle & Hs & _ & He)|(_ & Hs & _ & He)];
    rewrite He, Hs, opens_app, closes_app.
  - destruct (closings_count (truthy (default EmptyString t))
                (default (index p) s) (default (index p) e) (stack p) pos
                (length (stack p)) (le_n _)) as [-> ->].
    rewrite length_firstn. lia.
  - unfold bare. rewrite with_start, with_end.
    destruct (String.eqb _ "br"); [|destruct (String.eqb _ "p")];
      cbn; lia.
Qed.

Lemma handleStartTag_balanced m p :
  balanced p -> balanced (handleStartTag m p).
Proof.
  intros Hp. unfold HtmlParser.handleStartTag.
  set (q := if expectHTML options then _ else p).
  assert (Hq : balanced q).
  { subst q. destruct (expectHTML options); [|exact Hp].
    set (q1 := if lastTag_is "p" p && _ then _ else p).
    assert (H1 : balanced q1).
    { subst q1. case_match; [now apply parseEndTag_balanced|exact Hp]. }
    case_match; [now apply parseEndTag_balanced|exact H1]. }
  unfold balanced in *. rewrite events_emit_if, with_start.
  match goal with
  | |- context [emit_if true _ ?r] =>
    destruct (emit_if_stack true
      (Start (m_tagName m) (map (make_attr production options (m_tagName m))
                              (m_attrs m))
         (default no (isUnaryTag options) (m_tagName m)
          || truthy (m_unarySlash m)) (m_start m) (m_end m)) r) as [-> _]
  end.
  rewrite opens_app, closes_app.
  destruct (_ || _); cbn [stack events]; rewrite ?length_app; cbn; lia.
Qed.

End Counting.

(** X4: when the callbacks [start] and [end] are given, [parseHTML]
    calls [end] as many times as it calls [start] for an element that
    is not unary: every element it opens it closes, at the latest when
    the template ends. *)
Theorem every_element_is_closed h evs :
  has_start options = true -> has_end options = true ->
  parseHTML h = Some evs ->
  opens evs = closes evs.
Proof.
  intros Hs He. unfold HtmlParser.parseHTML.
  destruct (loop (String.length h) (start_state h)) as [q|] eqn:Hl;
    [|intros; discriminate].
  intros Heq.
  assert (evs = events (parseEndTag None None None q)) as -> by congruence.
  assert (Hq : balanced q).
  { apply (loop_keeps unicodeLetter production isNonPhrasingTag options
             balanced) with (fuel := String.length h) (p := start_state h);
      auto.
    - intros t r p Hp. unfold balanced in *.
      destruct (emit_if_stack (has_chars options) (Chars t r) p) as [-> _].
      rewrite events_emit_if, opens_app, closes_app.
      destruct (has_chars options); cbn; lia.
    - intros t s e p Hp. unfold balanced in *.
      destruct (emit_if_stack (shouldKeepComment options) (Comment t s e) p)
        as [-> _].
      rewrite events_emit_if, opens_app, closes_app.
      destruct (shouldKeepComment options); cbn; lia.
    - intros; now apply parseEndTag_balanced.
    - intros; now apply handleStartTag_balanced.
    - intros p Hp. unfold balanced in *.
      destruct (no_progress_input production options p) as [_ [-> _]].
      rewrite no_progress_events, opens_app, closes_app. unfold diagnosis.
      destruct (has_chars options),
        (negb production && _ && has_warn options); cbn; lia.
    - reflexivity. }
  destruct (parseEndTag_cases None None None q)
    as [(pos & Hle & Hst & _ & Hev)|(Ht & _)]; [|discriminate Ht].
  pose proof (parseEndTag_balanced Hs He None None None q Hq) as Hb.
  unfold balanced in Hb. rewrite Hb.
  assert (stack (parseEndTag None None None q) = []) as ->; [|simpl; lia].
  reflexivity.
Qed.

(** *** A template without markup *)

(** X5: a template in which no [<] occurs is text: [parseHTML] passes
    the whole of it to [chars] in one call, with the range from 0 to
    its length, and calls nothing else; on the empty template, or
    without the callback, it calls nothing. *)
Theorem text_without_markup h :
  indexOf "<" h = None ->
  parseHTML h
  = Some (if has_chars options && truthy h
          then [Chars h (Some (0, String.length h))] else []).
Proof.
  intros Hno. unfold HtmlParser.parseHTML.
  destruct h as [|c h].
  - cbn. rewrite andb_false_r. reflexivity.
  - cbn [String.length loop].
    change (html (start_state (String c h))) with (String c h).
    cbn [truthy]. unfold HtmlParser.pass, in_plaintext.
    change (lastTag (start_state (String c h))) with (@None string).
    change (html (start_state (String c h))) with (String c h).
    cbn [negb]. rewrite Hno.
    unfold text_branch.
    change (html (start_state (String c h))) with (String c h).
    cbn [truthy]. unfold emit_if, advance, start_state.
    cbn [html index stack lastTag events].
    rewrite (drop_all _ (String c h) (le_n _)), andb_true_r.
    replace (0 + String.length (String c h) - String.length (String c h))
      with 0 by lia.
    destruct (has_chars options); cbn; destruct h; reflexivity.
Qed.

End More.

End ParserMore.

Module DecodeFacts.
Import HtmlParser EntitySpec.
#[local] Open Scope list_scope.
#[local] Unset Default Proof Using.

Lemma decode_length nl s :
  forall skip, String.length (decode nl skip s) <= String.length s.
Proof.
  induction s as [|c s IH]; intros skip; [reflexivity|].
  cbn [decode]. destruct skip as [|k].
  - destruct (find_entity _ _) as [[len ch]|]; cbn [String.length];
      [specialize (IH (len - 1))|specialize (IH 0)]; lia.
  - specialize (IH k). cbn [String.length]. lia.
Qed.

Lemma find_entity_amp nl c s :
  find_entity (decodingMap nl) (String c s) <> None -> c = "&"%char.
Proof.
  unfold decodingMap. destruct nl; cbn [app find_entity String.prefix];
    repeat (destruct (ascii_dec _ c) as [<-|_]; [reflexivity|]);
    intros H; now destruct H.
Qed.

Lemma decode_plain nl s :
  indexOf "&" s = None -> decode nl 0 s = s.
Proof.
  induction s as [|c s IH]; [reflexivity|].
  cbn [indexOf String.prefix decode].
  destruct (ascii_dec "&" c) as [<-|Hc].
  - destruct s; intros; discriminate.
  - destruct (indexOf "&" s) eqn:E; [intros; discriminate|].
    intros _.
    destruct (find_entity (decodingMap nl) (String c s)) eqn:F.
    + exfalso. apply Hc. symmetry.
      apply (find_entity_amp nl c s). now rewrite F.
    + now rewrite IH.
Qed.

(** X6: [decodeAttr] never makes a value longer, and it returns a
    value in which no [&] occurs as it is. *)
Theorem decodeAttr_shortens value nl :
  String.length (decodeAttr value nl) <= String.length value
  /\ (indexOf "&" value = None -> decodeAttr value nl = value).
Proof.
  split; [apply decode_length|apply decode_plain].
Qed.

Lemma decode_encoded nl c s :
  decode nl 0 (encode nl (String c s)) = String c (decode nl 0 (encode nl s)).
Proof.
  cbn [encode]. unfold entity_of, decodingMap.
  destruct nl; cbn [app List.find snd fst fmap option_fmap option_map];
    repeat match goal with
    | |- context [Ascii.eqb ?a c] =>
      let E := fresh "E" in
      destruct (Ascii.eqb a c) eqn:E;
      [apply Ascii.eqb_eq in E; subst c;
       cbn [fmap option_fmap option_map fst];
       lazy [String.append]; destruct (encode _ s); reflexivity|]
    end.
  all: cbn [fmap option_fmap option_map decode].
  all: destruct (find_entity _ _) as [[len ch]|] eqn:F; [|reflexivity].
  all: assert (c = "&"%char) as -> by
         (eapply find_entity_amp; rewrite F; discriminate).
  all: cbn in *; congruence.
Qed.

(** X7: decoding undoes encoding.  A value in which each of the
    characters [<], [>], the two quotes and [&] (and, when newlines
    are decoded, the newline and the tab) is written as its entity
    is decoded to the value before: what was an [&] is not read again
    as the start of an entity. *)
Theorem decodeAttr_encode nl value :
  decodeAttr (encode nl value) nl = value.
Proof.
  unfold decodeAttr. induction value as [|c s IH]; [reflexivity|].
  now rewrite decode_encoded, IH.
Qed.

End DecodeFacts.

(** * The compiler: cache, diagnostics and options *)

Module CacheMore.
Import ToFunction CacheSpec CacheFacts.
#[local] Open Scope list_scope.
#[local] Unset Default Proof Using.

Section Cache.
Context {World : Type}.
Context (compile : string -> CompilerOptions -> World ->
                   Outcome CompiledResult * World).
Context (newFunction : string -> Function_ + string).
Context (mentionsCSP : string -> bool).

#[local] Abbreviation call := (compileToFunctions compile newFunction mentionsCSP).
#[local] Abbreviation after_ := (after compile newFunction mentionsCSP).

(** X8: the key of the cache is the text of the delimiters put
    before the template, so that a call without delimiters whose
    template is that very text gets the object made for the
    template with the delimiters, and [compile] never sees it. *)
Theorem delimiters_join_template production w before between
    template open close options options' r :
  let s := after_ production before (createCompileToFunctionFn w) in
  let first := call production template options s in
  let s2 := after_ production between first.1.2 in
  delimiters options = Some (open, close) ->
  delimiters options' = None ->
  first.1.1 = Ok r ->
  exists evs,
    call production (open ++ "," ++ close ++ template)%string options' s2
    = (Ok r, s2, evs)
    /\ existsb compiles evs = false.
Proof.
  intros s first s2 Hd Hn Hr.
  pose proof (returned compile newFunction mentionsCSP production
                template options s r Hr) as Hc.
  fold first in Hc.
  destruct (after_extends compile newFunction mentionsCSP production
              between first.1.2) as [Hcache _].
  fold s2 in Hcache.
  apply hit. apply Hcache.
  unfold key_of in *. rewrite Hn. rewrite Hd in Hc. exact Hc.
Qed.

Lemma filter_report template options compiled :
  List.filter compiles (report template options compiled) = [].
Proof.
  unfold report. rewrite List.filter_app.
  replace (List.filter compiles (map EvTip (tips compiled))) with (@nil Event)
    by (induction (tips compiled); [reflexivity|assumption]).
  rewrite app_nil_r.
  destruct (errors compiled) as [|e es]; [reflexivity|].
  destruct (outputSourceRange options); [|reflexivity].
  induction (e :: es); [reflexivity|assumption].
Qed.

(** X9: production changes nothing but the reports.  A call returns
    the same and leaves the same state in production as outside;
    the calls it makes in production are the calls of [compile] it
    makes outside, without any call of [warn] or [tip]. *)
Theorem production_only_silences template options (s : @State World) :
  (call true template options s).1 = (call false template options s).1
  /\ (call true template options s).2
     = List.filter compiles (call false template options s).2.
Proof.
  unfold compileToFunctions. cbn [negb].
  set (csp := match newFunction "return 1" with
              | inr err => if mentionsCSP err then _ else []
              | inl _ => []
              end).
  assert (Hcsp : List.filter compiles csp = []).
  { subst csp. destruct (newFunction "return 1"); [reflexivity|].
    destruct (mentionsCSP _); reflexivity. }
  destruct (cache s !! key_of options template) as [r|].
  { split; [reflexivity|]. cbn [fst snd]. now rewrite Hcsp. }
  destruct (compile _ _ _) as [[compiled|e|] w'];
    [|split; [reflexivity|]; cbn [fst snd];
      rewrite List.filter_app, Hcsp; reflexivity..].
  destruct (createFunction _ _) as [render e1].
  split; [reflexivity|].
  cbn [snd]. rewrite !List.filter_app, Hcsp, filter_report. cbn.
  destruct (errors compiled); [|reflexivity].
  destruct (e1 ++ _); reflexivity.
Qed.

(** X10: a call that finds nothing in the cache returns an object
    that is new, one that no key led to before, and files it under its
    key only; a call in which [compile] throws leaves the cache and
    the objects as they were, so that the next call compiles
    again. *)
Theorem miss_makes_new_object production w before template options :
  let s := after_ production before (createCompileToFunctionFn w) in
  let r := call production template options s in
  cache s !! key_of options template = None ->
  match r.1.1 with
  | Ok o =>
    results s !! o = None
    /\ (forall k, cache s !! k <> Some o)
    /\ is_Some (results r.1.2 !! o)
    /\ cache r.1.2 = <[key_of options template := o]> (cache s)
  | _ =>
    cache r.1.2 = cache s /\ results r.1.2 = results s
    /\ existsb compiles
         (call production template options r.1.2).2 = true
  end.
Proof.
  intros s r Hk.
  assert (Hs : sound s).
  { apply after_sound, created_sound. }
  subst r.
  destruct (call production template options s) as [[o s'] evs] eqn:Hcall.
  unfold compileToFunctions in Hcall. rewrite Hk in Hcall.
  destruct (compile template _ (world s)) as [[compiled|e|] w'] eqn:Hc.
  - destruct (createFunction _ _) as [render e1].
    injection Hcall as <- <- _. cbn [fst snd cache results].
    split_and!.
    + apply lookup_ge_None. lia.
    + intros k Hko. apply Hs in Hko. lia.
    + apply lookup_lt_is_Some. rewrite length_app. cbn. lia.
    + reflexivity.
  - injection Hcall as <- <- _. cbn [fst snd cache results].
    split_and!; [reflexivity..|]. now apply miss.
  - injection Hcall as <- <- _. cbn [fst snd cache results].
    split_and!; [reflexivity..|]. now apply miss.
Qed.

End Cache.

End CacheMore.

Module CompilerFacts.
Import HtmlParser HtmlSpec HtmlFacts CreateCompiler CompilerSpec.
#[local] Open Scope list_scope.
#[local] Unset Default Proof Using.

(** ** White space *)

Lemma append_cons c a b : (String c a ++ b)%string = String c (a ++ b)%string.
Proof. reflexivity. Qed.

Lemma span_append cls s : (fst (span cls s) ++ snd (span cls s))%string = s.
Proof.
  induction s as [|c s IH]; [done|]. cbn [span].
  destruct (cls c); [|done].
  destruct (span cls s) as [a b]. cbn [fst snd] in *.
  change (String c (a ++ b)%string = String c s). by rewrite IH.
Qed.

Lemma span_head cls s :
  match snd (span cls s) with
  | EmptyString => True
  | String c _ => cls c = false
  end.
Proof.
  induction s as [|c s IH]; [done|]. cbn [span].
  destruct (cls c) eqn:Hc; [|by cbn].
  by destruct (span cls s) as [a b].
Qed.

Lemma span_stuck cls s :
  match s with EmptyString => True | String c _ => cls c = false end ->
  span cls s = (EmptyString, s).
Proof. destruct s as [|c s]; [done|]. cbn. by intros ->. Qed.

Lemma drop_append a b : drop (String.length a) (a ++ b)%string = b.
Proof. induction a as [|c a IH]; [done|]. exact IH. Qed.

Lemma trimStart_drop s : trimStart s = drop (leadingSpaceLength s) s.
Proof.
  unfold trimStart, leadingSpaceLength.
  rewrite <- (span_append is_space s) at 3. by rewrite drop_append.
Qed.

Lemma append_nil_r s : (s ++ "")%string = s.
Proof. induction s as [|c s IH]; [done|]. by rewrite append_cons, IH. Qed.

Lemma append_assoc a b c : ((a ++ b) ++ c)%string = (a ++ (b ++ c))%string.
Proof. induction a as [|x a IH]; [done|]. by rewrite !append_cons, IH. Qed.

Lemma reverse_acc s acc :
  reverse s acc = (reverse s "" ++ acc)%string.
Proof.
  revert acc. induction s as [|c s IH]; intros acc; [done|].
  cbn [reverse].
  rewrite (IH (String c acc)), (IH (String c "")).
  by rewrite append_assoc.
Qed.

Lemma reverse_append a b :
  reverse (a ++ b)%string "" = (reverse b "" ++ reverse a "")%string.
Proof.
  induction a as [|c a IH]; [by rewrite append_nil_r|].
  rewrite append_cons. cbn [reverse].
  rewrite (reverse_acc (a ++ b)), IH, (reverse_acc a (String c "")).
  by rewrite append_assoc.
Qed.

Lemma reverse_reverse s : reverse (reverse s "") "" = s.
Proof.
  induction s as [|c s IH]; [done|]. cbn [reverse].
  rewrite (reverse_acc s), reverse_append, IH. done.
Qed.

(** What [trimEnd] takes off. *)
Lemma trimEnd_append s :
  (trimEnd s ++ reverse (fst (span is_space (reverse s ""))) "")%string = s.
Proof.
  unfold trimEnd, trimStart.
  rewrite <- reverse_append, span_append. apply reverse_reverse.
Qed.

Lemma trimEnd_again s : trimEnd (trimEnd s) = trimEnd s.
Proof.
  unfold trimEnd at 1. unfold trimEnd at 1. rewrite reverse_reverse.
  unfold trimStart at 1.
  rewrite (span_stuck is_space (trimStart (reverse s "")));
    [done|apply span_head].
Qed.

Lemma trimStart_stuck s :
  match s with EmptyString => True | String c _ => is_space c = false end ->
  trimStart s = s.
Proof. intros H. unfold trimStart. by rewrite span_stuck. Qed.

Lemma trim_head s :
  match trim s with
  | EmptyString => True
  | String c _ => is_space c = false
  end.
Proof.
  unfold trim. pose proof (span_head is_space s) as Hh.
  fold (trimStart s) in Hh.
  pose proof (trimEnd_append (trimStart s)) as Ha.
  destruct (trimEnd (trimStart s)) as [|c t]; [done|].
  rewrite <- Ha in Hh. exact Hh.
Qed.

Lemma take_append a b n :
  n <= String.length a -> take n (a ++ b)%string = take n a.
Proof.
  revert n. induction a as [|c a IH]; intros [|n] Hn; cbn in Hn;
    try done; try lia.
  rewrite append_cons. cbn [take]. rewrite IH by lia. done.
Qed.

Lemma drop_append_l a b n :
  n <= String.length a -> drop n (a ++ b)%string = (drop n a ++ b)%string.
Proof.
  revert n. induction a as [|c a IH]; intros [|n] Hn; cbn in Hn;
    try done; try lia.
  rewrite append_cons. cbn [drop]. apply IH. lia.
Qed.

Lemma substring_append a b s t :
  a <= b -> b <= String.length s ->
  substring a b (s ++ t)%string = substring a b s.
Proof.
  intros Hab Hb. unfold substring.
  rewrite Nat.min_l, Nat.max_r by lia.
  rewrite drop_append_l by lia. apply take_append.
  rewrite drop_length. lia.
Qed.

Lemma substring_drop a b n s :
  a <= b -> substring (a + n) (b + n) s = substring a b (drop n s).
Proof.
  intros Hab. unfold substring.
  rewrite !Nat.min_l, !Nat.max_r by lia.
  rewrite drop_drop. f_equal; [lia|]. f_equal. lia.
Qed.


(** ** Errors and tips *)

Lemma warn_fold shift calls st :
  fold_left (warn shift) calls st
  = (st.1 ++ map (data shift) (List.filter (fun c => negb (w_tip c)) calls),
     st.2 ++ map (data shift) (List.filter w_tip calls)).
Proof.
  revert st. induction calls as [|c calls IH]; intros [e t]; cbn.
  { by rewrite !app_nil_r. }
  rewrite IH. unfold warn. destruct (w_tip c); cbn;
    by rewrite <- ?app_assoc.
Qed.

Section Compiler.
Context {Mod Dir V Ast World : Type}.
Context (truthy : V -> bool).
Context (baseCompile : string -> @FinalOptions Mod Dir V -> World ->
                       Outcome (@Generated Ast) * list WarnCall * World).
Context (detectErrors : Ast -> World -> Outcome unit * list WarnCall * World).
Context (production : bool).

#[local] Abbreviation compile :=
  (compile truthy baseCompile detectErrors production).
#[local] Abbreviation calls_of :=
  (calls_of truthy baseCompile detectErrors production).
#[local] Abbreviation shift_of := (shift_of truthy production).

(** X20: no diagnostic is lost or repeated.  When [compile] returns,
    [errors] holds what the calls of [warn] without [tip] gave and
    [tips] what the calls with [tip] gave, each in the order of the
    calls, those of [baseCompile] before those of [detectErrors];
    they are messages, and objects with ranges only outside
    production when [outputSourceRange] is set. *)
Theorem diagnostics_in_order baseOptions template options w c w' :
  compile baseOptions template options w = (Ok c, w') ->
  let calls := calls_of baseOptions template options w in
  let shift := shift_of template options in
  errors c = map (data shift) (List.filter (fun c => negb (w_tip c)) calls)
  /\ tips c = map (data shift) (List.filter w_tip calls)
  /\ length (errors c) + length (tips c) = length calls
  /\ (shift <> None ->
      production = false
      /\ exists o, options = Some o /\ outputSourceRange truthy o = true).
Proof.
  unfold CreateCompiler.compile, CompilerSpec.calls_of. cbv zeta.
  destruct (baseCompile _ _ w) as [[[g| |] calls1] w1]; try done.
  assert (Hlen : forall l : list WarnCall,
            length (map (data (shift_of template options))
                      (List.filter (fun c => negb (w_tip c)) l))
            + length (map (data (shift_of template options))
                        (List.filter w_tip l)) = length l).
  { intros l. rewrite !length_map.
    induction l as [|x l IH]; [done|]. cbn. destruct (w_tip x); cbn; lia. }
  assert (Hshift : shift_of template options <> None ->
            production = false
            /\ exists o, options = Some o
                         /\ outputSourceRange truthy o = true).
  { unfold CreateCompiler.shift_of. destruct options as [o|]; [|done].
    destruct production; [done|]. cbn.
    destruct (outputSourceRange truthy o) eqn:Ho; [|done].
    intros _. eauto. }
  destruct production eqn:Hp.
  - intros [= <- _]. cbn [errors tips]. rewrite warn_fold, app_nil_r. cbn.
    split_and!; done.
  - destruct (detectErrors (g_ast g) w1) as [[[[]| |] calls2] w2] eqn:Hd;
      try done.
    intros [= <- _]. cbn [errors tips]. rewrite !warn_fold. cbn.
    rewrite !List.filter_app, !map_app.
    split_and!; try done. rewrite <- !map_app, <- !List.filter_app.
    apply Hlen.
Qed.

End Compiler.

End CompilerFacts.

Module InitFacts.
Import Init InitSpec.
#[local] Open Scope list_scope.
#[local] Unset Default Proof Using.

Lemma modified_none latest sealed keys (acc : option (gmap string Value)) :
  fold_left
    (fun modified key =>
       if strict_neq (get latest key) (get sealed key)
       then Some (<[key := get latest key]> (default ∅ modified))
       else modified) keys acc = None
  <-> acc = None
      /\ forall key, key ∈ keys ->
            strict_eq (get latest key) (get sealed key) = true.
Proof.
  revert acc. induction keys as [|k keys IH]; intros acc; cbn [fold_left].
  { split; [|by intros [-> _]]. intros ->. split; [done|].
    intros key Hk. by apply elem_of_nil in Hk. }
  rewrite IH. unfold strict_neq.
  destruct (strict_eq (get latest k) (get sealed k)) eqn:Hk; cbn [negb].
  - split; intros [Ha H]; (split; [done|]).
    + intros key [->|Hin]%elem_of_cons; auto.
    + intros key Hin. apply H. apply elem_of_cons. by right.
  - split; [by intros [? _]|]. intros [_ H].
    rewrite H in Hk; [done|]. apply elem_of_cons. by left.
Qed.

Lemma modified_lookup latest sealed keys (acc : option (gmap string Value))
    m key :
  fold_left
    (fun modified key =>
       if strict_neq (get latest key) (get sealed key)
       then Some (<[key := get latest key]> (default ∅ modified))
       else modified) keys acc = Some m ->
  m !! key = if differs latest sealed keys key then Some (get latest key)
             else default ∅ acc !! key.
Proof.
  revert acc. induction keys as [|k keys IH]; intros acc; cbn [fold_left].
  { by intros ->. }
  intros Hr. rewrite (IH _ Hr). unfold differs. cbn [existsb].
  destruct (String.eqb_spec key k) as [->|Hne]; cbn [orb].
  - destruct (strict_neq (get latest k) (get sealed k)) eqn:Hk;
      rewrite ?andb_true_r, ?andb_false_r; [|done].
    destruct (existsb _ keys); [done|]. cbn. by rewrite lookup_insert_eq.
  - destruct (existsb _ keys && _); [done|].
    destruct (strict_neq (get latest k) (get sealed k)); [|done].
    cbn. by rewrite lookup_insert_ne.
Qed.

Lemma existsb_elem_of key keys :
  existsb (String.eqb key) keys = true <-> key ∈ keys.
Proof.
  rewrite existsb_exists. split.
  - intros (x & Hx%list_elem_of_In & ->%String.eqb_eq). done.
  - intros H. exists key. split; [by apply list_elem_of_In|].
    apply String.eqb_refl.
Qed.

(** X21: [resolveModifiedOptions] returns [undefined] exactly when
    every key of the options has the value it had when the options
    were sealed; otherwise it returns an object that holds, for each
    key whose value differs, the present value, and nothing else: a
    key that is no longer among the options is not reported. *)
Theorem modified_options latest sealed :
  (resolveModifiedOptions latest sealed = None <->
   forall key, key ∈ map fst latest ->
     strict_eq (get latest key) (get sealed key) = true)
  /\ (forall m key v,
        resolveModifiedOptions latest sealed = Some m ->
        m !! key = Some v <->
        key ∈ map fst latest /\ v = get latest key
        /\ strict_eq (get latest key) (get sealed key) = false).
Proof.
  unfold resolveModifiedOptions. split.
  - rewrite modified_none. split; [by intros [_ ?]|by intros ?].
  - intros m key v Hr.
    rewrite (modified_lookup _ _ _ _ _ key Hr). unfold differs, strict_neq.
    destruct (existsb _ _) eqn:He; cbn [andb].
    + apply existsb_elem_of in He.
      destruct (strict_eq (get latest key) (get sealed key)); cbn.
      * rewrite lookup_empty. split; [done|]. by intros (_ & _ & ?).
      * split; [by intros [= <-]|]. by intros (_ & -> & _).
    + cbn. rewrite lookup_empty. split; [done|]. intros (Hin & _).
      apply existsb_elem_of in Hin. congruence.
Qed.

End InitFacts.

(** * The observer: teardown, deletion and root data *)

Module WatcherMore.
Import Reactive ReactiveSpec ReactiveFacts DepFacts WatcherSpec.
#[local] Open Scope list_scope.
#[local] Unset Default Proof Using.

#[local] Arguments bind : simpl never.
#[local] Arguments gets : simpl never.
#[local] Arguments ret : simpl never.
#[local] Arguments modify : simpl never.

(** The loop of [teardown] is the loop of [cleanupDeps] when no dep
    was collected. *)
Lemma unsubscribe_loop w l s :
  for_each l (fun d => removeSub d w) s = cleanup_loop w ∅ l s.
Proof.
  revert s. induction l as [|d l IH]; intros s; [done|].
  cbn [for_each cleanup_loop]. rewrite !run_bind.
  rewrite bool_decide_eq_false_2 by set_solver.
  by rewrite IH.
Qed.

Lemma teardown_vm_untouched lvm w s :
  let s1 :=
    match vms s !! lvm with
    | Some V =>
      if vm_isBeingDestroyed V then s
      else set_vm lvm (mkVm (remove (vm_watchers V) w) (vm_watcher V)
                            (vm_isBeingDestroyed V)) s
    | None => s
    end in
  untouched s s1.
Proof.
  cbv zeta. destruct (vms s !! lvm) as [V|]; [|apply untouched_refl].
  destruct (vm_isBeingDestroyed V); [apply untouched_refl|].
  by repeat split.
Qed.

Lemma untouched_subs s s' d : untouched s s' -> subs_of s' d = subs_of s d.
Proof. intros (Hs & _). unfold subs_of. by rewrite Hs. Qed.

Lemma untouched_deps s s' w :
  untouched s s' -> w_deps (watcher s' w) = w_deps (watcher s w).
Proof.
  intros (_ & Hw & _). specialize (Hw w). unfold tracked in Hw. congruence.
Qed.

Lemma teardown_active w vm s :
  w_active (watcher s w) = true ->
  w_vm (watcher s w) = VRef vm ->
  let s2 := st (cleanup_loop w ∅ (rev (w_deps (watcher s w)))
                  (unlisted vm w s)) in
  teardown w s
  = mkRes (Ok tt) (set_watcher w (with_active false (watcher s2 w)) s2) [].
Proof.
  intros Ha Hvm. cbv zeta. unfold teardown.
  rewrite bind_gets, Ha, Hvm, bind_modify.
  rewrite run_bind, unsubscribe_loop.
  destruct (cleanup_loop_ok w ∅ (rev (w_deps (watcher s w)))
              (unlisted vm w s)) as [Ho He].
  fold (unlisted vm w s). by rewrite Ho, He.
Qed.

Lemma teardown_inactive w s :
  w_active (watcher s w) = false -> teardown w s = mkRes (Ok tt) s [].
Proof. intros Ha. unfold teardown. by rewrite bind_gets, Ha. Qed.

Lemma run_inactive E n w s :
  w_active (watcher s w) = false -> run E n w s = mkRes (Ok tt) s [].
Proof. intros Ha. unfold run. by rewrite bind_gets, Ha. Qed.

(** X11: [teardown] of an active watcher of a component takes it out
    of the subscribers of every dep in [deps] and of no other list,
    leaves every other subscriber where it was, and makes the watcher
    inactive; after that a second [teardown] and [run] do nothing. *)
Theorem teardown_unsubscribes E n w vm s :
  Inv s ->
  w_active (watcher s w) = true ->
  w_vm (watcher s w) = VRef vm ->
  let s' := st (teardown w s) in
  out (teardown w s) = Ok tt
  /\ evs (teardown w s) = []
  /\ (forall d, d ∈ w_deps (watcher s w) -> w ∉ subs_of s' d)
  /\ (forall d x, x <> w -> x ∈ subs_of s' d <-> x ∈ subs_of s d)
  /\ (forall d, d ∉ w_deps (watcher s w) -> subs_of s' d = subs_of s d)
  /\ w_active (watcher s' w) = false
  /\ teardown w s' = mkRes (Ok tt) s' []
  /\ run E n w s' = mkRes (Ok tt) s' [].
Proof.
  intros HI Ha Hvm. cbv zeta.
  rewrite (teardown_active w vm s Ha Hvm). cbv zeta. cbn [out st evs].
  pose proof (teardown_vm_untouched vm w s) as Hu. cbv zeta in Hu.
  fold (unlisted vm w s) in Hu.
  assert (HI1 : Inv (unlisted vm w s)) by (eapply inv_untouched; eauto).
  destruct (cleanup_loop_spec w ∅ (rev (w_deps (watcher s w)))
              (unlisted vm w s) HI1)
    as (I1 & I2 & I3 & I4 & I5 & I6 & I7 & I8 & I9).
  set (s2 := st (cleanup_loop w ∅ (rev (w_deps (watcher s w)))
                   (unlisted vm w s))) in *.
  set (s3 := set_watcher w (with_active false (watcher s2 w)) s2).
  assert (Hw3 : w_active (watcher s3 w) = false).
  { subst s3. rewrite watcher_set_watcher. by rewrite decide_True. }
  split_and!; try done.
  - intros d Hd. change (subs_of s3 d) with (subs_of s2 d).
    apply I8; [by rewrite elem_of_rev|set_solver].
  - intros d x Hx. change (subs_of s3 d) with (subs_of s2 d).
    rewrite <- (untouched_subs s _ d Hu). split; [apply I6|by apply I7].
  - intros d Hd. change (subs_of s3 d) with (subs_of s2 d).
    rewrite <- (untouched_subs s _ d Hu). apply I9. left.
    by rewrite elem_of_rev.
  - by apply teardown_inactive.
  - by apply run_inactive.
Qed.

(** One call of [depend] under the target [t]. *)
Lemma depend_step d t s :
  active (target s) = Some t ->
  let s' := st (depend d s) in
  (forall d', subs_of s' d'
     = if bool_decide (d' = d /\ (d ∉ w_newDepIds (watcher s t))
                        /\ (d ∉ w_depIds (watcher s t)))
       then subs_of s d ++ [t] else subs_of s d')
  /\ w_depIds (watcher s' t) = w_depIds (watcher s t)
  /\ (forall d', d' ∈ w_newDepIds (watcher s' t)
                 <-> d' = d \/ d' ∈ w_newDepIds (watcher s t)).
Proof.
  intros Ht. cbv zeta. unfold depend. rewrite bind_gets, Ht, addDep_st.
  cbv zeta. case_bool_decide as Hnew.
  { split_and!; [|done|set_solver].
    intros d'. rewrite bool_decide_eq_false_2; [done|]. naive_solver. }
  case_bool_decide as Hold.
  { split_and!.
    - intros d'. rewrite bool_decide_eq_false_2 by naive_solver. done.
    - rewrite watcher_set_watcher. by rewrite decide_True.
    - intros d'. rewrite watcher_set_watcher, decide_True by done.
      cbn. set_solver. }
  split_and!.
  - intros d'. rewrite subs_of_set_subs, !subs_of_set_watcher.
    case_decide as Hd; case_bool_decide as Hb; subst; try done; naive_solver.
  - rewrite watcher_set_subs, watcher_set_watcher. by rewrite decide_True.
  - intros d'. rewrite watcher_set_subs, watcher_set_watcher,
      decide_True by done.
    cbn. set_solver.
Qed.

Lemma reads_subscribe t reads s :
  active (target s) = Some t ->
  let s1 := st (for_each reads depend s) in
  (forall d x, x <> t -> x ∈ subs_of s1 d <-> x ∈ subs_of s d)
  /\ (forall d, t ∈ subs_of s d -> t ∈ subs_of s1 d)
  /\ (forall d, d ∈ reads -> d ∉ w_depIds (watcher s t) ->
                d ∉ w_newDepIds (watcher s t) -> t ∈ subs_of s1 d).
Proof.
  revert s. induction reads as [|d0 reads IH]; intros s Ht.
  { cbn. split_and!; [done..|]. intros d Hd. by apply elem_of_nil in Hd. }
  cbv zeta. rewrite reads_cons.
  destruct (depend_step d0 t s Ht) as (S1 & S2 & S3). cbv zeta in *.
  destruct (depend_frame d0 s) as (F1 & _). cbv zeta in F1.
  destruct (IH (st (depend d0 s))) as (I1 & I2 & I3); [by rewrite F1|].
  cbv zeta in *.
  assert (Hmono : forall d, t ∈ subs_of s d -> t ∈ subs_of (st (depend d0 s)) d).
  { intros d Hd. rewrite S1. case_bool_decide as Hb; [|done].
    destruct Hb as (-> & _). set_solver. }
  split_and!.
  - intros d x Hx. rewrite (I1 d x Hx), S1.
    case_bool_decide as Hb; [|done]. destruct Hb as (-> & _). set_solver.
  - intros d Hd. by apply I2, Hmono.
  - intros d Hd Ho Hn. destruct (decide (d = d0)) as [->|Hne].
    + apply I2. rewrite S1, bool_decide_eq_true_2 by done. set_solver.
    + apply I3.
      * set_solver.
      * by rewrite S2.
      * rewrite S3. tauto.
Qed.

(** X12: [depend] of a watcher hands its deps on to the watcher
    under evaluation: every dep in [deps] is then among the new deps
    of the target, the target is a subscriber of each of them that it
    did not know, and no other watcher is subscribed or unsubscribed;
    without a target nothing happens. *)
Theorem depend_hands_deps_on w s :
  Inv s ->
  let s' := st (watcher_depend w s) in
  out (watcher_depend w s) = Ok tt
  /\ evs (watcher_depend w s) = []
  /\ match active (target s) with
     | Some t =>
       (forall d, d ∈ w_newDeps (watcher s' t)
                  <-> d ∈ w_newDeps (watcher s t) \/ d ∈ w_deps (watcher s w))
       /\ (forall d, d ∈ w_deps (watcher s w) ->
                     d ∉ w_deps (watcher s t) ->
                     d ∉ w_newDeps (watcher s t) -> t ∈ subs_of s' d)
       /\ (forall d, t ∈ subs_of s d -> t ∈ subs_of s' d)
       /\ (forall d x, x <> t -> x ∈ subs_of s' d <-> x ∈ subs_of s d)
     | None => s' = s
     end.
Proof.
  intros HI. cbv zeta. unfold watcher_depend. rewrite !bind_gets.
  destruct (reads_ok (rev (w_deps (watcher s w))) s) as [Ho He].
  split_and!; [done..|].
  destruct (active (target s)) as [t|] eqn:Ht.
  - destruct (reads_spec t (rev (w_deps (watcher s w))) s HI Ht)
      as (_ & _ & _ & _ & _ & _ & _ & R).
    destruct (reads_subscribe t (rev (w_deps (watcher s w))) s Ht)
      as (S1 & S2 & S3).
    cbv zeta in *. split_and!; [|..|done].
    + intros d. rewrite R, elem_of_rev. done.
    + intros d Hd Ho' Hn. apply S3.
      * by rewrite elem_of_rev.
      * by rewrite (inv_depIds _ HI).
      * by rewrite (inv_newDepIds _ HI).
    + done.
  - clear Ho He. induction (rev (w_deps (watcher s w))) as [|d l IH];
      [done|].
    rewrite reads_cons, (depend_no_target d s Ht). exact IH.
Qed.

End WatcherMore.

Module GetterFacts.
Import Reactive ReactiveSpec ReactiveFacts DepFacts InstallFacts.
Import WatcherMore GetterSpec.
#[local] Open Scope list_scope.
#[local] Unset Default Proof Using.

#[local] Arguments bind : simpl never.
#[local] Arguments gets : simpl never.
#[local] Arguments ret : simpl never.
#[local] Arguments modify : simpl never.

Lemma depend_observers d s : observers (st (depend d s)) = observers s.
Proof.
  unfold depend. rewrite bind_gets. destruct (active (target s)); [|done].
  rewrite addDep_st. cbv zeta. by repeat case_bool_decide.
Qed.

Lemma depend_heap d s : heap (st (depend d s)) = heap s.
Proof.
  unfold depend. rewrite bind_gets. destruct (active (target s)); [|done].
  rewrite addDep_st. cbv zeta. by repeat case_bool_decide.
Qed.

Lemma reads_heap reads s :
  heap (st (for_each reads depend s)) = heap s
  /\ cells (st (for_each reads depend s)) = cells s.
Proof.
  revert s. induction reads as [|d reads IH]; intros s; [done|].
  rewrite reads_cons. destruct (IH (st (depend d s))) as [-> ->].
  by rewrite depend_heap, depend_cells.
Qed.

(** What a reading under a target comes to. *)
Lemma reactiveGetter_reads E n c s w :
  active (target s) = Some w ->
  c_getter (cell s c) = None ->
  is_array s (c_val (cell s c)) = false ->
  reactiveGetter E n c s
  = mkRes (Ok (c_val (cell s c))) (st (for_each (deps_read s c) depend s)) [].
Proof.
  intros Ht Hg Ha. unfold reactiveGetter, reactiveGetter_with, deps_read.
  rewrite bind_gets, Hg, bind_ret, bind_gets, Ht.
  rewrite run_bind.
  set (body := (depend (c_dep (cell s c)) ;; _)).
  assert (Hbody : body s
                  = mkRes (Ok tt)
                      (st (for_each
                             (c_dep (cell s c)
                              :: match c_childOb (cell s c) with
                                 | Some ob => [ob_dep (observer s ob)]
                                 | None => []
                                 end) depend s)) []).
  { subst body. rewrite reads_cons, run_bind.
    destruct (depend_ok (c_dep (cell s c)) s) as [-> ->].
    set (s1 := st (depend (c_dep (cell s c)) s)).
    cbn [app]. rewrite bind_gets.
    assert (cell s1 c = cell s c) as ->
      by (unfold cell; subst s1; by rewrite depend_cells).
    destruct (c_childOb (cell s c)) as [ob|]; [|done].
    rewrite run_bind, bind_gets.
    assert (observer s1 ob = observer s ob) as ->
      by (unfold observer; subst s1; by rewrite depend_observers).
    destruct (depend_ok (ob_dep (observer s ob)) s1) as [-> ->].
    cbn [app]. rewrite bind_gets.
    set (s2 := st (depend (ob_dep (observer s ob)) s1)).
    assert (is_array s2 (c_val (cell s c)) = false) as ->.
    { unfold is_array, obj in *. destruct (c_val (cell s c)); try done.
      subst s2 s1. by rewrite !depend_heap. }
    cbn [for_each]. rewrite run_bind.
    fold s2. destruct (depend_ok (ob_dep (observer s ob)) s1) as [Ho _].
    rewrite Ho. cbn. by destruct (c_val (cell s c)). }
  rewrite Hbody. cbn [out st evs app]. reflexivity.
Qed.

(** X22: a reading collects the dependency.  A reading through
    [reactiveGetter], while a watcher is evaluated, of a property
    that has no getter of its own and whose value is not an array
    returns the value and changes no object; after it the dep of the
    property, and the dep of the observer of the value when it has
    one, are among the new deps of the watcher, and the watcher is a
    subscriber of each of them that it did not know. *)
Theorem reading_collects E n c w s :
  Inv s ->
  active (target s) = Some w ->
  c_getter (cell s c) = None ->
  is_array s (c_val (cell s c)) = false ->
  let r := reactiveGetter E n c s in
  out r = Ok (c_val (cell s c)) /\ evs r = []
  /\ heap (st r) = heap s /\ cells (st r) = cells s
  /\ (forall d, d ∈ w_newDeps (watcher (st r) w)
                <-> d ∈ w_newDeps (watcher s w) \/ d ∈ deps_read s c)
  /\ (forall d, d ∈ deps_read s c ->
                d ∉ w_deps (watcher s w) -> d ∉ w_newDeps (watcher s w) ->
                w ∈ subs_of (st r) d)
  /\ (forall d x, x <> w -> x ∈ subs_of (st r) d <-> x ∈ subs_of s d).
Proof.
  intros HI Ht Hg Ha. cbv zeta.
  rewrite (reactiveGetter_reads E n c s w Ht Hg Ha). cbn [out st evs].
  destruct (reads_heap (deps_read s c) s) as [Hh Hc].
  destruct (reads_spec w (deps_read s c) s HI Ht)
    as (_ & _ & _ & _ & _ & _ & _ & R).
  destruct (reads_subscribe w (deps_read s c) s Ht) as (S1 & _ & S3).
  cbv zeta in *. split_and!; try done.
  intros d Hd Ho Hn. apply S3; [done|..].
  - by rewrite (inv_depIds _ HI).
  - by rewrite (inv_newDepIds _ HI).
Qed.

End GetterFacts.

Module DeletingFacts.
Import Reactive ReactiveSpec ReactiveFacts Deleting.
#[local] Open Scope list_scope.
#[local] Unset Default Proof Using.

#[local] Arguments bind : simpl never.
#[local] Arguments gets : simpl never.
#[local] Arguments ret : simpl never.
#[local] Arguments modify : simpl never.

Section WithEnv.
Context (E : Env).

Lemma del_refused n l key s :
  (isArray (obj s l) = false \/ isValidArrayIndex E key = None) ->
  o_isVue (obj s l) = true
  \/ (exists ob, ob_of s l = Some ob /\ ob_vmCount (observer s ob) <> 0) ->
  del E n (VRef l) key s
  = mkRes (Ok tt) s
      (if production E then []
       else [EvWarn ("Avoid deleting properties on a Vue instance or its root $data " ++
                     "- just set it to null.")]).
Proof.
  intros Hk Hroot. unfold del. rewrite bind_gets.
  assert ((if isArray (obj s l) then isValidArrayIndex E key else None)
          = None) as ->.
  { destruct Hk as [-> | ->]; [done|]. by destruct (isArray _). }
  rewrite !bind_gets.
  assert (o_isVue (obj s l)
          || negb (Nat.eqb (match ob_of s l with
                            | Some ob => ob_vmCount (observer s ob)
                            | None => 0
                            end) 0) = true) as ->.
  { destruct Hroot as [-> | (ob & -> & Hn)]; [done|].
    apply orb_true_iff. right. apply negb_true_iff.
    by apply Nat.eqb_neq. }
  by destruct (production E).
Qed.

Lemma del_missing n l key s :
  (isArray (obj s l) = false \/ isValidArrayIndex E key = None) ->
  o_isVue (obj s l) = false ->
  match ob_of s l with
  | Some ob => ob_vmCount (observer s ob) = 0
  | None => True
  end ->
  own (obj s l) key = None ->
  del E n (VRef l) key s = mkRes (Ok tt) s [].
Proof.
  intros Hk Hv Hob Ho. unfold del. rewrite bind_gets.
  assert ((if isArray (obj s l) then isValidArrayIndex E key else None)
          = None) as ->.
  { destruct Hk as [-> | ->]; [done|]. by destruct (isArray _). }
  rewrite !bind_gets, Hv, Ho.
  destruct (ob_of s l) as [ob|]; [rewrite Hob|]; done.
Qed.


Lemma without_absent k l : assoc k l = None -> without k l = l.
Proof.
  induction l as [|[k' p'] l IH]; cbn; [done|].
  destruct (String.eqb k k'); [intros; discriminate|].
  intros H. by rewrite IH.
Qed.

Lemma without_insert_new k p l :
  assoc k l = None -> without k (insert_new k p l) = l.
Proof.
  induction l as [|[k' p'] l IH]; cbn.
  { by rewrite String.eqb_refl. }
  destruct (String.eqb k k') eqn:Hk; [intros; discriminate|]. intros Ha.
  specialize (IH Ha). pose proof (without_absent k l Ha) as Hw.
  destruct (array_index k) as [i|], (array_index k') as [i'|];
    try case_match; cbn; rewrite ?String.eqb_refl, ?Hk;
    rewrite ?IH, ?Hw; done.
Qed.

Lemma assoc_without k l : assoc k (without k l) = None.
Proof.
  induction l as [|[k' p'] l IH]; cbn; [done|].
  destruct (String.eqb k k') eqn:Hk; [done|]. cbn. by rewrite Hk.
Qed.

Lemma own_absent n s l k : find_prop n s l k = None -> own (obj s l) k = None.
Proof. destruct n; cbn; by destruct (own (obj s l) k). Qed.

Lemma with_props_same o : with_props (o_props o) (o_elems o) o = o.
Proof. by destruct o. Qed.

Lemma set_obj_back l o o1 s :
  heap s !! l = Some o -> set_obj l o (set_obj l o1 s) = s.
Proof.
  intros H. destruct s. unfold set_obj. cbn in *. f_equal.
  rewrite insert_insert_eq. by apply insert_id.
Qed.

Lemma obj_set_obj_eq l o s : obj (set_obj l o s) l = o.
Proof. unfold obj, set_obj. cbn. by rewrite lookup_insert_eq. Qed.

Lemma find_ob_set_obj n l o s l' :
  o_ob o = o_ob (obj s l) -> o_proto o = o_proto (obj s l) ->
  find_ob n (set_obj l o s) l' = find_ob n s l'.
Proof.
  intros Hob Hp. revert l'. induction n as [|n IH]; intros l'; cbn.
  - destruct (decide (l = l')) as [->|Hne].
    + by rewrite obj_set_obj_eq, Hob.
    + unfold obj, set_obj. cbn. by rewrite lookup_insert_ne.
  - destruct (decide (l = l')) as [->|Hne].
    + rewrite obj_set_obj_eq, Hob, Hp.
      destruct (o_ob (obj s l')); [done|].
      destruct (o_proto (obj s l')); [apply IH|done].
    + replace (obj (set_obj l o s) l') with (obj s l')
        by (unfold obj, set_obj; cbn; by rewrite lookup_insert_ne).
      destruct (o_ob (obj s l')); [done|].
      destruct (o_proto (obj s l')); [apply IH|done].
Qed.


Lemma own_remove_own o k p :
  own o k = Some p -> configurable p = true -> own (remove_own k o) k = None.
Proof.
  unfold own, remove_own. destruct (isArray o) eqn:Ha.
  - destruct (array_index k) as [i|] eqn:Hi.
    + intros _ _.
      assert (isArray (with_props (o_props o) (<[i:=None]> (o_elems o)) o)
              = true) as -> by done.
      cbn [with_props o_elems].
      destruct (decide (i < length (o_elems o))).
      * by rewrite list_lookup_insert_eq.
      * rewrite list_insert_ge by lia.
        rewrite lookup_ge_None_2 by lia. done.
    + assert (isArray (with_props (without k (o_props o)) (o_elems o) o)
              = true) as -> by done.
      destruct (String.eqb k "length").
      * intros [= <-]. done.
      * intros _ _. apply assoc_without.
  - intros _ _.
    assert (isArray (with_props (without k (o_props o)) (o_elems o) o)
            = false) as -> by done.
    apply assoc_without.
Qed.

(** X15: on an observed object that is not root data, [del] of an own
    property that can be deleted removes it and then notifies the
    dep of the observer: the watchers are called in a state in which
    the object no longer has the property. *)
Theorem del_notifies n l key p ob s :
  (isArray (obj s l) = false \/ isValidArrayIndex E key = None) ->
  o_isVue (obj s l) = false -> o_frozen (obj s l) = false ->
  ob_of s l = Some ob -> ob_vmCount (observer s ob) = 0 ->
  own (obj s l) key = Some p -> configurable p = true ->
  let s1 := set_obj l (remove_own key (obj s l)) s in
  del E n (VRef l) key s = notify E n (ob_dep (observer s ob)) s1
  /\ own (obj s1 l) key = None.
Proof.
  intros Hk Hv Hf Hob Hc Hown Hp. cbv zeta. split.
  - unfold del. rewrite bind_gets.
    assert ((if isArray (obj s l) then isValidArrayIndex E key else None)
            = None) as ->.
    { destruct Hk as [-> | ->]; [done|]. by destruct (isArray _). }
    rewrite !bind_gets, Hob, Hc, Hv, Hown. cbn [orb negb Nat.eqb].
    rewrite bool_decide_eq_true_2 by eauto. cbn [negb].
    unfold delete. rewrite bind_assoc, bind_gets, Hown, Hp, Hf. cbn [andb negb].
    rewrite bind_modify, bind_gets. done.
  - rewrite obj_set_obj_eq. by eapply own_remove_own.
Qed.

End WithEnv.

End DeletingFacts.

Module ObserveFacts.
Import Reactive ReactiveSpec ReactiveFacts DepFacts InstallFacts ObserveSpec.
#[local] Open Scope list_scope.
#[local] Unset Default Proof Using.

#[local] Arguments bind : simpl never.
#[local] Arguments gets : simpl never.
#[local] Arguments ret : simpl never.
#[local] Arguments modify : simpl never.

Section Keeps.
Context (P : State -> Prop).

Lemma keeps_ret {A} (a : A) : Keeps P (ret a).
Proof. by intros s. Qed.
Lemma keeps_throw {A} e : Keeps P (@throw A e).
Proof. by intros s. Qed.
Lemma keeps_diverge {A} : Keeps P (@diverge A).
Proof. by intros s. Qed.
Lemma keeps_gets {A} (f : State -> A) : Keeps P (gets f).
Proof. by intros s. Qed.
Lemma keeps_emit e : Keeps P (emit e).
Proof. by intros s. Qed.
Lemma keeps_modify f : (forall s, P s -> P (f s)) -> Keeps P (modify f).
Proof. intros H s Hs. by apply H. Qed.

Lemma keeps_bind {A B} (m : M A) (k : A -> M B) :
  Keeps P m -> (forall a, Keeps P (k a)) -> Keeps P (bind m k).
Proof.
  intros Hm Hk s Hs. rewrite run_bind. specialize (Hm s Hs).
  destruct (out (m s)); simpl; auto. by apply Hk.
Qed.

Lemma keeps_when b m : Keeps P m -> Keeps P (when b m).
Proof. destruct b; simpl; auto using keeps_ret. Qed.

Lemma keeps_for_each {A} (l : list A) body :
  (forall x, Keeps P (body x)) -> Keeps P (for_each l body).
Proof.
  intros H. induction l; simpl; [apply keeps_ret|].
  apply keeps_bind; auto.
Qed.

Lemma keeps_for_range from count body :
  (forall i, Keeps P (body i)) -> Keeps P (for_range from count body).
Proof.
  intros H. revert from. induction count; intros; simpl; [apply keeps_ret|].
  apply keeps_bind; auto.
Qed.

End Keeps.

Create HintDb keeps.
#[export] Hint Resolve keeps_ret keeps_throw keeps_diverge keeps_gets
  keeps_emit : keeps.

Ltac keeps :=
  repeat first
    [ match goal with |- forall _, _ => intro end
    | progress cbv zeta
    | solve [eauto with keeps]
    | apply keeps_bind
    | apply keeps_for_range
    | apply keeps_for_each
    | apply keeps_when
    | apply keeps_modify; intros ? ?; assumption
    | case_match ].

Section Observed.
Context (E : Env) (l : loc) (ob : nat).
#[local] Abbreviation P := (observed_by l ob).
Hypothesis user_keeps : EnvKeeps P E.

Lemma keeps_addSub d w : Keeps P (addSub d w).
Proof. unfold addSub. keeps. Qed.
Lemma keeps_addDep w d : Keeps P (addDep w d).
Proof. unfold addDep, addSub. keeps. Qed.
Lemma keeps_depend d : Keeps P (depend d).
Proof. unfold depend. pose proof keeps_addDep. keeps. Qed.
Lemma keeps_newDep : Keeps P newDep.
Proof. by intros s. Qed.
Lemma keeps_call_user f this args : Keeps P (call_user E f this args).
Proof. intros s Hs. by apply user_keeps. Qed.
#[local] Hint Resolve keeps_depend keeps_newDep keeps_call_user : keeps.

Lemma keeps_depend_on_ob e : Keeps P (depend_on_ob e).
Proof. unfold depend_on_ob. keeps. Qed.
#[local] Hint Resolve keeps_depend_on_ob : keeps.

Lemma keeps_get_prop_with cg l0 k :
  (forall g this, Keeps P (cg g this)) -> Keeps P (get_prop_with cg l0 k).
Proof. intros H. unfold get_prop_with. keeps. Qed.
#[local] Hint Resolve keeps_get_prop_with : keeps.

Lemma keeps_reading n :
  (forall g this, Keeps P (call_getter E n g this)) /\
  (forall l0, Keeps P (dependArray E n l0)).
Proof.
  induction n as [|n [IHg IHd]]; simpl.
  - split; intros; apply keeps_diverge.
  - split.
    + intros g this. destruct g; [keeps|].
      unfold reactiveGetter_with. keeps.
    + intros l0. unfold dependArray_with. keeps.
Qed.

Lemma keeps_get_prop n l0 k : Keeps P (get_prop E n l0 k).
Proof. apply keeps_get_prop_with. apply keeps_reading. Qed.
#[local] Hint Resolve keeps_get_prop : keeps.

Lemma put_own_fields k p o :
  o_ob (put_own k p o) = o_ob o
  /\ o_kind (put_own k p o) = o_kind o
  /\ o_isVNode (put_own k p o) = o_isVNode o.
Proof. unfold put_own. by repeat case_match. Qed.

Lemma keeps_defineProperty l0 k p : Keeps P (defineProperty l0 k p).
Proof.
  intros s Hs. unfold defineProperty. rewrite bind_gets.
  assert (Hput : P (set_obj l0 (put_own k p (obj s l0)) s)).
  { destruct Hs as (H1 & H2 & H3). unfold observed_by.
    rewrite obj_set_obj. case_decide as Hl; [subst l0|done].
    destruct (put_own_fields k p (obj s l)) as (F1 & F2 & F3).
    unfold isObject in *. by rewrite F1, F2, F3. }
  destruct (own (obj s l0) k) as [old|];
    [destruct (configurable old)|destruct (o_extensible (obj s l0))];
    done.
Qed.
#[local] Hint Resolve keeps_defineProperty : keeps.

Lemma keeps_defineReactive_with obs gp o key val cs shallow :
  (forall v b, Keeps P (obs v b)) ->
  (forall l0 k, Keeps P (gp l0 k)) ->
  Keeps P (defineReactive_with obs gp o key val cs shallow).
Proof. intros Ho Hg. unfold defineReactive_with. keeps. Qed.

Lemma keeps_newObserver obs gp value :
  value <> l ->
  (forall v b, Keeps P (obs v b)) ->
  (forall l0 k, Keeps P (gp l0 k)) ->
  Keeps P (newObserver obs gp value).
Proof.
  intros Hne Ho Hg. unfold newObserver, walk, observeArray.
  pose proof (keeps_defineReactive_with obs gp) as Hd.
  assert (Hw : forall b ob', Keeps P (modify (fun s =>
            set_obj value (with_ob (Some ob') b (obj s value)) s))).
  { intros b ob' s Hs. unfold modify. cbn [st]. unfold observed_by.
    by rewrite obj_set_obj, decide_False. }
  assert (Hw' : forall ob', Keeps P (modify (fun s =>
            set_obj value
              (with_ob (Some ob') (o_intercepted (obj s value))
                 (obj s value)) s))).
  { intros ob' s Hs. unfold modify. cbn [st]. unfold observed_by.
    by rewrite obj_set_obj, decide_False. }
  keeps.
Qed.

Lemma keeps_observe n v b : Keeps P (observe E n v b).
Proof.
  revert v b. induction n as [|n IH]; intros v b s Hs.
  - destruct v; try done. cbn [observe]. rewrite bind_gets.
    destruct (_ || _); [done|].
    destruct (o_ob (obj s l0)) as [ob0|] eqn:Hob.
    + rewrite bind_ret. destruct b; done.
    + rewrite run_bind, bind_gets. by destruct (_ && _).
  - destruct v; try done. cbn [observe]. rewrite bind_gets.
    destruct (_ || _); [done|].
    destruct (o_ob (obj s l0)) as [ob0|] eqn:Hob.
    + rewrite bind_ret. destruct b; done.
    + assert (Hne : l0 <> l).
      { intros ->. destruct Hs as (H1 & _). congruence. }
      pose proof (keeps_newObserver (observe E n) (get_prop E n) l0 Hne
                    IH (keeps_get_prop n)) as Hn.
      match goal with
      | |- P (st (?m s)) => assert (Keeps P m) as Hk; [|by apply Hk]
      end.
      keeps.
Qed.

Lemma counted_out {A} b f (x : A) s0 :
  out ((when b (modify f) ;; ret x) s0) = Ok x.
Proof. destruct b; cbn [when]; by rewrite ?bind_modify, ?bind_ret. Qed.

Lemma newObserver_attaches n s :
  out (newObserver (observe E n) (get_prop E n) l s) = Ok ob ->
  isObject (obj s l) = true -> o_isVNode (obj s l) = false ->
  P (st (newObserver (observe E n) (get_prop E n) l s)).
Proof.
  intros Ho Hio Hvn. revert Ho. unfold newObserver.
  rewrite run_bind. cbn [newDep out st evs].
  set (s1 := set_subs _ _ _).
  rewrite bind_gets, !bind_modify, bind_gets.
  set (ob' := next_observer s1).
  set (s2 := set_obj l _ _).
  set (body := if isArray (obj s2 l) then _ else _).
  assert (H2 : observed_by l ob' s2).
  { subst s2. unfold observed_by. rewrite obj_set_obj, decide_True by done.
    done. }
  rewrite run_bind. cbn [app].
  destruct (out (body s2)) as [[]| |] eqn:Hb; try done.
  cbn [ret out st]. intros [= Heq]. clearbody ob'. subst ob'.
  assert (Hk : Keeps P body); [|by apply Hk].
  subst body. pose proof (keeps_observe n) as Hobs.
  pose proof (keeps_get_prop n) as Hgp.
  pose proof (keeps_defineReactive_with (observe E n) (get_prop E n)) as Hd.
  assert (Hw : Keeps P (modify (fun s =>
            set_obj l (with_ob (Some ob) true (obj s l)) s))).
  { intros s0 (H01 & H02 & H03). unfold modify. cbn [st].
    unfold observed_by. rewrite obj_set_obj, decide_True by done.
    done. }
  unfold walk, observeArray. keeps.
Qed.

(** A call of [observe] that returns an observer leaves it on the
    object, and has counted the call when it was for root data. *)
Lemma observe_attaches n b s :
  out (observe E n (VRef l) b s) = Ok (Some ob) ->
  let s' := st (observe E n (VRef l) b s) in
  P s' /\ (b = true -> ob_vmCount (observer s' ob) <> 0).
Proof.
  assert (Hcount : forall s0,
    P s0 ->
    let r := (when b (modify (fun s =>
                set_observer ob
                  (with_vmCount (S (ob_vmCount (observer s ob)))
                     (observer s ob)) s)) ;; ret (Some ob)) s0 in
    P (st r) /\ (b = true -> ob_vmCount (observer (st r) ob) <> 0)).
  { intros s0 H0. destruct b; cbn [when].
    - rewrite bind_modify. cbn [ret st]. split; [done|]. intros _.
      unfold observer, set_observer, ret. cbn [observers st].
      rewrite lookup_insert_eq. cbn. done.
    - rewrite bind_ret. by split. }
  destruct n as [|n]; cbn [observe]; rewrite bind_gets;
    destruct (negb (isObject (obj s l)) || o_isVNode (obj s l)) eqn:Hc;
    try done;
    apply orb_false_iff in Hc as [Hio%negb_false_iff Hvn];
    (destruct (o_ob (obj s l)) as [ob0|] eqn:Hob;
     [rewrite bind_ret; intros Ho;
      assert (ob0 = ob) as -> by (rewrite counted_out in Ho; congruence);
      by apply Hcount|]).
  - rewrite run_bind, bind_gets. by destruct (_ && _).
  - rewrite bind_assoc, bind_gets.
    destruct (_ && _); [|by rewrite bind_ret].
    rewrite bind_assoc, run_bind.
    destruct (out (newObserver _ _ l s)) as [ob'| |] eqn:Hn; try done.
    rewrite bind_ret. cbn [out st evs]. intros Ho.
    assert (ob' = ob) as -> by (rewrite counted_out in Ho; congruence).
    apply Hcount. by apply newObserver_attaches.
Qed.

End Observed.

End ObserveFacts.

Module RootFacts.
Import Reactive ReactiveSpec ReactiveFacts DepFacts InstallFacts.
Import Deleting DeletingFacts ObserveSpec ObserveFacts.
#[local] Open Scope list_scope.
#[local] Unset Default Proof Using.

#[local] Arguments bind : simpl never.
#[local] Arguments gets : simpl never.
#[local] Arguments ret : simpl never.
#[local] Arguments modify : simpl never.

Section WithEnv.
Context (E : Env).

(** X16: [observe] gives an object one observer.  When a call of
    [observe] for an object has returned an observer and user code
    leaves the [__ob__] of the object alone, a call for the object in
    the state the first one leaves returns that observer and makes no
    other; it changes nothing, but counts in [vmCount] a call for
    root data. *)
Theorem observe_once n n' l b b' ob s :
  EnvKeeps (observed_by l ob) E ->
  out (observe E n (VRef l) b s) = Ok (Some ob) ->
  let s' := st (observe E n (VRef l) b s) in
  observe E n' (VRef l) b' s'
  = mkRes (Ok (Some ob))
      (if b'
       then set_observer ob
              (with_vmCount (S (ob_vmCount (observer s' ob)))
                 (observer s' ob)) s'
       else s') [].
Proof.
  intros HE Ho. cbv zeta.
  destruct (observe_attaches E l ob HE n b s Ho) as [(H1 & H2 & H3) _].
  set (s' := st (observe E n (VRef l) b s)) in *.
  destruct n'; cbn [observe]; rewrite bind_gets, H1, H2, H3;
    cbn [negb orb]; rewrite bind_ret;
    destruct b'; cbn [when]; by rewrite ?bind_modify, ?bind_ret.
Qed.

Lemma set_refused n l key val s :
  (isArray (obj s l) = false \/ isValidArrayIndex E key = None) ->
  has_property s l key = false ->
  o_isVue (obj s l) = true
  \/ (exists ob, o_ob (obj s l) = Some ob
                 /\ ob_vmCount (observer s ob) <> 0) ->
  set E n (VRef l) key val s
  = mkRes (Ok val) s
      (if production E then []
       else [EvWarn ("Avoid adding reactive properties to a Vue instance or its root $data " ++
                     "at runtime - declare it upfront in the data option.")]).
Proof.
  intros Hk Hp Hroot. unfold set. rewrite bind_gets.
  assert ((if isArray (obj s l) then isValidArrayIndex E key else None)
          = None) as ->.
  { destruct Hk as [-> | ->]; [done|]. by destruct (isArray _). }
  rewrite bind_gets, Hp. cbn [andb]. rewrite !bind_gets.
  assert (o_isVue (obj s l)
          || negb (Nat.eqb (match o_ob (obj s l) with
                            | Some ob => ob_vmCount (observer s ob)
                            | None => 0
                            end) 0) = true) as ->.
  { destruct Hroot as [-> | (ob & -> & Hn)]; [done|].
    apply orb_true_iff. right. apply negb_true_iff.
    by apply Nat.eqb_neq. }
  destruct (production E); cbn [negb when].
  - by rewrite bind_ret.
  - unfold warn. by rewrite bind_emit.
Qed.

Lemma ob_of_own s l ob : o_ob (obj s l) = Some ob -> ob_of s l = Some ob.
Proof. intros H. unfold ob_of. destruct (size (heap s)); cbn; by rewrite H. Qed.


End WithEnv.

End RootFacts.

Module SealedFacts.
Import Reactive ReactiveSpec ReactiveFacts InstallFacts.
#[local] Open Scope list_scope.
#[local] Unset Default Proof Using.

#[local] Arguments bind : simpl never.
#[local] Arguments gets : simpl never.
#[local] Arguments ret : simpl never.
#[local] Arguments modify : simpl never.

(** X18: [defineReactive] leaves a property that is not configurable
    as it is.  It returns without reading the property, without
    observing a value and without defining anything: the objects and
    the closures are what they were, and all that is left of the call
    is the dep it made first. *)
Theorem sealed_property_is_left E n o key p val customSetter shallow s :
  own (obj s o) key = Some p ->
  configurable p = false ->
  let r := defineReactive E n o key val customSetter shallow s in
  r = mkRes (Ok tt) (st (newDep s)) []
  /\ heap (st r) = heap s /\ cells (st r) = cells s
  /\ observers (st r) = observers s
  /\ dep_uid (st r) = S (dep_uid s)
  /\ subs_of (st r) (dep_uid s) = [].
Proof.
  intros Hown Hc. cbv zeta.
  assert (defineReactive E n o key val customSetter shallow s
          = mkRes (Ok tt) (st (newDep s)) []) as ->.
  { unfold defineReactive, defineReactive_with.
    rewrite run_bind. cbn [newDep out st evs].
    rewrite bind_gets.
    change (obj (set_subs _ _ (set_dep_uid _ s)) o) with (obj s o).
    by rewrite Hown, Hc. }
  split_and!; try done.
  cbn [st newDep]. unfold subs_of, set_subs. cbn [subs].
  by rewrite lookup_insert_eq.
Qed.

End SealedFacts.

(** * More statements on examples *)

Module MoreWitnesses.
Import Reactive ReactiveSpec ReactiveFacts DepFacts Examples MoreExamples.
#[local] Open Scope list_scope.

Lemma s_reading_reachable : reachable s_reading.
Proof.
  apply reach_depend, reach_pushTarget;
    [apply reach_initWatcher, reach_newDep, reach_init|].
  intros w [= <-]. vm_compute. lia.
Qed.

Lemma s_subscribed_inv : Inv s_subscribed.
Proof.
  apply reachable_inv, reach_cleanupDeps, reach_popTarget,
    s_reading_reachable.
Qed.

Lemma s_computed_inv : Inv s_computed.
Proof.
  apply reachable_inv, reach_pushTarget;
    [apply reach_initWatcher, reach_cleanupDeps, reach_popTarget,
       s_reading_reachable|].
  intros w [= <-]. vm_compute. lia.
Qed.

(** X11, on the watcher 1, a subscriber of the dep 0. *)
Lemma teardown_unsubscribes_witness :
  Inv s_subscribed
  /\ w_active (watcher s_subscribed 1) = true
  /\ w_vm (watcher s_subscribed 1) = VRef 9
  /\ subs_of s_subscribed 0 = [1]
  /\ (1 ∉ subs_of (st (teardown 1 s_subscribed)) 0)
  /\ run quiet_env 5 1 (st (teardown 1 s_subscribed))
     = mkRes (Ok tt) (st (teardown 1 s_subscribed)) [].
Proof.
  assert (H1 : w_active (watcher s_subscribed 1) = true)
    by (vm_compute; reflexivity).
  assert (H2 : w_vm (watcher s_subscribed 1) = VRef 9)
    by (vm_compute; reflexivity).
  assert (H3 : 0 ∈ w_deps (watcher s_subscribed 1))
    by (vm_compute; apply list_elem_of_here).
  destruct (WatcherMore.teardown_unsubscribes quiet_env 5 1 9 s_subscribed
              s_subscribed_inv H1 H2)
    as (_ & _ & Hgone & _ & _ & _ & _ & Hrun).
  split; [exact s_subscribed_inv|]. split; [exact H1|]. split; [exact H2|].
  split; [vm_compute; reflexivity|]. split; [exact (Hgone 0 H3)|exact Hrun].
Defined.

(** X12, on the watcher 1, whose deps are the dep 0, while the
    watcher 2 is evaluated. *)
Lemma depend_hands_deps_on_witness :
  Inv s_computed
  /\ active (target s_computed) = Some 2
  /\ w_deps (watcher s_computed 1) = [0]
  /\ 0 ∈ w_newDeps (watcher (st (watcher_depend 1 s_computed)) 2)
  /\ 2 ∈ subs_of (st (watcher_depend 1 s_computed)) 0.
Proof.
  assert (H1 : active (target s_computed) = Some 2)
    by (vm_compute; reflexivity).
  assert (H2 : w_deps (watcher s_computed 1) = [0])
    by (vm_compute; reflexivity).
  pose proof (WatcherMore.depend_hands_deps_on 1 s_computed s_computed_inv)
    as (_ & _ & H).
  rewrite H1 in H. destruct H as (Hn & Hs & _ & _).
  split; [exact s_computed_inv|]. split; [exact H1|]. split; [exact H2|].
  split.
  - apply Hn. right. rewrite H2. apply list_elem_of_here.
  - apply Hs.
    + rewrite H2. apply list_elem_of_here.
    + vm_compute. apply not_elem_of_nil.
    + vm_compute. apply not_elem_of_nil.
Defined.



(** X15, on the property [a] of the observed object [{ a: 1 }]. *)
Lemma del_notifies_witness :
  Deleting.ob_of s_observed 1 = Some 0
  /\ ob_vmCount (observer s_observed 0) = 0
  /\ own (obj s_observed 1) "a"
     = Some (PAccessor (Some (GReactive 0)) (Some (SReactive 0)) true true)
  /\ evs (Deleting.del quiet_env 5 (VRef 1) "a" s_observed) = [EvNotify 0]
  /\ own (obj (st (Deleting.del quiet_env 5 (VRef 1) "a" s_observed)) 1) "a"
     = None.
Proof.
  assert (H1 : Deleting.ob_of s_observed 1 = Some 0)
    by (vm_compute; reflexivity).
  assert (H2 : ob_vmCount (observer s_observed 0) = 0)
    by (vm_compute; reflexivity).
  assert (H3 : own (obj s_observed 1) "a"
               = Some (PAccessor (Some (GReactive 0)) (Some (SReactive 0))
                         true true)) by (vm_compute; reflexivity).
  assert (H4 : isArray (obj s_observed 1) = false
               \/ isValidArrayIndex quiet_env "a" = None)
    by (left; vm_compute; reflexivity).
  assert (H5 : o_isVue (obj s_observed 1) = false)
    by (vm_compute; reflexivity).
  assert (H6 : o_frozen (obj s_observed 1) = false)
    by (vm_compute; reflexivity).
  destruct (DeletingFacts.del_notifies quiet_env 5 1 "a" _ 0 s_observed
              H4 H5 H6 H1 H2 H3 eq_refl) as [Hd Ho].
  split; [exact H1|]. split; [exact H2|]. split; [exact H3|].
  rewrite Hd. split; vm_compute; reflexivity.
Defined.

Lemma s_tracking_inv : Inv s_tracking.
Proof.
  apply reachable_inv, reach_pushTarget;
    [apply reach_initWatcher,
       (reach_untouched (st (newDep (st (newDep init)))));
       [apply reach_newDep, reach_newDep, reach_init
       |split_and!; vm_compute; reflexivity]|].
  intros w [= <-]. vm_compute. lia.
Qed.

(** X22, on the property [a] of the observed object [{ a: 1 }],
    read while the watcher 1 is evaluated. *)
Lemma reading_collects_witness :
  Inv s_tracking
  /\ active (target s_tracking) = Some 1
  /\ c_getter (cell s_tracking 0) = None
  /\ GetterSpec.deps_read s_tracking 0 = [1]
  /\ out (reactiveGetter quiet_env 5 0 s_tracking) = Ok one
  /\ 1 ∈ w_newDeps (watcher (st (reactiveGetter quiet_env 5 0 s_tracking)) 1)
  /\ 1 ∈ subs_of (st (reactiveGetter quiet_env 5 0 s_tracking)) 1.
Proof.
  assert (H1 : active (target s_tracking) = Some 1)
    by (vm_compute; reflexivity).
  assert (H2 : c_getter (cell s_tracking 0) = None)
    by (vm_compute; reflexivity).
  assert (H3 : is_array s_tracking (c_val (cell s_tracking 0)) = false)
    by (vm_compute; reflexivity).
  assert (H4 : GetterSpec.deps_read s_tracking 0 = [1])
    by (vm_compute; reflexivity).
  destruct (GetterFacts.reading_collects quiet_env 5 0 1 s_tracking
              s_tracking_inv H1 H2 H3) as (Ho & _ & _ & _ & Hn & Hs & _).
  split; [exact s_tracking_inv|]. split; [exact H1|]. split; [exact H2|].
  split; [exact H4|]. split; [rewrite Ho; vm_compute; reflexivity|]. split.
  - apply Hn. right. rewrite H4. apply list_elem_of_here.
  - apply Hs.
    + rewrite H4. apply list_elem_of_here.
    + vm_compute. apply not_elem_of_nil.
    + vm_compute. apply not_elem_of_nil.
Defined.

Lemma quiet_env_keeps P : ObserveSpec.EnvKeeps P quiet_env.
Proof. intros f this args s Hs. exact Hs. Qed.

(** X16, on the object [{ a: 1 }]: a second call of [observe]. *)
Lemma observe_once_witness :
  out (observe quiet_env 5 (VRef 1) false s_plain) = Ok (Some 0)
  /\ observe quiet_env 5 (VRef 1) false
       (st (observe quiet_env 5 (VRef 1) false s_plain))
     = mkRes (Ok (Some 0)) (st (observe quiet_env 5 (VRef 1) false s_plain))
         [].
Proof.
  assert (H : out (observe quiet_env 5 (VRef 1) false s_plain) = Ok (Some 0))
    by (vm_compute; reflexivity).
  split; [exact H|].
  exact (RootFacts.observe_once quiet_env 5 5 1 false false 0 s_plain
           (quiet_env_keeps _) H).
Defined.


(** X18, on a property [a] that is not configurable. *)
Lemma sealed_property_is_left_witness :
  own (obj s_sealed 1) "a" = Some (PData one true true false)
  /\ heap (st (defineReactive quiet_env 5 1 "a" None None false s_sealed))
     = heap s_sealed
  /\ dep_uid (st (defineReactive quiet_env 5 1 "a" None None false s_sealed))
     = 1.
Proof.
  assert (H : own (obj s_sealed 1) "a" = Some (PData one true true false))
    by (vm_compute; reflexivity).
  destruct (SealedFacts.sealed_property_is_left quiet_env 5 1 "a" _ None None
              false s_sealed H eq_refl) as (_ & Hh & _ & _ & Hd & _).
  split; [exact H|]. split; [exact Hh|exact Hd].
Defined.

End MoreWitnesses.

Module MoreParserWitnesses.
Import HtmlParser HtmlSpec ParserSpec ParserMore Examples MoreExamples.
#[local] Open Scope list_scope.

(** X3, on a template with a comment, parsed in production with the
    callback [chars] alone. *)
Lemma only_given_callbacks_witness :
  parseHTML ascii_only true non_phrasing chars_only "<div><p>a</div><!--c-->"
  = Some [Chars "a" (Some (8, 9))]
  /\ Forall (fun e => given true chars_only e = true)
       [Chars "a" (Some (8, 9))].
Proof.
  assert (H : parseHTML ascii_only true non_phrasing chars_only
                "<div><p>a</div><!--c-->"
              = Some [Chars "a" (Some (8, 9))]) by (vm_compute; reflexivity).
  split; [exact H|].
  exact (only_given_callbacks ascii_only true non_phrasing chars_only _ _ H).
Defined.

(** X4, on a template that leaves [<p>] open. *)
Lemma every_element_is_closed_witness :
  has_start all_callbacks = true /\ has_end all_callbacks = true
  /\ parseHTML ascii_only false non_phrasing all_callbacks "<div><p>a</div>"
     = Some [Start "div" [] false 0 5; Start "p" [] false 5 8;
             Chars "a" (Some (8, 9));
             Warn "tag <p> has no matching end tag." (Some 5) (Some 8);
             End_ "p" 9 15; End_ "div" 9 15]
  /\ opens [Start "div" [] false 0 5; Start "p" [] false 5 8;
            Chars "a" (Some (8, 9));
            Warn "tag <p> has no matching end tag." (Some 5) (Some 8);
            End_ "p" 9 15; End_ "div" 9 15]
     = closes [Start "div" [] false 0 5; Start "p" [] false 5 8;
               Chars "a" (Some (8, 9));
               Warn "tag <p> has no matching end tag." (Some 5) (Some 8);
               End_ "p" 9 15; End_ "div" 9 15].
Proof.
  assert (H : parseHTML ascii_only false non_phrasing all_callbacks
                "<div><p>a</div>"
              = Some [Start "div" [] false 0 5; Start "p" [] false 5 8;
                      Chars "a" (Some (8, 9));
                      Warn "tag <p> has no matching end tag." (Some 5)
                        (Some 8);
                      End_ "p" 9 15; End_ "div" 9 15])
    by (vm_compute; reflexivity).
  split; [reflexivity|]. split; [reflexivity|]. split; [exact H|].
  exact (every_element_is_closed ascii_only false non_phrasing all_callbacks
           _ _ eq_refl eq_refl H).
Defined.

(** X5, on a text with an entity. *)
Lemma text_without_markup_witness :
  indexOf "<" "a &amp; b" = None
  /\ parseHTML ascii_only false non_phrasing all_callbacks "a &amp; b"
     = Some [Chars "a &amp; b" (Some (0, 9))].
Proof.
  assert (H : indexOf "<" "a &amp; b" = None) by (vm_compute; reflexivity).
  split; [exact H|].
  exact (text_without_markup ascii_only false non_phrasing all_callbacks
           "a &amp; b" H).
Defined.

End MoreParserWitnesses.

Module MoreCompilerWitnesses.
Import ToFunction CacheSpec CacheFacts CacheMore Examples MoreExamples.
#[local] Open Scope list_scope.

#[local] Abbreviation call :=
  (compileToFunctions compile_text new_function (fun _ => false) false).
#[local] Abbreviation after_ :=
  (after compile_text new_function (fun _ => false) false).

(** X8, on the template [x] with the delimiters [[[] and []]], and
    the template [[[,]]x] without delimiters. *)
Lemma delimiters_join_template_witness :
  delimiters with_delimiters = Some ("[[", "]]")
  /\ delimiters no_delimiters = None
  /\ (call "x" with_delimiters
        (after_ [] (createCompileToFunctionFn tt))).1.1 = Ok 0
  /\ exists evs,
       call "[[,]]x" no_delimiters
         (after_ []
            (call "x" with_delimiters
               (after_ [] (createCompileToFunctionFn tt))).1.2)
       = (Ok 0,
          after_ []
            (call "x" with_delimiters
               (after_ [] (createCompileToFunctionFn tt))).1.2,
          evs)
       /\ existsb compiles evs = false.
Proof.
  assert (H1 : delimiters with_delimiters = Some ("[[", "]]"))
    by reflexivity.
  assert (H2 : delimiters no_delimiters = None) by reflexivity.
  assert (H3 : (call "x" with_delimiters
                  (after_ [] (createCompileToFunctionFn tt))).1.1 = Ok 0)
    by (vm_compute; reflexivity).
  split; [exact H1|]. split; [exact H2|]. split; [exact H3|].
  exact (delimiters_join_template compile_text new_function (fun _ => false)
           false tt [] [] "x" "[[" "]]" with_delimiters no_delimiters 0
           H1 H2 H3).
Defined.

(** X10, on the first call of a closure. *)
Lemma miss_makes_new_object_witness :
  cache (after_ [] (createCompileToFunctionFn tt))
    !! key_of no_delimiters "a" = None
  /\ (call "a" no_delimiters
        (after_ [] (createCompileToFunctionFn tt))).1.1 = Ok 0
  /\ results (after_ [] (createCompileToFunctionFn tt)) !! 0 = None
  /\ is_Some (results (call "a" no_delimiters
                         (after_ [] (createCompileToFunctionFn tt))).1.2
              !! 0).
Proof.
  assert (H1 : cache (after_ [] (createCompileToFunctionFn tt))
                 !! key_of no_delimiters "a" = None)
    by (vm_compute; reflexivity).
  assert (H2 : (call "a" no_delimiters
                  (after_ [] (createCompileToFunctionFn tt))).1.1 = Ok 0)
    by (vm_compute; reflexivity).
  pose proof (miss_makes_new_object compile_text new_function
                (fun _ => false) false tt [] "a" no_delimiters H1) as H.
  cbv zeta in H. rewrite H2 in H. destruct H as (Ha & _ & Hb & _).
  split; [exact H1|]. split; [exact H2|]. split; [exact Ha|exact Hb].
Defined.

(** X20, on a template with two spaces before [<p>], compiled
    with [outputSourceRange] outside production. *)
Lemma diagnostics_in_order_witness :
  CreateCompiler.compile (fun b : bool => b) base_compile detect_errors false
    no_options "  <p>  " (Some with_ranges) tt
  = (Ok (CreateCompiler.mkCompiled tt "<p>" []
           [CreateCompiler.Data "bad" (Some 2) (Some 5);
            CreateCompiler.Data "late" None None]
           [CreateCompiler.Data "hint" None None]), tt)
  /\ length [CreateCompiler.Data "bad" (Some 2) (Some 5);
             CreateCompiler.Data "late" None None]
     + length [CreateCompiler.Data "hint" None None]
     = length (CompilerSpec.calls_of (fun b : bool => b) base_compile
                 detect_errors false no_options "  <p>  "
                 (Some with_ranges) tt).
Proof.
  assert (H : CreateCompiler.compile (fun b : bool => b) base_compile
                detect_errors false no_options "  <p>  "
                (Some with_ranges) tt
              = (Ok (CreateCompiler.mkCompiled tt "<p>" []
                       [CreateCompiler.Data "bad" (Some 2) (Some 5);
                        CreateCompiler.Data "late" None None]
                       [CreateCompiler.Data "hint" None None]), tt))
    by (vm_compute; reflexivity).
  split; [exact H|].
  exact (proj1 (proj2 (proj2
           (CompilerFacts.diagnostics_in_order (fun b : bool => b)
              base_compile detect_errors false no_options "  <p>  "
              (Some with_ranges) tt _ _ H)))).
Defined.

End MoreCompilerWitnesses.
